(** * Mount communication and motion core of the piggyback telescope driver

    A shallow embedding of [examples/piggybacktelescope.py] and
    [examples/TelescopeComm.py]: the 3-byte angle codec, the RS-232
    transaction queue, the two-phase GOTO loop, the motor-angle reads,
    the hour-angle destination computation and the tracking-rate frames.

    Python [float] angles are embedded as exact rationals ([Q]).  Where
    the rounding of binary64 decides a branch or an integer, the
    computation is given a second time with every operation rounded
    ([Rounded], [B64.rnd]); the floats that are no numbers occur in the
    tracking rates only ([pynum]).  Python [str] values are [string],
    [bytes] values are [list byte], Python [int] values are [Z]. *)

From Stdlib Require Import ZArith QArith Qround Qabs Lqa Lia.
From Stdlib Require Import List Bool String Ascii.
From Stdlib.Strings Require Import Byte.
Import ListNotations.

Local Open Scope string_scope.
Local Open Scope Z_scope.

(** ** Results of fallible Python code *)

Inductive exn : Type :=
| ValueError
| IndexError
| TypeError
| UnboundLocalError
| OverflowError.

Inductive result (A : Type) : Type :=
| Ok (a : A)
| Raise (e : exn).

Arguments Ok {A} a.
Arguments Raise {A} e.

Definition rbind {A B : Type} (r : result A) (k : A -> result B) : result B :=
  match r with
  | Ok a => k a
  | Raise e => Raise e
  end.

Declare Scope result_scope.
Delimit Scope result_scope with result.
Notation "x <- r ;; k" := (rbind r (fun x => k))
  (at level 61, r at next level, right associativity) : result_scope.
Notation "' pat <- r ;; k" := (rbind r (fun x => match x with pat => k end))
  (at level 61, pat pattern, r at next level, right associativity)
  : result_scope.

(** ** The Python built-ins the driver relies on *)

Module Py.

(** [s[i:j]], [s[i:]] and [s[:j]] for non-negative constant bounds; like
    Python's slices, [substring] clamps at the end of the string. *)
Definition slice (i j : nat) (s : string) : string := substring i (j - i) s.
Definition slice_from (i : nat) (s : string) : string :=
  substring i (String.length s - i) s.
Definition slice_to (j : nat) (s : string) : string := substring 0 j s.

(** [n * s]: a non-positive count gives the empty string. *)
Fixpoint str_repeat (n : nat) (s : string) : string :=
  match n with
  | O => ""
  | S n' => s ++ str_repeat n' s
  end.

Definition str_mul (n : Z) (s : string) : string := str_repeat (Z.to_nat n) s.

(** Binary digits of a positive number, most significant first. *)
Fixpoint pos_bin (p : positive) : string :=
  match p with
  | xH => "1"
  | xO p' => pos_bin p' ++ "0"
  | xI p' => pos_bin p' ++ "1"
  end.

(** [bin(z)] *)
Definition bin (z : Z) : string :=
  match z with
  | Z0 => "0b0"
  | Zpos p => "0b" ++ pos_bin p
  | Zneg p => "-0b" ++ pos_bin p
  end.

Definition hex_digit (d : Z) : ascii :=
  match d with
  | 0 => "0" | 1 => "1" | 2 => "2" | 3 => "3"
  | 4 => "4" | 5 => "5" | 6 => "6" | 7 => "7"
  | 8 => "8" | 9 => "9" | 10 => "a" | 11 => "b"
  | 12 => "c" | 13 => "d" | 14 => "e" | _ => "f"
  end%char.

(** Hexadecimal digits of a non-negative number, most significant first;
    [fuel] bounds the number of digits. *)
Fixpoint hex_digits (fuel : nat) (n : Z) : string :=
  match fuel with
  | O => String (hex_digit (n mod 16)) ""
  | S fuel' =>
      if n <? 16 then String (hex_digit n) ""
      else hex_digits fuel' (n / 16) ++ String (hex_digit (n mod 16)) ""
  end.

Definition nat_hex (n : Z) : string := hex_digits (Z.to_nat (Z.log2 n)) n.

(** [hex(z)] of an integer *)
Definition hex (z : Z) : string :=
  if z <? 0 then "-0x" ++ nat_hex (- z) else "0x" ++ nat_hex z.

(** Value of a digit character in bases up to sixteen. *)
Definition digit_value (c : ascii) : option Z :=
  let n := Z.of_nat (nat_of_ascii c) in
  if (48 <=? n) && (n <=? 57) then Some (n - 48)
  else if (97 <=? n) && (n <=? 102) then Some (n - 87)
  else if (65 <=? n) && (n <=? 70) then Some (n - 55)
  else None.

Fixpoint parse_digits (base : Z) (acc : Z) (s : string) : option Z :=
  match s with
  | EmptyString => Some acc
  | String c s' =>
      match digit_value c with
      | Some d => if d <? base then parse_digits base (base * acc + d) s' else None
      | None => None
      end
  end.

(** [int(s, base)] on the strings the driver produces: a non-empty run of
    digits.  (Python also accepts a sign, a base prefix, underscores and
    surrounding blanks; none of them can occur in a slice of [bin] or
    [hex] output with the prefix cut off.)  Anything else is the
    [ValueError] Python raises on an empty or non-numeric string. *)
Definition int_of_str (s : string) (base : Z) : result Z :=
  match s with
  | EmptyString => Raise ValueError
  | _ => match parse_digits base 0 s with
         | Some v => Ok v
         | None => Raise ValueError
         end
  end.

(** [x % m] on floats, for a positive modulus. *)
Definition fmod (x m : Q) : Q := (x - m * inject_Z (Qfloor (x / m)))%Q.

(** [int(x)] of a float: truncation toward zero. *)
Definition int_of_float (x : Q) : Z := Z.quot (Qnum x) (Z.pos (Qden x)).

(** [round(x)] of a float: nearest integer, ties to even. *)
Definition round (x : Q) : Z :=
  let f := Qfloor x in
  let r := (x - inject_Z f)%Q in
  match (r ?= 1 # 2)%Q with
  | Lt => f
  | Gt => f + 1
  | Eq => if Z.even f then f else f + 1
  end.

End Py.

(** ** AngleCodec *)

(** The idiom [if len(h) < 2: h = "0" + h]. *)
Definition pad2 (h : string) : string :=
  if (String.length h <? 2)%nat then "0" ++ h else h.

(** The local [b] of [encodeAngle] after the padding line
    [b = b[:2] + add*"0" + b[2:]]. *)
Definition encodeAngle_pattern (integer : Z) : string :=
  let b := Py.bin integer in
  let length := String.length (Py.slice_from 2 b) in
  let add := 24 - Z.of_nat length in
  Py.slice_to 2 b ++ Py.str_mul add "0" ++ Py.slice_from 2 b.

(** The local [integer] of [encodeAngle]. *)
Definition encodeAngle_integer (alpha : Q) : Z :=
  let alpha := Py.fmod alpha 360 in
  Py.int_of_float ((alpha / 360) * inject_Z (2 ^ 24))%Q.

Definition encodeAngle (alpha : Q) : result (string * string * string) :=
  let integer := encodeAngle_integer alpha in
  let b := encodeAngle_pattern integer in
  let b1 := Py.slice 2 10 b in
  let b2 := Py.slice 10 18 b in
  let b3 := Py.slice 18 26 b in
  (b1 <- Py.int_of_str b1 2 ;;
   b2 <- Py.int_of_str b2 2 ;;
   b3 <- Py.int_of_str b3 2 ;;
   let h1 := pad2 (Py.slice_from 2 (Py.hex b1)) in
   let h2 := pad2 (Py.slice_from 2 (Py.hex b2)) in
   let h3 := pad2 (Py.slice_from 2 (Py.hex b3)) in
   Ok (h1, h2, h3))%result.

Definition decodeAngle (h1 h2 h3 : string) : result Q :=
  (v1 <- Py.int_of_str h1 16 ;;
   v2 <- Py.int_of_str h2 16 ;;
   v3 <- Py.int_of_str h3 16 ;;
   let integer := 2 ^ 16 * v1 + 2 ^ 8 * v2 + v3 in
   Ok ((inject_Z integer / inject_Z (2 ^ 24)) * 360)%Q)%result.

(** The same codec as the specification words it: the 24-bit integer is
    obtained with [round], then split into three big-endian bytes, each
    written as two hexadecimal digits. *)
Definition hex_byte (v : Z) : string :=
  String (Py.hex_digit (v / 16)) (String (Py.hex_digit (v mod 16)) "").

Definition bytes_be3 (n : Z) : string * string * string :=
  (hex_byte (n / 2 ^ 16), hex_byte ((n / 2 ^ 8) mod 2 ^ 8), hex_byte (n mod 2 ^ 8)).

Definition encodeAngle_spec (alpha : Q) : string * string * string :=
  let alpha := Py.fmod alpha 360 in
  bytes_be3 (Py.round ((alpha / 360) * inject_Z (2 ^ 24))%Q).


(** * The driver object

    ** Values and collaborators *)

(** A Python number: the tracking rates arrive as [int] or as [float];
    a float is a finite value, an infinity or not a number. *)
Inductive pynum : Type :=
| PyInt (z : Z)
| PyFloat (q : Q)
| PyInf (negative : bool)
| PyNaN.

(** [pyobs.utils.enums.MotionStatus], as far as the driver uses it. *)
Inductive MotionStatus : Type :=
| PARKED | INITIALIZING | IDLE | SLEWING | POSITIONED
| TRACKING | ABORTING | PARKING | ERROR.

(** What the driver hands to [log]: the level and the message (format
    arguments are not kept), or a reply passed to [log.info] as it is. *)
Inductive log_record : Type :=
| Info (msg : string)
| InfoData (data : list byte)
| Warning (msg : string)
| Error (msg : string).

(** ** Arithmetic on Python numbers, as [tracking] uses it

    The rates go through numpy ([np.sign], [np.abs]), so the floats are
    [np.float64]: an operation whose result is too large gives an
    infinity, an undefined one gives not-a-number, and neither raises.
    The operations of [tracking] on finite floats (times 4, floor
    division by 256, times 256, the difference) are exact in binary64,
    so that no rounding is involved apart from the overflow. *)

Definition Qsign (q : Q) : Q :=
  match (q ?= 0)%Q with
  | Lt => (-1)%Q
  | Eq => 0%Q
  | Gt => 1%Q
  end.

(** The largest finite binary64 value, and the float a real result
    becomes. *)
Definition float_max : Q := inject_Z ((2 ^ 53 - 1) * 2 ^ 971).

Definition Qnegative (q : Q) : bool := Qnum q <? 0.

Definition to_float (q : Q) : pynum :=
  if Qle_bool (Qabs q) float_max then PyFloat q else PyInf (Qnegative q).

(** The operand of a mixed operation as a float. *)
Definition num_float (x : pynum) : pynum :=
  match x with
  | PyInt z => to_float (inject_Z z)
  | _ => x
  end.

Definition float_mul (x y : pynum) : pynum :=
  match x, y with
  | PyFloat a, PyFloat b => to_float (a * b)
  | PyInf s, PyInf s' => PyInf (xorb s s')
  | PyInf s, PyFloat b | PyFloat b, PyInf s =>
      if Qeq_bool b 0 then PyNaN else PyInf (xorb s (Qnegative b))
  | _, _ => PyNaN
  end.

Definition float_sub (x y : pynum) : pynum :=
  match x, y with
  | PyFloat a, PyFloat b => to_float (a - b)
  | PyInf s, PyInf s' => if Bool.eqb s s' then PyNaN else PyInf s
  | PyInf s, PyFloat _ => PyInf s
  | PyFloat _, PyInf s => PyInf (negb s)
  | _, _ => PyNaN
  end.

(** [np.floor_divide] on floats: an infinite dividend gives
    not-a-number, a zero divisor the quotient of the plain division. *)
Definition float_floordiv (x y : pynum) : pynum :=
  match x, y with
  | PyFloat a, PyFloat b =>
      if Qeq_bool b 0 then
        if Qeq_bool a 0 then PyNaN else PyInf (Qnegative a)
      else to_float (inject_Z (Qfloor (a / b)))
  | PyFloat a, PyInf s =>
      if Qeq_bool a 0 then PyFloat 0
      else if Bool.eqb (Qnegative a) s then PyFloat 0 else PyFloat (-1)
  | _, _ => PyNaN
  end.

(** [np.sign(x)], [np.abs(x)] *)
Definition np_sign (x : pynum) : pynum :=
  match x with
  | PyInt z => PyInt (Z.sgn z)
  | PyFloat q => PyFloat (Qsign q)
  | PyInf negative => PyFloat (if negative then -1 else 1)
  | PyNaN => PyNaN
  end.

Definition np_abs (x : pynum) : pynum :=
  match x with
  | PyInt z => PyInt (Z.abs z)
  | PyFloat q => PyFloat (Qabs q)
  | PyInf _ => PyInf false
  | PyNaN => PyNaN
  end.

(** [x * y], [x - y] and [x // y]: integers stay integers, a float
    operand makes the result a float. *)
Definition num_mul (x y : pynum) : pynum :=
  match x, y with
  | PyInt a, PyInt b => PyInt (a * b)
  | _, _ => float_mul (num_float x) (num_float y)
  end.

Definition num_sub (x y : pynum) : pynum :=
  match x, y with
  | PyInt a, PyInt b => PyInt (a - b)
  | _, _ => float_sub (num_float x) (num_float y)
  end.

Definition num_floordiv (x y : pynum) : pynum :=
  match x, y with
  | PyInt a, PyInt b => PyInt (a / b)
  | _, _ => float_floordiv (num_float x) (num_float y)
  end.

(** [int(x)]: not-a-number has no integer ([ValueError]), nor has an
    infinity ([OverflowError]). *)
Definition num_int (x : pynum) : result Z :=
  match x with
  | PyInt z => Ok z
  | PyFloat q => Ok (Py.int_of_float q)
  | PyInf _ => Raise OverflowError
  | PyNaN => Raise ValueError
  end.

(** [hex(x)]: only an integer has a hexadecimal rendering. *)
Definition num_hex (x : pynum) : result string :=
  match x with
  | PyInt z => Ok (Py.hex z)
  | _ => Raise TypeError
  end.

(** [x >= 0] *)
Definition num_ge0 (x : pynum) : bool :=
  match x with
  | PyInt z => 0 <=? z
  | PyFloat q => Qle_bool 0 q
  | PyInf negative => negb negative
  | PyNaN => false
  end.

(** ** Hour angle and motor targets *)

Definition HourAngle (LST RA : Q) : Q :=
  let hourDiff := Py.fmod (LST - RA) 24 in
  let hourDiff :=
    match (hourDiff ?= 12)%Q with
    | Gt => (- (24) + hourDiff)%Q
    | _ => hourDiff
    end in
  let convertAngle := (hourDiff * 15)%Q in
  convertAngle.

(** Lines 164-186 of [_move_radec]: the right ascension in hours and the
    two motor targets, given the sidereal time [lst] that the function
    obtains from astropy. *)
Definition _move_radec_targets (lst ra dec : Q) : Q * Q * Q :=
  let ra := Py.fmod (ra / 15) 24 in
  let tau := HourAngle lst ra in
  let sign := Qsign tau in
  let mot2 := if Qle_bool 0 sign then (180 - dec)%Q else dec in
  let mot2 := Py.fmod mot2 360 in
  let mot1 := if Qle_bool 0 sign then tau else Py.fmod tau 180 in
  (ra, mot1, mot2).

(** [TelescopeComm.AngleDiff] and the float path of
    [TelescopeComm.GOTO_RADEC] (right ascension given in hours). *)
Definition AngleDiff (LST RA : Q) : Q :=
  let hourDiff := Py.fmod (LST - RA) 24 in
  let hourDiff :=
    match (hourDiff ?= 12)%Q with
    | Gt => (- (24) + hourDiff)%Q
    | _ => hourDiff
    end in
  let convertAngle := (hourDiff * 15)%Q in
  convertAngle.

Definition GOTO_RADEC_targets (LST RA DEC : Q) : Q * Q * Q :=
  let RA := Py.fmod RA 24 in
  let angle := AngleDiff LST RA in
  let sign := Qsign angle in
  let angle2 := if Qle_bool 0 sign then (180 - DEC)%Q else DEC in
  let angle2 := Py.fmod angle2 360 in
  let angle1 := if Qle_bool 0 sign then angle else Py.fmod angle 180 in
  (RA, angle1, angle2).

(** The destination as the specification words it: the hour angle is
    the difference of sidereal time and right ascension, reduced to
    [0, 24) hours, moved to the signed range, times 15. *)
Definition normalizeSigned (h : Q) : Q :=
  if Qle_bool h 12 then h else (h - 24)%Q.

Definition destination_spec (LST RA Dec : Q) : Q * Q :=
  let tau := (normalizeSigned (Py.fmod (LST - RA) 24) * 15)%Q in
  let motor2 := Py.fmod (if Qle_bool 0 tau then (180 - Dec)%Q else Dec) 360 in
  let motor1 := if Qle_bool 0 tau then tau else Py.fmod tau 180 in
  (motor1, motor2).

(** ** The same computations in binary64

    Where a rounding decides a branch or an integer, exact rationals
    and the floats of the program part ways.  [B64.rnd] is the rounding
    of binary64 (to nearest, ties to even); the definitions of
    [Rounded] are the code once more, with every float operation
    followed by a rounding [rnd], which is [B64.rnd] for the program
    and the identity for exact arithmetic.  Floats are the rationals
    that [B64.rnd] leaves alone; infinities and not-a-number are not
    among them. *)

Module B64.

(** The integer part of the binary logarithm of a positive rational. *)
Definition ilog2 (q : Q) : Z :=
  let e := Z.log2 (Qnum q) - Z.log2 (Z.pos (Qden q)) in
  if Qle_bool (Qpower 2 e) q then e else e - 1.

(** The nearest integer, a tie going to the even one. *)
Definition round_even (q : Q) : Z :=
  let f := Qfloor q in
  match (q - inject_Z f ?= 1 # 2)%Q with
  | Lt => f
  | Gt => f + 1
  | Eq => if Z.even f then f else f + 1
  end.

(** The nearest binary64 value: 53 significant bits, the exponent not
    below -1022 (subnormal values below that), ties to even.  Overflow
    to an infinity is not part of it. *)
Definition rnd (q : Q) : Q :=
  if Qeq_bool q 0 then 0%Q
  else
    let a := Qabs q in
    let e := Z.max (ilog2 a) (-1022) in
    let u := Qpower 2 (e - 52) in
    let r := Qred (inject_Z (round_even (a / u)) * u) in
    if Qnum q <? 0 then Qopp r else r.

End B64.

Module Rounded.

Section Arithmetic.

Variable rnd : Q -> Q.

Definition add (x y : Q) : Q := rnd (Qred (x + y)).
Definition sub (x y : Q) : Q := rnd (Qred (x - y)).
Definition mul (x y : Q) : Q := rnd (Qred (x * y)).
Definition div (x y : Q) : Q := rnd (Qred (x / y)).

(** C's [fmod]: what is left of [x] after the multiples of [m] in it
    are taken away, the quotient cut towards zero.  It is exact. *)
Definition c_fmod (x m : Q) : Q :=
  Qred (x - m * inject_Z (Py.int_of_float (x / m))).

(** [x % m] on floats ([float_rem] of CPython, [npy_divmod] of numpy):
    [fmod], and when the remainder is not zero and its sign is not the
    one of [m], the sum of remainder and [m], which is rounded. *)
Definition float_rem (x m : Q) : Q :=
  let r := c_fmod x m in
  if Qeq_bool r 0 then 0%Q
  else if xorb (Qnegative m) (Qnegative r) then add r m
  else r.

(** [encodeAngle] *)
Definition encodeAngle_integer (alpha : Q) : Z :=
  let alpha := float_rem alpha 360 in
  Py.int_of_float (mul (div alpha 360) (inject_Z (2 ^ 24))).

Definition encodeAngle (alpha : Q) : result (string * string * string) :=
  let integer := encodeAngle_integer alpha in
  let b := encodeAngle_pattern integer in
  let b1 := Py.slice 2 10 b in
  let b2 := Py.slice 10 18 b in
  let b3 := Py.slice 18 26 b in
  (b1 <- Py.int_of_str b1 2 ;;
   b2 <- Py.int_of_str b2 2 ;;
   b3 <- Py.int_of_str b3 2 ;;
   let h1 := pad2 (Py.slice_from 2 (Py.hex b1)) in
   let h2 := pad2 (Py.slice_from 2 (Py.hex b2)) in
   let h3 := pad2 (Py.slice_from 2 (Py.hex b3)) in
   Ok (h1, h2, h3))%result.

(** [HourAngle], and lines 164-186 of [_move_radec] *)
Definition HourAngle (LST RA : Q) : Q :=
  let hourDiff := float_rem (sub LST RA) 24 in
  let hourDiff :=
    match (hourDiff ?= 12)%Q with
    | Gt => add (- (24)) hourDiff
    | _ => hourDiff
    end in
  let convertAngle := mul hourDiff 15 in
  convertAngle.

Definition _move_radec_targets (lst ra dec : Q) : Q * Q * Q :=
  let ra := float_rem (div ra 15) 24 in
  let tau := HourAngle lst ra in
  let sign := Qsign tau in
  let mot2 := if Qle_bool 0 sign then sub 180 dec else dec in
  let mot2 := float_rem mot2 360 in
  let mot1 := if Qle_bool 0 sign then tau else float_rem tau 180 in
  (ra, mot1, mot2).

(** [TelescopeComm.AngleDiff] and the float path of
    [TelescopeComm.GOTO_RADEC] *)
Definition AngleDiff (LST RA : Q) : Q :=
  let hourDiff := float_rem (sub LST RA) 24 in
  let hourDiff :=
    match (hourDiff ?= 12)%Q with
    | Gt => add (- (24)) hourDiff
    | _ => hourDiff
    end in
  let convertAngle := mul hourDiff 15 in
  convertAngle.

Definition GOTO_RADEC_targets (LST RA DEC : Q) : Q * Q * Q :=
  let RA := float_rem RA 24 in
  let angle := AngleDiff LST RA in
  let sign := Qsign angle in
  let angle2 := if Qle_bool 0 sign then sub 180 DEC else DEC in
  let angle2 := float_rem angle2 360 in
  let angle1 := if Qle_bool 0 sign then angle else float_rem angle 180 in
  (RA, angle1, angle2).

(** The destination as the specification words it, in the same
    arithmetic. *)
Definition normalizeSigned (h : Q) : Q :=
  if Qle_bool h 12 then h else sub h 24.

Definition destination_spec (LST RA Dec : Q) : Q * Q :=
  let tau := mul (normalizeSigned (float_rem (sub LST RA) 24)) 15 in
  let motor2 :=
    float_rem (if Qle_bool 0 tau then sub 180 Dec else Dec) 360 in
  let motor1 := if Qle_bool 0 tau then tau else float_rem tau 180 in
  (motor1, motor2).

End Arithmetic.

End Rounded.

(** The serial device behind [self.ser]: [write] and [readline] of
    pyserial.  The mount and the line are outside the driver, so they
    are an interface; link failures (exceptions of pyserial) are not
    modelled. *)
Class SerialPort (port : Type) : Type := {
  ser_write : list byte -> port -> port;
  ser_readline : port -> list byte * port
}.

Declare Scope driver_scope.
Delimit Scope driver_scope with driver.

(** How a call of driver code can end. *)
Inductive outcome (A : Type) : Type :=
| Done (a : A)      (* returned *)
| Fault (e : exn)   (* an exception left the call *)
| Waiting           (* suspended on the lock or on the queue event *)
| Running.          (* still polling when the step budget ran out *)

Arguments Done {A} a.
Arguments Fault {A} e.
Arguments Waiting {A}.
Arguments Running {A}.

Section Driver.

Context {port : Type} `{SerialPort port}.

(** The attributes of [piggyBackTelescope] the core reads and writes.
    [wire] is a history variable: every write and the reply read after
    it, oldest first.  [motion_status] stands for the status kept by
    [BaseTelescope._change_motion_status]. *)
Record telescope : Type := mkTelescope {
  identity : Z;
  RS232_QUEUE : list Z;
  lock_RS232_comm : bool;
  event_RS232_comm : bool;
  GOTO_IN_STOP : bool;
  GOTO_RUNNING : bool;
  ra : Q;
  dec : Q;
  mot1 : Q;
  mot2 : Q;
  tracking_rate_mot1 : pynum;
  tracking_rate_mot2 : pynum;
  motion_status : MotionStatus;
  log : list log_record;
  ser : port;
  wire : list (list byte * list byte)
}.

Definition set_identity (v : Z) (t : telescope) : telescope :=
  mkTelescope
    v (RS232_QUEUE t) (lock_RS232_comm t) (event_RS232_comm t)
    (GOTO_IN_STOP t) (GOTO_RUNNING t) (ra t) (dec t)
    (mot1 t) (mot2 t) (tracking_rate_mot1 t) (tracking_rate_mot2 t)
    (motion_status t) (log t) (ser t) (wire t).

Definition set_RS232_QUEUE (v : list Z) (t : telescope) : telescope :=
  mkTelescope
    (identity t) v (lock_RS232_comm t) (event_RS232_comm t)
    (GOTO_IN_STOP t) (GOTO_RUNNING t) (ra t) (dec t)
    (mot1 t) (mot2 t) (tracking_rate_mot1 t) (tracking_rate_mot2 t)
    (motion_status t) (log t) (ser t) (wire t).

Definition set_lock_RS232_comm (v : bool) (t : telescope) : telescope :=
  mkTelescope
    (identity t) (RS232_QUEUE t) v (event_RS232_comm t)
    (GOTO_IN_STOP t) (GOTO_RUNNING t) (ra t) (dec t)
    (mot1 t) (mot2 t) (tracking_rate_mot1 t) (tracking_rate_mot2 t)
    (motion_status t) (log t) (ser t) (wire t).

Definition set_event_RS232_comm (v : bool) (t : telescope) : telescope :=
  mkTelescope
    (identity t) (RS232_QUEUE t) (lock_RS232_comm t) v
    (GOTO_IN_STOP t) (GOTO_RUNNING t) (ra t) (dec t)
    (mot1 t) (mot2 t) (tracking_rate_mot1 t) (tracking_rate_mot2 t)
    (motion_status t) (log t) (ser t) (wire t).

Definition set_GOTO_IN_STOP (v : bool) (t : telescope) : telescope :=
  mkTelescope
    (identity t) (RS232_QUEUE t) (lock_RS232_comm t) (event_RS232_comm t)
    v (GOTO_RUNNING t) (ra t) (dec t)
    (mot1 t) (mot2 t) (tracking_rate_mot1 t) (tracking_rate_mot2 t)
    (motion_status t) (log t) (ser t) (wire t).

Definition set_GOTO_RUNNING (v : bool) (t : telescope) : telescope :=
  mkTelescope
    (identity t) (RS232_QUEUE t) (lock_RS232_comm t) (event_RS232_comm t)
    (GOTO_IN_STOP t) v (ra t) (dec t)
    (mot1 t) (mot2 t) (tracking_rate_mot1 t) (tracking_rate_mot2 t)
    (motion_status t) (log t) (ser t) (wire t).

Definition set_ra (v : Q) (t : telescope) : telescope :=
  mkTelescope
    (identity t) (RS232_QUEUE t) (lock_RS232_comm t) (event_RS232_comm t)
    (GOTO_IN_STOP t) (GOTO_RUNNING t) v (dec t)
    (mot1 t) (mot2 t) (tracking_rate_mot1 t) (tracking_rate_mot2 t)
    (motion_status t) (log t) (ser t) (wire t).

Definition set_dec (v : Q) (t : telescope) : telescope :=
  mkTelescope
    (identity t) (RS232_QUEUE t) (lock_RS232_comm t) (event_RS232_comm t)
    (GOTO_IN_STOP t) (GOTO_RUNNING t) (ra t) v
    (mot1 t) (mot2 t) (tracking_rate_mot1 t) (tracking_rate_mot2 t)
    (motion_status t) (log t) (ser t) (wire t).

Definition set_mot1 (v : Q) (t : telescope) : telescope :=
  mkTelescope
    (identity t) (RS232_QUEUE t) (lock_RS232_comm t) (event_RS232_comm t)
    (GOTO_IN_STOP t) (GOTO_RUNNING t) (ra t) (dec t)
    v (mot2 t) (tracking_rate_mot1 t) (tracking_rate_mot2 t)
    (motion_status t) (log t) (ser t) (wire t).

Definition set_mot2 (v : Q) (t : telescope) : telescope :=
  mkTelescope
    (identity t) (RS232_QUEUE t) (lock_RS232_comm t) (event_RS232_comm t)
    (GOTO_IN_STOP t) (GOTO_RUNNING t) (ra t) (dec t)
    (mot1 t) v (tracking_rate_mot1 t) (tracking_rate_mot2 t)
    (motion_status t) (log t) (ser t) (wire t).

Definition set_tracking_rate_mot1 (v : pynum) (t : telescope) : telescope :=
  mkTelescope
    (identity t) (RS232_QUEUE t) (lock_RS232_comm t) (event_RS232_comm t)
    (GOTO_IN_STOP t) (GOTO_RUNNING t) (ra t) (dec t)
    (mot1 t) (mot2 t) v (tracking_rate_mot2 t)
    (motion_status t) (log t) (ser t) (wire t).

Definition set_tracking_rate_mot2 (v : pynum) (t : telescope) : telescope :=
  mkTelescope
    (identity t) (RS232_QUEUE t) (lock_RS232_comm t) (event_RS232_comm t)
    (GOTO_IN_STOP t) (GOTO_RUNNING t) (ra t) (dec t)
    (mot1 t) (mot2 t) (tracking_rate_mot1 t) v
    (motion_status t) (log t) (ser t) (wire t).

Definition set_motion_status (v : MotionStatus) (t : telescope) : telescope :=
  mkTelescope
    (identity t) (RS232_QUEUE t) (lock_RS232_comm t) (event_RS232_comm t)
    (GOTO_IN_STOP t) (GOTO_RUNNING t) (ra t) (dec t)
    (mot1 t) (mot2 t) (tracking_rate_mot1 t) (tracking_rate_mot2 t)
    v (log t) (ser t) (wire t).

Definition set_log (v : list log_record) (t : telescope) : telescope :=
  mkTelescope
    (identity t) (RS232_QUEUE t) (lock_RS232_comm t) (event_RS232_comm t)
    (GOTO_IN_STOP t) (GOTO_RUNNING t) (ra t) (dec t)
    (mot1 t) (mot2 t) (tracking_rate_mot1 t) (tracking_rate_mot2 t)
    (motion_status t) v (ser t) (wire t).

Definition set_ser (v : port) (t : telescope) : telescope :=
  mkTelescope
    (identity t) (RS232_QUEUE t) (lock_RS232_comm t) (event_RS232_comm t)
    (GOTO_IN_STOP t) (GOTO_RUNNING t) (ra t) (dec t)
    (mot1 t) (mot2 t) (tracking_rate_mot1 t) (tracking_rate_mot2 t)
    (motion_status t) (log t) v (wire t).

Definition set_wire (v : list (list byte * list byte)) (t : telescope) : telescope :=
  mkTelescope
    (identity t) (RS232_QUEUE t) (lock_RS232_comm t) (event_RS232_comm t)
    (GOTO_IN_STOP t) (GOTO_RUNNING t) (ra t) (dec t)
    (mot1 t) (mot2 t) (tracking_rate_mot1 t) (tracking_rate_mot2 t)
    (motion_status t) (log t) (ser t) v.

(** ** Stateful code: state passing with the four outcomes *)

Definition M (A : Type) : Type := telescope -> outcome A * telescope.

Definition ret {A : Type} (a : A) : M A := fun t => (Done a, t).

Definition bind {A B : Type} (m : M A) (k : A -> M B) : M B :=
  fun t =>
    match m t with
    | (Done a, t') => k a t'
    | (Fault e, t') => (Fault e, t')
    | (Waiting, t') => (Waiting, t')
    | (Running, t') => (Running, t')
    end.

Definition raise {A : Type} (e : exn) : M A := fun t => (Fault e, t).
Definition suspend {A : Type} : M A := fun t => (Waiting, t).
Definition out_of_budget {A : Type} : M A := fun t => (Running, t).

Definition lift {A : Type} (r : result A) : M A :=
  match r with
  | Ok a => ret a
  | Raise e => raise e
  end.

Definition get {A : Type} (f : telescope -> A) : M A := fun t => (Done (f t), t).
Definition modify (f : telescope -> telescope) : M unit := fun t => (Done tt, f t).

Notation "x <- m ;; k" := (bind m (fun x => k))
  (at level 61, m at next level, right associativity) : driver_scope.
Notation "' pat <- m ;; k" := (bind m (fun x => match x with pat => k end))
  (at level 61, pat pattern, m at next level, right associativity)
  : driver_scope.
Notation "m ;; k" := (bind m (fun _ => k))
  (at level 61, right associativity) : driver_scope.
Local Open Scope driver_scope.

(** [try: body / except: handler / finally: final] with a bare
    [except]: an exception of the body is handed to the handler and is
    gone when the handler returns ([None]: the body's assignments may
    not have happened); [final] runs on every path that leaves the
    statement. *)
Definition try_except_finally {A : Type}
    (body : M A) (handler final : M unit) : M (option A) :=
  fun t =>
    match body t with
    | (Done a, t1) => (final ;; ret (Some a)) t1
    | (Fault _, t1) =>
        match handler t1 with
        | (Done _, t2) => (final ;; ret None) t2
        | (Fault e, t2) => (final ;; raise e) t2
        | (Waiting, t2) => (Waiting, t2)
        | (Running, t2) => (Running, t2)
        end
    | (Waiting, t1) => (Waiting, t1)
    | (Running, t1) => (Running, t1)
    end.

Definition log_info (msg : string) : M unit :=
  modify (fun t => set_log (log t ++ [Info msg])%list t).
Definition log_data (data : list byte) : M unit :=
  modify (fun t => set_log (log t ++ [InfoData data])%list t).
Definition log_warning (msg : string) : M unit :=
  modify (fun t => set_log (log t ++ [Warning msg])%list t).
Definition log_error (msg : string) : M unit :=
  modify (fun t => set_log (log t ++ [Error msg])%list t).

Definition _change_motion_status (s : MotionStatus) : M unit :=
  modify (set_motion_status s).

(** ** Command frames *)

Definition GOTO_MOT1_SLOW := "50041017".
Definition GOTO_MOT1_FAST := "50041002".
Definition GOTO_MOT2_SLOW := "50041117".
Definition GOTO_MOT2_FAST := "50041102".
Definition RA_GOTO_RUN := "5001101300000001".
Definition DEC_GOTO_RUN := "5001111300000001".
Definition GOTO_STOP := "4d".
Definition POS_MOT1_TRACKING := "50031006".
Definition NEG_MOT1_TRACKING := "50031007".
Definition POS_MOT2_TRACKING := "50031106".
Definition NEG_MOT2_TRACKING := "50031107".
Definition TRACKING_END_SEQUENCE := "0000".
Definition TRACKING_STOP := "0000".
Definition GET_MOT1_COMMAND := "5001100100000003".
Definition GET_MOT2_COMMAND := "5001110100000003".

Definition GOTO_MOT1 (alpha : Q) (fast : bool) : result string :=
  ('(h1, h2, h3) <- encodeAngle alpha ;;
   let mot1 := if fast then GOTO_MOT1_FAST else GOTO_MOT1_SLOW in
   Ok (mot1 ++ h1 ++ h2 ++ h3 ++ "00"))%result.

Definition GOTO_MOT2 (alpha : Q) (fast : bool) : result string :=
  ('(h1, h2, h3) <- encodeAngle alpha ;;
   let mot2 := if fast then GOTO_MOT2_FAST else GOTO_MOT2_SLOW in
   Ok (mot2 ++ h1 ++ h2 ++ h3 ++ "00"))%result.

(** ** The transaction [RS232_Talk], one caller at a time

    The four blocks of the function body, in order; [RS232_Talk] is
    their sequence.  With a single caller nobody else can free the lock
    or set the event, so a wait that does not pass at once never
    ends. *)

Definition lock_acquire : M unit :=
  fun t => if lock_RS232_comm t then (Waiting, t)
           else (Done tt, set_lock_RS232_comm true t).

Definition lock_release : M unit := modify (set_lock_RS232_comm false).

(** [l.index(x)] *)
Fixpoint list_index (x : Z) (l : list Z) : result nat :=
  match l with
  | [] => Raise ValueError
  | y :: l' => if y =? x then Ok O
               else (i <- list_index x l' ;; Ok (S i))%result
  end.

(** [self.RS232_QUEUE.pop(0)] *)
Definition queue_pop0 : M unit :=
  fun t => match RS232_QUEUE t with
           | [] => (Fault IndexError, t)
           | _ :: q => (Done tt, set_RS232_QUEUE q t)
           end.

(** [bytes.fromhex(command)]: two hexadecimal digits per byte, blanks
    between bytes skipped, [ValueError] otherwise. *)
Definition is_blank (c : ascii) : bool :=
  let n := nat_of_ascii c in
  ((n =? 32) || ((9 <=? n) && (n <=? 13)))%nat.

Definition byte_of_Z (v : Z) : byte :=
  match Byte.of_N (Z.to_N v) with
  | Some b => b
  | None => x00
  end.

Definition Z_of_byte (b : byte) : Z := Z.of_N (Byte.to_N b).

Definition hex_value (c : ascii) : option Z :=
  match Py.digit_value c with
  | Some d => if d <? 16 then Some d else None
  | None => None
  end.

Fixpoint fromhex (s : string) : result (list byte) :=
  match s with
  | EmptyString => Ok []
  | String c s' =>
      if is_blank c then fromhex s'
      else match s' with
           | EmptyString => Raise ValueError
           | String d s'' =>
               match hex_value c, hex_value d with
               | Some hi, Some lo =>
                   (rest <- fromhex s'' ;;
                    Ok (byte_of_Z (16 * hi + lo) :: rest))%result
               | _, _ => Raise ValueError
               end
           end
  end.

(** Lines 445-459: take the next ticket and join the queue. *)
Definition RS232_enqueue : M (option Z) :=
  lock_acquire ;;
  try_except_finally
    (modify (fun t => set_identity ((identity t + 1) mod 10000) t) ;;
     my_id <- get identity ;;
     modify (fun t => set_RS232_QUEUE (RS232_QUEUE t ++ [my_id])%list t) ;;
     log_info "Length of RS232 QUEUE: {}" ;;
     ret my_id)
    (log_error "SOME RESOURCE ACCESS ERROR OCURRED!" ;;
     _change_motion_status ERROR)
    lock_release.

(** Lines 461-471: wait until the ticket is first in the queue.  The
    event has just been cleared, so a caller that is not first waits,
    and alone it waits for good. *)
Definition RS232_await_turn (my_id : option Z) : M unit :=
  modify (set_event_RS232_comm false) ;;
  my_id <- match my_id with
           | Some i => ret i
           | None => raise UnboundLocalError
           end ;;
  q <- get RS232_QUEUE ;;
  i <- lift (list_index my_id q) ;;
  if (i =? 0)%nat then ret tt else suspend.

(** Lines 474-475: write the frame, read one reply. *)
Definition RS232_transfer (s : list byte) : M (list byte) :=
  fun t =>
    let '(data, p) := ser_readline (ser_write s (ser t)) in
    (Done data, set_wire (wire t ++ [(s, data)])%list (set_ser p t)).

(** Lines 477-488: leave the queue and wake the others. *)
Definition RS232_release : M unit :=
  lock_acquire ;;
  try_except_finally
    queue_pop0
    (log_error "SOME RESOURCE ACCESS ERROR OCURRED!" ;;
     _change_motion_status ERROR)
    lock_release ;;
  modify (set_event_RS232_comm true).

Definition RS232_Talk (command : string) : M (list byte) :=
  s <- lift (fromhex command) ;;
  my_id <- RS232_enqueue ;;
  RS232_await_turn my_id ;;
  data <- RS232_transfer s ;;
  RS232_release ;;
  ret data.

(** ** GOTO: [__move] and [stop_motion] *)

(** [data[i]] of a [bytes] value *)
Definition bytes_get (data : list byte) (i : nat) : result Z :=
  match nth_error data i with
  | Some b => Ok (Z_of_byte b)
  | None => Raise IndexError
  end.

(** One [if x_running is False:] block of the polling loops: ask the
    axis, compare the first reply byte with 255. *)
Definition poll_axis (frame : string) (running : bool) : M bool :=
  if negb running then
    data <- RS232_Talk frame ;;
    d0 <- lift (bytes_get data 0) ;;
    let h1 := Py.hex d0 in
    d1 <- lift (bytes_get data 1) ;;
    let h2 := Py.hex d1 in
    if (h1 =? Py.hex 255)%string then ret true else ret false
  else ret running.

(** The loop [while test is False and abort_event.is_set() is False],
    which the function contains twice with the same body.
    [abort_event k] is what the [k]-th call of [is_set] in this run of
    [__move] answers; the loop returns the number of calls made so far.
    [budget] bounds the iterations. *)
Fixpoint poll_until_stopped (budget : nat) (abort_event : nat -> bool)
    (k : nat) (test ra_running dec_running : bool) : M nat :=
  if test then ret k
  else if abort_event k then ret (S k)
  else
    match budget with
    | O => out_of_budget
    | S budget' =>
        ra_running <- poll_axis RA_GOTO_RUN ra_running ;;
        dec_running <- poll_axis DEC_GOTO_RUN dec_running ;;
        let test := if dec_running && ra_running then true else test in
        poll_until_stopped budget' abort_event (S k) test ra_running dec_running
    end.

Definition __move (budget : nat) (mot1 mot2 : Q) (abort_event : nat -> bool)
  : M unit :=
  log_info "Motor1 goes to: {} and Motor2 goes to: {}" ;;
  log_info "Telescope is SLEWING to position..." ;;
  _change_motion_status SLEWING ;;
  modify (set_GOTO_RUNNING true) ;;
  modify (set_GOTO_IN_STOP false) ;;
  mot2_fast <- lift (GOTO_MOT2 mot2 true) ;;
  mot2_slow <- lift (GOTO_MOT2 mot2 false) ;;
  mot1_fast <- lift (GOTO_MOT1 mot1 true) ;;
  mot1_slow <- lift (GOTO_MOT1 mot1 false) ;;
  data <- RS232_Talk mot2_fast ;;
  log_data data ;;
  data <- RS232_Talk mot1_fast ;;
  log_data data ;;
  k <- poll_until_stopped budget abort_event 0 false false false ;;
  data <- RS232_Talk mot2_slow ;;
  log_data data ;;
  data <- RS232_Talk mot1_slow ;;
  log_data data ;;
  _ <- poll_until_stopped budget abort_event k false false false ;;
  modify (set_GOTO_RUNNING false) ;;
  _change_motion_status POSITIONED ;;
  log_info "Telescope is positioned at wished coordinate...".

(** [stop_motion]: after the stop frame the method calls
    [self.MOTION_MOT1(self, level = 0)]; the bound method receives
    [self] as its [level] and [level] again by keyword, which Python
    refuses with a [TypeError] before the body runs, so the rest of
    [stop_motion] is never reached. *)
Definition stop_motion : M unit :=
  _change_motion_status ABORTING ;;
  modify (set_GOTO_IN_STOP true) ;;
  data <- RS232_Talk GOTO_STOP ;;
  log_data data ;;
  raise TypeError.

(** ** Reading the motor angles *)

Definition byte_hex2 (data : list byte) (i : nat) : result string :=
  (d <- bytes_get data i ;; Ok (pad2 (Py.slice_from 2 (Py.hex d))))%result.

Definition GET_MOT1 : M Q :=
  data <- RS232_Talk GET_MOT1_COMMAND ;;
  (if (List.length data =? 4)%nat then
     log_info "MOT1 data is: {}, {}, {}: {}" ;;
     h1 <- lift (byte_hex2 data 0) ;;
     h2 <- lift (byte_hex2 data 1) ;;
     h3 <- lift (byte_hex2 data 2) ;;
     angle <- lift (decodeAngle h1 h2 h3) ;;
     modify (set_mot1 angle)
   else
     log_warning
       "RS232 reading feed incorrect answer in GET_MOT1, use last read answer instead") ;;
  get mot1.

Definition GET_MOT2 : M Q :=
  data <- RS232_Talk GET_MOT2_COMMAND ;;
  (if (List.length data =? 4)%nat then
     log_info "MOT2 data is: {}, {}, {}: {}" ;;
     h1 <- lift (byte_hex2 data 0) ;;
     h2 <- lift (byte_hex2 data 1) ;;
     h3 <- lift (byte_hex2 data 2) ;;
     angle <- lift (decodeAngle h1 h2 h3) ;;
     modify (set_mot2 angle)
   else
     log_warning
       "RS232 reading feed incorrect answer in GET_MOT2, use last read answer instead") ;;
  get mot2.

(** ** Tracking *)

Definition tracking_frames (rate_mot1 rate_mot2 : pynum)
  : result (string * string) :=
  let sign_mot1 := np_sign rate_mot1 in
  let sign_mot2 := np_sign rate_mot2 in
  let rate_mot1 := np_abs rate_mot1 in
  let rate_mot2 := np_abs rate_mot2 in
  let encode_rate_mot1 := num_mul rate_mot1 (PyInt 4) in
  let h1_mot1 := num_floordiv encode_rate_mot1 (PyInt 256) in
  let tmp := num_sub encode_rate_mot1 (num_mul h1_mot1 (PyInt 256)) in
  (h2_mot1 <- num_int tmp ;;
   let h2_mot1 := PyInt h2_mot1 in
   let encode_rate_mot2 := num_mul rate_mot2 (PyInt 4) in
   let h1_mot2 := num_floordiv encode_rate_mot2 (PyInt 256) in
   let tmp := num_sub encode_rate_mot2 (num_mul h1_mot2 (PyInt 256)) in
   h2_mot2 <- num_int tmp ;;
   let h2_mot2 := PyInt h2_mot2 in
   h1_mot1 <- num_hex h1_mot1 ;;
   let h1_mot1 := Py.slice_from 2 h1_mot1 in
   h2_mot1 <- num_hex h2_mot1 ;;
   let h2_mot1 := Py.slice_from 2 h2_mot1 in
   let h1_mot1 := pad2 h1_mot1 in
   let h2_mot1 := pad2 h2_mot1 in
   h1_mot2 <- num_hex h1_mot2 ;;
   let h1_mot2 := Py.slice_from 2 h1_mot2 in
   h2_mot2 <- num_hex h2_mot2 ;;
   let h2_mot2 := Py.slice_from 2 h2_mot2 in
   let h1_mot2 := pad2 h1_mot2 in
   let h2_mot2 := pad2 h2_mot2 in
   let MOT1_TRACKING_COMMAND :=
     if num_ge0 sign_mot1
     then POS_MOT1_TRACKING ++ h1_mot1 ++ h2_mot1 ++ TRACKING_END_SEQUENCE
     else NEG_MOT1_TRACKING ++ h1_mot1 ++ h2_mot1 ++ TRACKING_END_SEQUENCE in
   let MOT2_TRACKING_COMMAND :=
     if num_ge0 sign_mot2
     then POS_MOT2_TRACKING ++ h1_mot2 ++ h2_mot2 ++ TRACKING_END_SEQUENCE
     else NEG_MOT2_TRACKING ++ h1_mot2 ++ h2_mot2 ++ TRACKING_END_SEQUENCE in
   Ok (MOT1_TRACKING_COMMAND, MOT2_TRACKING_COMMAND))%result.

Definition tracking (rate_mot1 rate_mot2 : pynum) : M unit :=
  _change_motion_status TRACKING ;;
  modify (set_tracking_rate_mot1 rate_mot1) ;;
  modify (set_tracking_rate_mot2 rate_mot2) ;;
  '(MOT1_TRACKING_COMMAND, MOT2_TRACKING_COMMAND) <-
    lift (tracking_frames rate_mot1 rate_mot2) ;;
  data <- RS232_Talk MOT1_TRACKING_COMMAND ;;
  data <- RS232_Talk MOT2_TRACKING_COMMAND ;;
  log_data data.

(** ** Destination of a GOTO in equatorial coordinates *)


End Driver.

Notation "x <- m ;; k" := (bind m (fun x => k))
  (at level 61, m at next level, right associativity) : driver_scope.
Notation "' pat <- m ;; k" := (bind m (fun x => match x with pat => k end))
  (at level 61, pat pattern, m at next level, right associativity)
  : driver_scope.
Notation "m ;; k" := (bind m (fun _ => k))
  (at level 61, right associativity) : driver_scope.

(** ** A simulated mount

    The serial device used to run the driver: it answers the two
    motion-status requests from a script per axis (the [i]-th request
    of an axis gets the [i]-th entry of its script) and every other
    frame from [other_reply]. *)

Fixpoint bytes_eqb (a b : list byte) : bool :=
  match a, b with
  | [], [] => true
  | x :: a', y :: b' => Byte.eqb x y && bytes_eqb a' b'
  | _, _ => false
  end.

Definition frame_bytes (command : string) : list byte :=
  match fromhex command with
  | Ok s => s
  | Raise _ => []
  end.

Record mount : Type := mkMount {
  ra_script : nat -> list byte;
  dec_script : nat -> list byte;
  other_reply : list byte -> list byte;
  ra_polls : nat;
  dec_polls : nat;
  pending : list byte
}.

Definition mount_write (s : list byte) (m : mount) : mount :=
  if bytes_eqb s (frame_bytes RA_GOTO_RUN) then
    mkMount (ra_script m) (dec_script m) (other_reply m)
            (S (ra_polls m)) (dec_polls m) (ra_script m (ra_polls m))
  else if bytes_eqb s (frame_bytes DEC_GOTO_RUN) then
    mkMount (ra_script m) (dec_script m) (other_reply m)
            (ra_polls m) (S (dec_polls m)) (dec_script m (dec_polls m))
  else
    mkMount (ra_script m) (dec_script m) (other_reply m)
            (ra_polls m) (dec_polls m) (other_reply m s).

Definition mount_readline (m : mount) : list byte * mount :=
  (pending m,
   mkMount (ra_script m) (dec_script m) (other_reply m)
           (ra_polls m) (dec_polls m) []).

#[global] Instance mount_port : SerialPort mount := {
  ser_write := mount_write;
  ser_readline := mount_readline
}.

(** The object as the class body initialises it, on a given device. *)
Definition fresh {port : Type} (p : port) : @telescope port :=
  mkTelescope 0 [] false false false false 0%Q 0%Q 90%Q 90%Q
              (PyFloat 0) (PyFloat 0) PARKED [] p [].

(** ** Auxiliary notions for the proofs about the codec *)

(** Strings over the binary alphabet and the number they denote. *)
Fixpoint is_bits (s : string) : bool :=
  match s with
  | EmptyString => true
  | String c s' => ((c =? "0")%char || (c =? "1")%char) && is_bits s'
  end.

Fixpoint bits_value (acc : Z) (s : string) : Z :=
  match s with
  | EmptyString => acc
  | String c s' => bits_value (2 * acc + (if (c =? "1")%char then 1 else 0)) s'
  end.

(** The digits [bin] prints after its prefix. *)
Definition bin_digits (n : Z) : string :=
  match n with
  | Zpos p => Py.pos_bin p
  | _ => "0"
  end.

(** Every value below 256, for the checks by enumeration. *)
Definition all_bytes : list Z := map Z.of_nat (seq 0 256).

(** ** Auxiliary notions for the proofs about the driver *)

(** Nobody is queued and the lock is free: the state between two
    transactions of a single caller. *)
Definition idle {port : Type} (t : @telescope port) : Prop :=
  RS232_QUEUE t = [] /\ lock_RS232_comm t = false.

(** The object after a transaction that started idle, wrote [s], read
    [data] and left the device in state [p]. *)
Definition after_talk {port : Type} (s data : list byte) (p : port)
    (t : @telescope port) : @telescope port :=
  mkTelescope
    ((identity t + 1) mod 10000) [] false true
    (GOTO_IN_STOP t) (GOTO_RUNNING t) (ra t) (dec t)
    (mot1 t) (mot2 t) (tracking_rate_mot1 t) (tracking_rate_mot2 t)
    (motion_status t) (log t ++ [Info "Length of RS232 QUEUE: {}"])%list
    p (wire t ++ [(s, data)])%list.

(** The angle three reply bytes stand for. *)
Definition angle_of_bytes (b1 b2 b3 : byte) : Q :=
  ((inject_Z (2 ^ 16 * Z_of_byte b1 + 2 ^ 8 * Z_of_byte b2 + Z_of_byte b3)
    / inject_Z (2 ^ 24)) * 360)%Q.

(** A mount that answers every frame with the same reply. *)
Definition replying (data : list byte) : mount :=
  mkMount (fun _ => data) (fun _ => data) (fun _ => data) 0 0 [].

(** The tracking command of one axis, for an integer rate: opcode by
    sign, the rate times four as two bytes, the end sequence. *)
Definition tracking_command (pos neg : string) (r : Z) : string :=
  (if 0 <=? r then pos else neg)
  ++ hex_byte (Z.abs r * 4 / 256) ++ hex_byte ((Z.abs r * 4) mod 256)
  ++ TRACKING_END_SEQUENCE.

(** The same command as the bytes on the line: [x50 x03], the axis, the
    direction opcode, high byte, low byte, two zero bytes. *)
Definition tracking_bytes (axis : byte) (r : Z) : list byte :=
  [x50; x03; axis; if 0 <=? r then x06 else x07;
   byte_of_Z (Z.abs r * 4 / 256); byte_of_Z ((Z.abs r * 4) mod 256);
   x00; x00].

(** A rate of type float; a rate whose remainder [tmp] the call of
    [int] cannot convert: not a number, an infinity, or a finite float
    whose fourfold is beyond the largest finite float. *)
Definition is_float (x : pynum) : bool :=
  match x with
  | PyInt _ => false
  | _ => true
  end.

Definition overflows4 (x : pynum) : bool :=
  match x with
  | PyInt _ => false
  | PyFloat q => negb (Qle_bool (Qabs q * 4) float_max)
  | PyInf _ | PyNaN => true
  end.

(** The local [tmp] of [tracking] for one rate. *)
Definition rate_tmp (x : pynum) : pynum :=
  let encode_rate := num_mul (np_abs x) (PyInt 4) in
  let h1 := num_floordiv encode_rate (PyInt 256) in
  num_sub encode_rate (num_mul h1 (PyInt 256)).

(** ** Auxiliary notions for the proofs about the GOTO *)

(** A status reply reports the axis stopped: its first byte is 255. *)
Definition stoppedb (data : list byte) : bool :=
  match data with
  | b :: _ => Z_of_byte b =? 255
  | [] => false
  end.

(** [a] more requests are answered "moving" from request number
    [start] on, and the next one is answered "stopped". *)
Definition first_stop (script : nat -> list byte) (start a : nat) : Prop :=
  (forall j, (j < a)%nat -> stoppedb (script (start + j)%nat) = false) /\
  stoppedb (script (start + a)%nat) = true.

(** The requests of one polling loop in which the first axis stops at
    its [a]-th repeated request and the second at its [d]-th: round [j]
    asks the first axis while [j <= a] and the second while [j <= d]. *)
Definition poll_round (a d j : nat) : list (list byte) :=
  ((if (j <=? a)%nat then [frame_bytes RA_GOTO_RUN] else []) ++
   (if (j <=? d)%nat then [frame_bytes DEC_GOTO_RUN] else []))%list.

Definition poll_frames (a d : nat) : list (list byte) :=
  flat_map (poll_round a d) (seq 0 (S (Nat.max a d))).

(** The bytes of a GOTO frame: [x50 x04], axis, speed opcode, the three
    angle bytes, a zero byte. *)
Definition goto_bytes (axis speed : byte) (alpha : Q) : list byte :=
  let n := encodeAngle_integer alpha in
  [x50; x04; axis; speed;
   byte_of_Z (n / 2 ^ 16); byte_of_Z ((n / 2 ^ 8) mod 2 ^ 8);
   byte_of_Z (n mod 2 ^ 8); x00].

(** Number of frames in a list equal to a given one. *)
Definition count_frame (f : list byte) (l : list (list byte)) : nat :=
  List.length (filter (bytes_eqb f) l).

(** [t'] is [t] after further transactions on the simulated mount: idle
    again, the scripts untouched, [ra] and [dec] more status requests
    counted, the frames [frames] added to the line. *)
Definition advanced (t t' : @telescope mount) (ra dec : nat)
    (frames : list (list byte)) : Prop :=
  idle t' /\
  ra_script (ser t') = ra_script (ser t) /\
  dec_script (ser t') = dec_script (ser t) /\
  other_reply (ser t') = other_reply (ser t) /\
  ra_polls (ser t') = (ra_polls (ser t) + ra)%nat /\
  dec_polls (ser t') = (dec_polls (ser t) + dec)%nat /\
  map fst (wire t') = (map fst (wire t) ++ frames)%list.

(** * Concurrent callers of [RS232_Talk]

    The thread-based [TelescopeComm.RS232_Talk], one statement per step,
    run by [N] threads that share the attributes of one object.  The
    cooperative copy in [piggyBackTelescope] has the same statements
    (and a larger modulus); its tasks change turns only at an [await],
    so its runs are among the interleavings considered here. *)

Module Threads.

(** The next statement of a caller. *)
Inductive label : Type :=
| Acq1      (* self.lock.acquire() *)
| Inc       (* self.identity = (self.identity + 1) % 1000 *)
| Id        (* my_id = self.identity *)
| App       (* self.RS232_QUEUE.append(my_id) *)
| Rel1      (* self.lock.release() *)
| Clr       (* self.event.clear() *)
| Test      (* while self.RS232_QUEUE.index(my_id) != 0: *)
| Wait      (*     self.event.wait() *)
| Clr2      (*     self.event.clear() *)
| Write     (* self.ser.write(s) *)
| Read      (* data = self.ser.readline() *)
| Acq2      (* self.lock.acquire() *)
| Pop       (* self.RS232_QUEUE.pop(0), in try/except *)
| Rel2      (* self.lock.release() *)
| SetEv     (* self.event.set() *)
| Ret       (* return data; the caller may call again *)
| Crashed.  (* an exception ended the thread *)

Record thread : Type := mkThread {
  pc : label;
  my_id : Z
}.

(** What happens on the serial line. *)
Inductive io : Type :=
| W (i : nat)   (* thread [i] writes its frame *)
| R (i : nat).  (* thread [i] reads its reply *)

(** The shared attributes, the threads, and two history variables:
    [line], the accesses to the serial line, and [enq], the threads in
    the order of their [append]. *)
Record state : Type := mkState {
  identity : Z;
  RS232_QUEUE : list Z;
  lock : option nat;       (* held by *)
  event : bool;
  pool : list thread;
  line : list io;
  enq : list nat
}.

Definition idle_thread : thread := mkThread Acq1 0.

Definition thr (s : state) (i : nat) : thread := nth i (pool s) idle_thread.

Fixpoint upd {A : Type} (i : nat) (x : A) (l : list A) : list A :=
  match l, i with
  | [], _ => []
  | _ :: l', O => x :: l'
  | y :: l', S i' => y :: upd i' x l'
  end.

Definition init (N : nat) : state :=
  mkState 0 [] None false (repeat idle_thread N) [] [].

(** Thread [i] goes to statement [l]. *)
Definition goto (i : nat) (l : label) (s : state) : list thread :=
  upd i (mkThread l (my_id (thr s i))) (pool s).

(** One statement of thread [i]; [None] when the thread cannot move
    (it does not exist, it waits for the lock or the event, or it has
    crashed).  [M] is the modulus of the ticket counter. *)
Definition step (M : Z) (i : nat) (s : state) : option state :=
  if negb (i <? List.length (pool s))%nat then None else
  match pc (thr s i) with
  | Acq1 =>
      match lock s with
      | Some _ => None
      | None => Some (mkState (identity s) (RS232_QUEUE s) (Some i) (event s)
                              (goto i Inc s) (line s) (enq s))
      end
  | Inc =>
      Some (mkState ((identity s + 1) mod M) (RS232_QUEUE s) (lock s) (event s)
                    (goto i Id s) (line s) (enq s))
  | Id =>
      Some (mkState (identity s) (RS232_QUEUE s) (lock s) (event s)
                    (upd i (mkThread App (identity s)) (pool s))
                    (line s) (enq s))
  | App =>
      Some (mkState (identity s) (RS232_QUEUE s ++ [my_id (thr s i)])%list
                    (lock s) (event s)
                    (goto i Rel1 s) (line s) (enq s ++ [i])%list)
  | Rel1 =>
      Some (mkState (identity s) (RS232_QUEUE s) None (event s)
                    (goto i Clr s) (line s) (enq s))
  | Clr =>
      Some (mkState (identity s) (RS232_QUEUE s) (lock s) false
                    (goto i Test s) (line s) (enq s))
  | Test =>
      match list_index (my_id (thr s i)) (RS232_QUEUE s) with
      | Raise _ =>
          Some (mkState (identity s) (RS232_QUEUE s) (lock s) (event s)
                        (goto i Crashed s) (line s) (enq s))
      | Ok O =>
          Some (mkState (identity s) (RS232_QUEUE s) (lock s) (event s)
                        (goto i Write s) (line s) (enq s))
      | Ok (S _) =>
          Some (mkState (identity s) (RS232_QUEUE s) (lock s) (event s)
                        (goto i Wait s) (line s) (enq s))
      end
  | Wait =>
      if event s
      then Some (mkState (identity s) (RS232_QUEUE s) (lock s) (event s)
                         (goto i Clr2 s) (line s) (enq s))
      else None
  | Clr2 =>
      Some (mkState (identity s) (RS232_QUEUE s) (lock s) false
                    (goto i Test s) (line s) (enq s))
  | Write =>
      Some (mkState (identity s) (RS232_QUEUE s) (lock s) (event s)
                    (goto i Read s) (line s ++ [W i])%list (enq s))
  | Read =>
      Some (mkState (identity s) (RS232_QUEUE s) (lock s) (event s)
                    (goto i Acq2 s) (line s ++ [R i])%list (enq s))
  | Acq2 =>
      match lock s with
      | Some _ => None
      | None => Some (mkState (identity s) (RS232_QUEUE s) (Some i) (event s)
                              (goto i Pop s) (line s) (enq s))
      end
  | Pop =>
      (* on an empty list the IndexError is caught and printed *)
      Some (mkState (identity s) (tl (RS232_QUEUE s)) (lock s) (event s)
                    (goto i Rel2 s) (line s) (enq s))
  | Rel2 =>
      Some (mkState (identity s) (RS232_QUEUE s) None (event s)
                    (goto i SetEv s) (line s) (enq s))
  | SetEv =>
      Some (mkState (identity s) (RS232_QUEUE s) (lock s) true
                    (goto i Ret s) (line s) (enq s))
  | Ret =>
      Some (mkState (identity s) (RS232_QUEUE s) (lock s) (event s)
                    (goto i Acq1 s) (line s) (enq s))
  | Crashed => None
  end.

(** The states [N] threads can reach, by any interleaving. *)
Inductive reachable (M : Z) (N : nat) : state -> Prop :=
| reach_init : reachable M N (init N)
| reach_step (s s' : state) (i : nat) :
    reachable M N s -> step M i s = Some s' -> reachable M N s'.

(** Running a schedule: the threads that move, in order. *)
Fixpoint run (M : Z) (sched : list nat) (s : state) : option state :=
  match sched with
  | [] => Some s
  | i :: sched' =>
      match step M i s with
      | Some s' => run M sched' s'
      | None => None
      end
  end.

(** ** What the claim is about *)

(** Reading the line from the start: nobody is between its write and
    its read ([Some None]), thread [i] is ([Some (Some i)]), or two
    transactions have overlapped ([None]). *)
Definition scan_io (o : option (option nat)) (e : io) : option (option nat) :=
  match o, e with
  | Some None, W i => Some (Some i)
  | Some (Some j), R i => if (i =? j)%nat then Some None else None
  | _, _ => None
  end.

Definition scan (l : list io) : option (option nat) :=
  fold_left scan_io l (Some None).

(** The threads that have written, in order. *)
Fixpoint writers (l : list io) : list nat :=
  match l with
  | [] => []
  | W i :: l' => i :: writers l'
  | R _ :: l' => writers l'
  end.

(** The threads that have completed a transaction, in order. *)
Fixpoint readers (l : list io) : list nat :=
  match l with
  | [] => []
  | W _ :: l' => readers l'
  | R i :: l' => i :: readers l'
  end.

(** ** Auxiliary notions for the proof *)

Definition inq (l : label) : bool :=
  match l with
  | Rel1 | Clr | Test | Wait | Clr2 | Write | Read | Acq2 | Pop => true
  | _ => false
  end.

Definition critical (l : label) : bool :=
  match l with
  | Write | Read | Acq2 | Pop => true
  | _ => false
  end.

Definition written (l : label) : bool :=
  match l with
  | Read | Acq2 | Pop => true
  | _ => false
  end.

Definition has_read (l : label) : bool :=
  match l with
  | Acq2 | Pop => true
  | _ => false
  end.

Definition holds (l : label) : bool :=
  match l with
  | Inc | Id | App | Rel1 | Pop | Rel2 => true
  | _ => false
  end.

Definition pending (l : label) : bool :=
  match l with
  | Id | App => true
  | _ => false
  end.

(** The [n]-th ticket handed out (counting from 0). *)
Definition ticket (M : Z) (n : nat) : Z := Z.of_nat (S n) mod M.

(** What the proof remembers besides the state: the owners of the
    queue entries, how many tickets were issued and removed, and the
    owners of the removed entries. *)
Record ghost : Type := mkGhost {
  qown : list nat;
  issued : nat;
  removed : nat;
  popped : list nat
}.

Definition ghost_init : ghost := mkGhost [] 0 0 [].

Definition ghost_step (i : nat) (s : state) (g : ghost) : ghost :=
  match pc (thr s i) with
  | Inc => mkGhost (qown g) (S (issued g)) (removed g) (popped g)
  | App => mkGhost (qown g ++ [i]) (issued g) (removed g) (popped g)
  | Pop => mkGhost (tl (qown g)) (issued g) (S (removed g))
                   (popped g ++ [i])
  | _ => g
  end.

(** The schedule that breaks the queue with one thread more than the
    modulus: every thread joins the queue, then the first and the last
    thread, which hold the same ticket, both find it at the head. *)
Definition overflow_schedule (N : nat) : list nat :=
  (flat_map (fun i => repeat i 6) (seq 0 N)
   ++ [0; 0; N - 1; N - 1])%nat%list.

(** The invariant of the queue while the tickets in it are distinct:
    the queue holds the tickets of its owners, in order, and these are
    consecutive tickets; the lock is held exactly by the thread inside
    one of the two locked blocks; a thread past the test of its turn
    owns the head of the queue; the line is between two transactions
    or inside the transaction of the thread that is about to read; the
    threads that wrote or read are the owners of the removed entries,
    and then the head of the queue. *)
Record Inv (M : Z) (N : nat) (s : state) (g : ghost) : Prop := mkInv {
  inv_size : List.length (pool s) = N;
  inv_queue : RS232_QUEUE s = map (fun j => my_id (thr s j)) (qown g);
  inv_nodup : NoDup (qown g);
  inv_own : forall j,
      In j (qown g) <-> (j < N)%nat /\ inq (pc (thr s j)) = true;
  inv_tickets :
    RS232_QUEUE s
    = map (ticket M) (seq (removed g) (List.length (RS232_QUEUE s)));
  inv_issued :
    issued g
    = (removed g + List.length (RS232_QUEUE s)
       + match lock s with
         | Some j => if pending (pc (thr s j)) then 1 else 0
         | None => 0
         end)%nat;
  inv_identity : identity s = Z.of_nat (issued g) mod M;
  inv_app : forall j,
      (j < N)%nat -> pc (thr s j) = App -> my_id (thr s j) = identity s;
  inv_lock : forall j,
      (j < N)%nat -> (holds (pc (thr s j)) = true <-> lock s = Some j);
  inv_holder : forall j, lock s = Some j -> (j < N)%nat;
  inv_head : forall j,
      (j < N)%nat -> critical (pc (thr s j)) = true ->
      hd_error (qown g) = Some j;
  inv_line : exists o,
      scan (line s) = Some o /\
      (forall j, (j < N)%nat -> (pc (thr s j) = Read <-> o = Some j)) /\
      (forall j, o = Some j -> (j < N)%nat);
  inv_enq : enq s = (popped g ++ qown g)%list;
  inv_writers :
    writers (line s)
    = (popped g ++ match hd_error (qown g) with
                   | Some j => if written (pc (thr s j)) then [j] else []
                   | None => []
                   end)%list;
  inv_readers :
    readers (line s)
    = (popped g ++ match hd_error (qown g) with
                   | Some j => if has_read (pc (thr s j)) then [j] else []
                   | None => []
                   end)%list
}.

(** Two threads, the first one between its write and its read, the
    second one inside the first locked block. *)
Definition demo_state : state :=
  match run 1000 [0; 0; 0; 0; 0; 0; 0; 0; 1; 1]%nat (init 2) with
  | Some s => s
  | None => init 2
  end.

End Threads.
From Stdlib Require Import DecimalString.

(** * The rest of the two drivers

    The functions of [piggyBackTelescope] and [TelescopeComm] around
    the core: the sexagesimal conversions, the coordinates computed
    back from the motor angles, the frames of the hand-control motion
    and of [stop_tracking], the start-up command files, [ReadClean] and
    [park]. *)

(** ** Simple conversion and calculation functions

    The same in both classes. *)

Definition hourToAngle (hour minute second : Q) : Q :=
  let hour := Py.fmod hour 24 in
  let minute := Py.fmod minute 60 in
  let second := Py.fmod second 60 in
  let hour := (hour + minute * (1 / 60) + second * (1 / 3600))%Q in
  let angle := ((hour / 24) * 360)%Q in
  angle.

Definition timeToHour (hour minute second : Q) : Q :=
  let hour := Py.fmod hour 24 in
  let minute := Py.fmod minute 60 in
  let second := Py.fmod second 60 in
  (hour + minute * (1 / 60) + second * (1 / 3600))%Q.

(** The argument is a tuple (degree, minute, second). *)
Definition angleToDecimal (angle_tuple : Q * Q * Q) : Q :=
  let '(a0, a1, a2) := angle_tuple in
  let degree := Py.fmod a0 360 in
  let minute := Py.fmod a1 60 in
  let second := Py.fmod a2 60 in
  (degree + minute * (1 / 60) + second * (1 / 3600))%Q.

(** ** Coordinates from the motor angles *)

(** [x < y] on floats *)
Definition Qltb (x y : Q) : bool := negb (Qle_bool y x).

(** Lines 643-659 of [get_radec] (the same computation is in
    [TelescopeComm.GET_RADEC]): right ascension in hours and
    declination from the two motor angles and the sidereal time [lst].
    [None] is the branch that only logs "out of range" and leaves
    [sign] and [dec] unassigned. *)
Definition get_radec_coordinates (mot1 mot2 lst : Q) : option (Q * Q) :=
  let mot2 := Py.fmod (mot2 + 90) 360 in
  let sign_dec :=
    if Qle_bool 180 mot2 && Qltb mot2 360 then Some (1, 270 - mot2)%Q
    else if Qle_bool 0 mot2 && Qltb mot2 180 then Some (- (1), mot2 - 90)%Q
    else None in
  match sign_dec with
  | Some (sign, dec) =>
      let ra := if Qle_bool 0 sign then (- mot1 / 15)%Q
                else ((180 - mot1) / 15)%Q in
      let ra := (ra + lst)%Q in
      let ra := Py.fmod ra 24 in
      Some (ra, dec)
  | None => None
  end.


(** ** Hand-control motion, tracking stop, set-up and parking *)

(** [str(n)] of an integer *)
Definition str (n : Z) : string := NilZero.string_of_int (Z.to_int n).

(** Class attributes that no method assigns. *)
Definition motion_level : Z := 0.
Definition park_mot1 : Q := 90.
Definition park_mot2 : Q := 90.

Definition MOTION_MOT1_s := "500210".
Definition MOTION_MOT1_e := "000000".
Definition MOTION_MOT2_s := "500211".
Definition MOTION_MOT2_e := "000000".

Section Commands.

Context {port : Type} `{SerialPort port}.

Local Open Scope driver_scope.

(** [MOTION_MOT1] and [MOTION_MOT2], for the integer levels their
    docstrings ask for; [None] is the default argument. *)
Definition MOTION_MOT1 (level : option Z) : M unit :=
  let level := match level with
               | None => motion_level
               | Some level => level
               end in
  let sign := Z.sgn level in
  let direction := if 0 <=? sign then "24" else "25" in
  let speed := "0" ++ str (Z.abs level) in
  let command := MOTION_MOT1_s ++ direction ++ speed ++ MOTION_MOT1_e in
  data <- RS232_Talk command ;;
  log_data data.

Definition MOTION_MOT2 (level : option Z) : M unit :=
  let level := match level with
               | None => motion_level
               | Some level => level
               end in
  let sign := Z.sgn level in
  let direction := if 0 <=? sign then "24" else "25" in
  let speed := "0" ++ str (Z.abs level) in
  let command := MOTION_MOT2_s ++ direction ++ speed ++ MOTION_MOT2_e in
  data <- RS232_Talk command ;;
  log_data data.

(** [stop_tracking].  Its last statement calls
    [self.change_motion_status], a name the class does not define; what
    the base classes of pyobs answer to it is the argument
    [change_motion_status]. *)
Definition stop_tracking (change_motion_status : MotionStatus -> M unit)
  : M unit :=
  modify (set_tracking_rate_mot1 (PyFloat 0)) ;;
  modify (set_tracking_rate_mot2 (PyFloat 0)) ;;
  let MOT1_TRACKING_COMMAND :=
    POS_MOT1_TRACKING ++ TRACKING_STOP ++ TRACKING_END_SEQUENCE in
  let MOT2_TRACKING_COMMAND :=
    POS_MOT2_TRACKING ++ TRACKING_STOP ++ TRACKING_END_SEQUENCE in
  data <- RS232_Talk MOT1_TRACKING_COMMAND ;;
  log_data data ;;
  data <- RS232_Talk MOT2_TRACKING_COMMAND ;;
  log_data data ;;
  change_motion_status IDLE.

(** [self.ser.readline()] outside a transaction *)
Definition ser_read : M (list byte) :=
  fun t => let '(data, p) := ser_readline (ser t) in (Done data, set_ser p t).

(** [ReadClean]: read until a read comes back empty.  [budget] bounds
    the iterations of the loop. *)
Fixpoint ReadClean (budget : nat) : M unit :=
  match budget with
  | O => out_of_budget
  | S budget' =>
      data <- ser_read ;;
      if (List.length data =? 0)%nat then ret tt else ReadClean budget'
  end.

(** [for key in keys: data = await self.RS232_Talk(file[key])], the
    dictionary given by its items in insertion order. *)
Fixpoint talk_each (file : list (string * string)) : M unit :=
  match file with
  | [] => ret tt
  | (key, value) :: file' =>
      data <- RS232_Talk value ;;
      talk_each file'
  end.

(** [StartConfig] and [QuickAlign]: the argument is what opening and
    parsing the command file gives, a dictionary of commands or an
    exception.  After a failure the handler only reports, and the next
    statement reads the variable [file] that was never assigned. *)
Definition StartConfig (START_CONFIG_COMMANDS : result (list (string * string)))
  : M unit :=
  file <- try_except_finally
            (lift START_CONFIG_COMMANDS)
            (_change_motion_status ERROR ;;
             log_error "could not open initialization file.")
            (ret tt) ;;
  file <- match file with
          | Some file => ret file
          | None => raise UnboundLocalError
          end ;;
  talk_each file.

Definition QuickAlign (QUICK_ALIGN_COMMANDS : result (list (string * string)))
  : M unit :=
  file <- try_except_finally
            (lift QUICK_ALIGN_COMMANDS)
            (log_error "could not open quick align file.")
            (ret tt) ;;
  file <- match file with
          | Some file => ret file
          | None => raise UnboundLocalError
          end ;;
  talk_each file.

(** [park]: the event handed to [__move] is created on the spot and
    never set. *)
Definition park (budget : nat) : M unit :=
  modify (set_GOTO_RUNNING true) ;;
  log_info "Parking telescope..." ;;
  let place_holder_event := fun _ : nat => false in
  _change_motion_status PARKING ;;
  __move budget park_mot1 park_mot2 place_holder_event ;;
  _change_motion_status PARKED ;;
  log_info "Telescope parked.".

(** [get_radec].  [rs232_init] is the attribute [init] sets once the
    line is open; [lst] is the sidereal time obtained from astropy. *)
Definition get_radec (rs232_init : bool) (lst : Q) : M (Q * Q) :=
  (if rs232_init then
     mot1 <- GET_MOT1 ;;
     mot2 <- GET_MOT2 ;;
     match get_radec_coordinates mot1 mot2 lst with
     | Some (ra, dec) =>
         modify (set_ra ra) ;;
         modify (set_dec dec)
     | None =>
         log_info
           "somehing went wrong here! in GET_RADEC!!! Number MOT2 out of range" ;;
         raise UnboundLocalError
     end
   else ret tt) ;;
  ra <- get ra ;;
  dec <- get dec ;;
  ret (ra * 15, dec)%Q.

End Commands.

(** ** Auxiliary notions for the proofs about these functions *)

(** The bytes of a hand-control motion frame. *)
Definition motion_bytes (axis : byte) (level : Z) : list byte :=
  [x50; x02; axis; if 0 <=? level then x24 else x25;
   byte_of_Z (Z.abs level); x00; x00; x00].

(** The device after [n] reads. *)
Fixpoint reads {port : Type} `{SerialPort port} (n : nat) (p : port) : port :=
  match n with
  | O => p
  | S n' => reads n' (snd (ser_readline p))
  end.

(** Attributes no transaction and no GOTO writes. *)
Definition kept {port : Type} (t t' : @telescope port) : Prop :=
  ra t' = ra t /\ dec t' = dec t /\ mot1 t' = mot1 t /\ mot2 t' = mot2 t /\
  tracking_rate_mot1 t' = tracking_rate_mot1 t /\
  tracking_rate_mot2 t' = tracking_rate_mot2 t.

(** A piece of driver code that writes none of them, however it ends. *)
Definition keeps {port : Type} {A : Type} (m : @M port A) : Prop :=
  forall t, kept t (snd (m t)).

(** ** The thread-based class, one caller

    [TelescopeComm] keeps the same attributes; the object is held in
    the same record, its [lock] and [event] in the fields
    [lock_RS232_comm] and [event_RS232_comm].  What the methods print
    is not kept. *)

Module TelescopeComm.

Section Comm.

Context {port : Type} `{SerialPort port}.

Local Open Scope driver_scope.

Definition RS232_Talk (command : string) : M (list byte) :=
  s <- lift (fromhex command) ;;
  lock_acquire ;;
  my_id <- try_except_finally
             (modify (fun t => set_identity ((identity t + 1) mod 1000) t) ;;
              my_id <- get identity ;;
              modify (fun t => set_RS232_QUEUE (RS232_QUEUE t ++ [my_id])%list t) ;;
              ret my_id)
             (ret tt)
             lock_release ;;
  modify (set_event_RS232_comm false) ;;
  my_id <- match my_id with
           | Some i => ret i
           | None => raise UnboundLocalError
           end ;;
  q <- get RS232_QUEUE ;;
  i <- lift (list_index my_id q) ;;
  (if (i =? 0)%nat then ret tt else suspend) ;;
  data <- RS232_transfer s ;;
  lock_acquire ;;
  try_except_finally queue_pop0 (ret tt) lock_release ;;
  modify (set_event_RS232_comm true) ;;
  ret data.

(** [GET_MOT1] and [GET_MOT2] index the reply without looking at its
    length. *)
Definition GET_MOT1 : M Q :=
  data <- RS232_Talk GET_MOT1_COMMAND ;;
  h1 <- lift (byte_hex2 data 0) ;;
  h2 <- lift (byte_hex2 data 1) ;;
  h3 <- lift (byte_hex2 data 2) ;;
  angle <- lift (decodeAngle h1 h2 h3) ;;
  ret angle.

Definition GET_MOT2 : M Q :=
  data <- RS232_Talk GET_MOT2_COMMAND ;;
  h1 <- lift (byte_hex2 data 0) ;;
  h2 <- lift (byte_hex2 data 1) ;;
  h3 <- lift (byte_hex2 data 2) ;;
  angle <- lift (decodeAngle h1 h2 h3) ;;
  ret angle.

End Comm.

(** The object after a transaction of this class that started idle. *)
Definition after_Talk {port : Type} (s data : list byte) (p : port)
    (t : @telescope port) : @telescope port :=
  mkTelescope
    ((identity t + 1) mod 1000) [] false true
    (GOTO_IN_STOP t) (GOTO_RUNNING t) (ra t) (dec t)
    (mot1 t) (mot2 t) (tracking_rate_mot1 t) (tracking_rate_mot2 t)
    (motion_status t) (log t) p (wire t ++ [(s, data)])%list.

End TelescopeComm.

(** The tracking command of one axis for any integer rate, as
    [tracking] assembles it. *)
Definition rate_command (pos neg : string) (r : Z) : string :=
  (if 0 <=? r then pos else neg)
  ++ pad2 (Py.slice_from 2 (Py.hex (Z.abs r * 4 / 256)))
  ++ pad2 (Py.slice_from 2 (Py.hex (Z.abs r * 4 - Z.abs r * 4 / 256 * 256)))
  ++ TRACKING_END_SEQUENCE.

(** Three hexadecimal digits. *)
Definition three_hex (s : string) : bool :=
  match s with
  | String c1 (String c2 (String c3 EmptyString)) =>
      match hex_value c1, hex_value c2, hex_value c3 with
      | Some _, Some _, Some _ => true
      | _, _, _ => false
      end
  | _ => false
  end.
(** * Facts about strings *)

Section StringFacts.

Lemma length_app (s t : string) :
  String.length (s ++ t) = (String.length s + String.length t)%nat.
Proof. induction s as [|c s IH]; simpl; [reflexivity | now rewrite IH]. Qed.

Lemma app_assoc_str (s t u : string) : (s ++ t) ++ u = s ++ (t ++ u).
Proof. induction s as [|c s IH]; simpl; [reflexivity | now rewrite IH]. Qed.

Lemma app_empty_r (s : string) : s ++ "" = s.
Proof. induction s as [|c s IH]; simpl; [reflexivity | now rewrite IH]. Qed.

Lemma substring_all (s : string) : substring 0 (String.length s) s = s.
Proof. induction s as [|c s IH]; simpl; [reflexivity | now rewrite IH]. Qed.

Lemma substring_take (s t : string) :
  substring 0 (String.length s) (s ++ t) = s.
Proof.
  induction s as [|c s IH]; simpl.
  - now destruct t.
  - now rewrite IH.
Qed.

Lemma substring_skip (s t : string) (n m : nat) :
  substring (String.length s + n) m (s ++ t) = substring n m t.
Proof. induction s as [|c s IH]; simpl; [reflexivity | exact IH]. Qed.

Lemma substring_length (s : string) (n m : nat) :
  (n + m <= String.length s)%nat -> String.length (substring n m s) = m.
Proof.
  revert n m; induction s as [|c s IH]; intros n m H; simpl in H.
  - assert (n = 0%nat /\ m = 0%nat) as [-> ->] by lia. reflexivity.
  - destruct n as [|n]; simpl.
    + destruct m as [|m]; simpl; [reflexivity|].
      f_equal. apply (IH 0%nat m). lia.
    + apply IH. lia.
Qed.

Lemma substring_split (s : string) (n m : nat) :
  substring 0 (n + m) s = substring 0 n s ++ substring n m s.
Proof.
  revert n m; induction s as [|c s IH]; intros n m.
  - destruct n, m; reflexivity.
  - destruct n as [|n]; simpl.
    + reflexivity.
    + now rewrite IH.
Qed.

Lemma slice_from_app (s t : string) :
  Py.slice_from (String.length s) (s ++ t) = t.
Proof.
  unfold Py.slice_from. rewrite length_app.
  replace (String.length s + String.length t - String.length s)%nat
    with (String.length t) by lia.
  rewrite <- (Nat.add_0_r (String.length s)) at 1.
  rewrite substring_skip. apply substring_all.
Qed.

Lemma length_str_repeat (n : nat) (c : ascii) :
  String.length (Py.str_repeat n (String c "")) = n.
Proof. induction n as [|n IH]; simpl; [reflexivity | now rewrite IH]. Qed.

End StringFacts.

(** * Facts about binary and hexadecimal renderings *)

Section DigitFacts.

Lemma is_bits_app (s t : string) :
  is_bits (s ++ t) = is_bits s && is_bits t.
Proof.
  induction s as [|c s IH]; simpl; [reflexivity|].
  rewrite IH. now rewrite andb_assoc.
Qed.

Lemma is_bits_substring (s : string) (n m : nat) :
  is_bits s = true -> is_bits (substring n m s) = true.
Proof.
  revert n m; induction s as [|c s IH]; intros n m H.
  - destruct n, m; reflexivity.
  - simpl in H. apply andb_true_iff in H as [Hc Hs].
    destruct n as [|n]; simpl.
    + destruct m as [|m]; simpl; [reflexivity|].
      rewrite Hc. simpl. now apply IH.
    + now apply IH.
Qed.

Lemma is_bits_zeros (k : nat) : is_bits (Py.str_repeat k "0") = true.
Proof. induction k as [|k IH]; simpl; [reflexivity | exact IH]. Qed.

Lemma bits_value_app (acc : Z) (s t : string) :
  bits_value acc (s ++ t) = bits_value (bits_value acc s) t.
Proof. revert acc; induction s as [|c s IH]; intros acc; simpl; auto. Qed.

Lemma bits_value_shift (acc : Z) (s : string) :
  bits_value acc s = acc * 2 ^ Z.of_nat (String.length s) + bits_value 0 s.
Proof.
  revert acc; induction s as [|c s IH]; intros acc.
  - simpl. lia.
  - cbn [bits_value String.length].
    rewrite (IH (2 * acc + _)), (IH (2 * 0 + _)).
    rewrite Nat2Z.inj_succ, Z.pow_succ_r by lia. lia.
Qed.

Lemma bits_value_range (s : string) :
  0 <= bits_value 0 s < 2 ^ Z.of_nat (String.length s).
Proof.
  induction s as [|c s IH].
  - simpl. lia.
  - cbn [bits_value String.length].
    rewrite bits_value_shift.
    rewrite Nat2Z.inj_succ, Z.pow_succ_r by lia.
    destruct (c =? "1")%char; lia.
Qed.

Lemma bits_value_zeros (k : nat) :
  bits_value 0 (Py.str_repeat k "0") = 0.
Proof. induction k as [|k IH]; simpl; [reflexivity | exact IH]. Qed.

Lemma parse_bits (s : string) (acc : Z) :
  is_bits s = true -> Py.parse_digits 2 acc s = Some (bits_value acc s).
Proof.
  revert acc; induction s as [|c s IH]; intros acc H; simpl in *.
  - reflexivity.
  - apply andb_true_iff in H as [Hc Hs].
    apply orb_true_iff in Hc as [Hc | Hc]; apply Ascii.eqb_eq in Hc; subst c;
      simpl; now apply IH.
Qed.

Lemma int_of_bits (s : string) :
  is_bits s = true -> s <> "" -> Py.int_of_str s 2 = Ok (bits_value 0 s).
Proof.
  intros H Hne. unfold Py.int_of_str.
  destruct s as [|c s]; [congruence|].
  now rewrite parse_bits.
Qed.

Lemma pos_bin_bits (p : positive) : is_bits (Py.pos_bin p) = true.
Proof.
  induction p as [p IH | p IH |]; simpl; try reflexivity;
    rewrite is_bits_app, IH; reflexivity.
Qed.

Lemma pos_bin_value (p : positive) : bits_value 0 (Py.pos_bin p) = Z.pos p.
Proof.
  induction p as [p IH | p IH |]; simpl; try reflexivity;
    rewrite bits_value_app, IH; simpl; lia.
Qed.

Lemma pos_bin_length (p : positive) :
  2 ^ Z.of_nat (String.length (Py.pos_bin p)) <= 2 * Z.pos p.
Proof.
  induction p as [p IH | p IH |]; simpl Py.pos_bin.
  - rewrite length_app. simpl String.length.
    rewrite Nat2Z.inj_add, Z.pow_add_r by lia. simpl (2 ^ Z.of_nat 1). lia.
  - rewrite length_app. simpl String.length.
    rewrite Nat2Z.inj_add, Z.pow_add_r by lia. simpl (2 ^ Z.of_nat 1). lia.
  - simpl. lia.
Qed.

Lemma bin_digits_bits (n : Z) : is_bits (bin_digits n) = true.
Proof. destruct n; simpl; try reflexivity. apply pos_bin_bits. Qed.

Lemma bin_digits_value (n : Z) : 0 <= n -> bits_value 0 (bin_digits n) = n.
Proof. destruct n; simpl; try lia. intros _. apply pos_bin_value. Qed.

Lemma bin_digits_length (n : Z) :
  0 <= n < 2 ^ 24 -> (1 <= String.length (bin_digits n) <= 24)%nat.
Proof.
  intros H. destruct n as [|p|p]; simpl; try lia.
  pose proof (pos_bin_length p) as Hl.
  assert (Hpos : (1 <= String.length (Py.pos_bin p))%nat)
    by (destruct p; simpl; rewrite ?length_app; simpl; lia).
  split; [exact Hpos|].
  destruct (Nat.le_gt_cases (String.length (Py.pos_bin p)) 24) as [|Hgt]; [assumption|].
  exfalso.
  assert (2 ^ 25 <= 2 ^ Z.of_nat (String.length (Py.pos_bin p)))
    by (apply Z.pow_le_mono_r; lia).
  lia.
Qed.

Lemma bin_nonneg (n : Z) : 0 <= n -> Py.bin n = "0b" ++ bin_digits n.
Proof. destruct n; simpl; try reflexivity. lia. Qed.

End DigitFacts.

(** * The angle codec *)

Section AngleCodec.

Lemma all_bytes_complete (P : Z -> bool) :
  forallb P all_bytes = true -> forall v, 0 <= v < 256 -> P v = true.
Proof.
  intros H v Hv. rewrite forallb_forall in H. apply H.
  unfold all_bytes. apply in_map_iff. exists (Z.to_nat v).
  split; [lia|]. apply in_seq. lia.
Qed.

(** The code's rendering of a byte, [hex(b)[2:]] padded to two digits,
    is the two-digit rendering. *)
Lemma pad2_hex (v : Z) :
  0 <= v < 256 -> pad2 (Py.slice_from 2 (Py.hex v)) = hex_byte v.
Proof.
  intros Hv.
  apply String.eqb_eq.
  revert v Hv.
  apply (all_bytes_complete
           (fun v => (pad2 (Py.slice_from 2 (Py.hex v)) =? hex_byte v)%string)).
  vm_compute. reflexivity.
Qed.

Lemma int_of_hex_byte (v : Z) :
  0 <= v < 256 -> Py.int_of_str (hex_byte v) 16 = Ok v.
Proof.
  intros Hv.
  assert (H : (match Py.int_of_str (hex_byte v) 16 with
               | Ok w => w =? v
               | Raise _ => false
               end) = true).
  { revert v Hv.
    apply (all_bytes_complete
             (fun v => match Py.int_of_str (hex_byte v) 16 with
                       | Ok w => w =? v
                       | Raise _ => false
                       end)).
    vm_compute. reflexivity. }
  destruct (Py.int_of_str (hex_byte v) 16) as [w|e]; [|discriminate].
  apply Z.eqb_eq in H. now subst.
Qed.

(** The padded pattern: prefix, leading zeros, digits; 24 bits in all. *)
Lemma encodeAngle_pattern_shape (n : Z) :
  0 <= n < 2 ^ 24 ->
  exists w,
    encodeAngle_pattern n = "0b" ++ w /\
    w = Py.str_repeat (24 - String.length (bin_digits n)) "0" ++ bin_digits n /\
    String.length w = 24%nat /\
    is_bits w = true /\
    bits_value 0 w = n.
Proof.
  intros Hn.
  pose proof (bin_digits_length n Hn) as Hlen.
  exists (Py.str_repeat (24 - String.length (bin_digits n)) "0" ++ bin_digits n).
  repeat split.
  - unfold encodeAngle_pattern. rewrite bin_nonneg by lia.
    change (Py.slice_from 2 ("0b" ++ bin_digits n))
      with (Py.slice_from (String.length "0b") ("0b" ++ bin_digits n)).
    rewrite slice_from_app.
    change (Py.slice_to 2 ("0b" ++ bin_digits n)) with
      (substring 0 (String.length "0b") ("0b" ++ bin_digits n)).
    rewrite substring_take.
    unfold Py.str_mul.
    replace (Z.to_nat (24 - Z.of_nat (String.length (bin_digits n))))
      with (24 - String.length (bin_digits n))%nat by lia.
    reflexivity.
  - rewrite length_app, length_str_repeat. lia.
  - rewrite is_bits_app, is_bits_zeros, bin_digits_bits. reflexivity.
  - rewrite bits_value_app, bits_value_zeros. apply bin_digits_value. lia.
Qed.

(** Cutting a 24-bit pattern into three octets gives the big-endian bytes. *)
Lemma octets_of_pattern (w : string) :
  String.length w = 24%nat -> is_bits w = true ->
  let n := bits_value 0 w in
  Py.int_of_str (substring 0 8 w) 2 = Ok (n / 2 ^ 16) /\
  Py.int_of_str (substring 8 8 w) 2 = Ok ((n / 2 ^ 8) mod 2 ^ 8) /\
  Py.int_of_str (substring 16 8 w) 2 = Ok (n mod 2 ^ 8).
Proof.
  intros Hlen Hbits n.
  set (s1 := substring 0 8 w).
  set (s2 := substring 8 8 w).
  set (s3 := substring 16 8 w).
  assert (L1 : String.length s1 = 8%nat) by (apply substring_length; lia).
  assert (L2 : String.length s2 = 8%nat) by (apply substring_length; lia).
  assert (L3 : String.length s3 = 8%nat) by (apply substring_length; lia).
  assert (Hw : w = s1 ++ s2 ++ s3).
  { rewrite <- (substring_all w) at 1. rewrite Hlen.
    change 24%nat with (16 + 8)%nat. rewrite substring_split.
    change 16%nat with (8 + 8)%nat at 1. rewrite substring_split.
    now rewrite app_assoc_str. }
  assert (Hn : n = (bits_value 0 s1 * 2 ^ 8 + bits_value 0 s2) * 2 ^ 8
                   + bits_value 0 s3).
  { unfold n. rewrite Hw at 1.
    rewrite !bits_value_app.
    rewrite (bits_value_shift (bits_value _ s2) s3), L3.
    rewrite (bits_value_shift (bits_value 0 s1) s2), L2.
    reflexivity. }
  pose proof (bits_value_range s1) as R1. rewrite L1 in R1.
  pose proof (bits_value_range s2) as R2. rewrite L2 in R2.
  pose proof (bits_value_range s3) as R3. rewrite L3 in R3.
  change (2 ^ Z.of_nat 8) with 256 in *.
  change (2 ^ 8) with 256 in *. change (2 ^ 16) with 65536.
  assert (N1 : s1 <> "") by (intros E; rewrite E in L1; discriminate).
  assert (N2 : s2 <> "") by (intros E; rewrite E in L2; discriminate).
  assert (N3 : s3 <> "") by (intros E; rewrite E in L3; discriminate).
  rewrite !int_of_bits by (assumption || (apply is_bits_substring; assumption)).
  clearbody n s1 s2 s3.
  generalize dependent (bits_value 0 s1).
  generalize dependent (bits_value 0 s2).
  generalize dependent (bits_value 0 s3).
  intros v3 R3 v2 R2 v1 Hn R1.
  repeat split; f_equal; subst n.
  - apply (Z.div_unique _ _ _ (v2 * 256 + v3)); lia.
  - apply (Z.mod_unique _ _ v1); [lia|].
    symmetry. apply (Z.div_unique _ _ _ v3); lia.
  - apply (Z.mod_unique _ _ (v1 * 256 + v2)); lia.
Qed.

Local Open Scope Q_scope.

Lemma Qfloor_unique (x : Q) (z : Z) :
  inject_Z z <= x -> x < inject_Z (z + 1) -> Qfloor x = z.
Proof.
  intros Hl Hu.
  pose proof (Qfloor_resp_le _ _ Hl) as H1. rewrite Qfloor_Z in H1.
  pose proof (Qfloor_le x) as H2.
  assert (H3 : inject_Z (Qfloor x) < inject_Z (z + 1)) by lra.
  rewrite <- Zlt_Qlt in H3. lia.
Qed.

Lemma Qfloor_range (x : Q) (m : Z) :
  0 <= x -> x < inject_Z m -> (0 <= Qfloor x < m)%Z.
Proof.
  intros H0 H1. split.
  - change 0 with (inject_Z 0) in H0.
    pose proof (Qfloor_resp_le _ _ H0) as H. now rewrite Qfloor_Z in H.
  - pose proof (Qfloor_le x) as H2.
    assert (H3 : inject_Z (Qfloor x) < inject_Z m) by lra.
    now rewrite <- Zlt_Qlt in H3.
Qed.

Lemma fmod_range (a : Q) : 0 <= Py.fmod a 360 /\ Py.fmod a 360 < 360.
Proof.
  unfold Py.fmod.
  pose proof (Qfloor_le (a / 360)) as Hl.
  pose proof (Qlt_floor (a / 360)) as Hu.
  rewrite inject_Z_plus in Hu.
  assert (Ha : a == 360 * (a / 360)) by field.
  set (f := inject_Z (Qfloor (a / 360))) in *.
  set (y := a / 360) in *.
  change (inject_Z 1) with 1 in Hu.
  split; lra.
Qed.

Lemma fmod_small (a : Q) : 0 <= a < 360 -> Py.fmod a 360 == a.
Proof.
  intros [H0 H1]. unfold Py.fmod.
  assert (Hf : Qfloor (a / 360) = 0%Z).
  { assert (Ha : a == 360 * (a / 360)) by field.
    apply Qfloor_unique; simpl;
      change (inject_Z 0) with 0; change (inject_Z 1) with 1;
      set (y := a / 360) in *; lra. }
  rewrite Hf. change (inject_Z 0) with 0. ring.
Qed.

Lemma int_of_float_floor (x : Q) : 0 <= x -> Py.int_of_float x = Qfloor x.
Proof.
  intros H. destruct x as [n d]. unfold Py.int_of_float, Qfloor. simpl.
  apply Z.quot_div_nonneg; [|lia].
  unfold Qle in H. simpl in H. lia.
Qed.

Lemma scaled_range (x : Q) :
  0 <= x < 360 ->
  0 <= (x / 360) * inject_Z (2 ^ 24) /\
  (x / 360) * inject_Z (2 ^ 24) < inject_Z (2 ^ 24).
Proof.
  intros [H0 H1].
  assert (Ha : x == 360 * (x / 360)) by field.
  set (y := x / 360) in *.
  change (inject_Z (2 ^ 24)) with 16777216.
  split; lra.
Qed.

Lemma encodeAngle_integer_floor (a : Q) :
  encodeAngle_integer a = Qfloor ((Py.fmod a 360 / 360) * inject_Z (2 ^ 24)).
Proof.
  unfold encodeAngle_integer. apply int_of_float_floor.
  apply scaled_range, fmod_range.
Qed.

Lemma encodeAngle_integer_range (a : Q) :
  (0 <= encodeAngle_integer a < 2 ^ 24)%Z.
Proof.
  rewrite encodeAngle_integer_floor.
  destruct (scaled_range (Py.fmod a 360) (fmod_range a)) as [H0 H1].
  now apply Qfloor_range.
Qed.

Lemma encodeAngle_bytes (a : Q) :
  encodeAngle a = Ok (bytes_be3 (encodeAngle_integer a)).
Proof.
  unfold encodeAngle.
  pose proof (encodeAngle_integer_range a) as Hn.
  set (n := encodeAngle_integer a) in *.
  destruct (encodeAngle_pattern_shape n Hn) as (w & Hp & _ & Hlen & Hbits & Hval).
  rewrite Hp.
  change (Py.slice 2 10 ("0b" ++ w)) with (substring 0 8 w).
  change (Py.slice 10 18 ("0b" ++ w)) with (substring 8 8 w).
  change (Py.slice 18 26 ("0b" ++ w)) with (substring 16 8 w).
  destruct (octets_of_pattern w Hlen Hbits) as (E1 & E2 & E3).
  rewrite Hval in E1, E2, E3.
  rewrite E1, E2, E3. cbn [rbind].
  assert (B : (0 <= n / 2 ^ 16 < 256 /\ 0 <= (n / 2 ^ 8) mod 2 ^ 8 < 256
               /\ 0 <= n mod 2 ^ 8 < 256)%Z).
  { change (2 ^ 8)%Z with 256%Z. change (2 ^ 16)%Z with 65536%Z.
    change (2 ^ 24)%Z with 16777216%Z in Hn.
    repeat split; try (apply Z.mod_pos_bound; lia).
    - apply Z.div_pos; lia.
    - apply Z.div_lt_upper_bound; lia. }
  destruct B as (B1 & B2 & B3).
  rewrite !pad2_hex by assumption.
  reflexivity.
Qed.

Lemma decodeAngle_bytes (n : Z) :
  (0 <= n < 2 ^ 24)%Z ->
  let '(h1, h2, h3) := bytes_be3 n in
  decodeAngle h1 h2 h3 = Ok ((inject_Z n / inject_Z (2 ^ 24)) * 360).
Proof.
  intros Hn. unfold bytes_be3, decodeAngle.
  change (2 ^ 8)%Z with 256%Z. change (2 ^ 16)%Z with 65536%Z.
  change (2 ^ 24)%Z with 16777216%Z in *.
  rewrite !int_of_hex_byte;
    try (apply Z.mod_pos_bound; lia);
    try (split; [apply Z.div_pos | apply Z.div_lt_upper_bound]; lia).
  cbn [rbind].
  replace (65536 * (n / 65536) + 256 * ((n / 256) mod 256) + n mod 256)%Z
    with n; [reflexivity|].
  pose proof (Z.div_mod n 256 ltac:(lia)).
  pose proof (Z.div_mod (n / 256) 256 ltac:(lia)).
  assert (n / 65536 = n / 256 / 256)%Z
    by (rewrite Z.div_div by lia; reflexivity).
  lia.
Qed.

(** C1 (amended): for every angle that is not negative,
    [encodeAngle] reduces it into [0, 360) (so 360 itself is encoded as
    0), takes the integer part (floor; not the nearest integer) of
    [a / 360 * 2^24], which fits 24 bits, pads its binary digits with
    zeros on the most significant side to exactly 24 digits, and returns
    the three big-endian bytes of that integer as two-digit hexadecimal
    strings.  Negative angles are left out: the remainder of a negative
    float is a rounded sum, and for an angle as close to zero as -2^-70
    it is 360 itself; the integer is then 2^24, of 25 binary digits, and
    the bytes are 80 00 00. *)
Theorem encodeAngle_floor_big_endian (a : Q) :
  0 <= a ->
  let a' := Py.fmod a 360 in
  let n := Qfloor ((a' / 360) * inject_Z (2 ^ 24)) in
  (0 <= a' /\ a' < 360) /\
  encodeAngle_integer a = n /\
  (0 <= n < 2 ^ 24)%Z /\
  (exists w,
      encodeAngle_pattern n = ("0b" ++ w)%string /\
      w = (Py.str_repeat (24 - String.length (bin_digits n)) "0"
           ++ bin_digits n)%string /\
      String.length w = 24%nat /\ bits_value 0 w = n) /\
  encodeAngle a = Ok (bytes_be3 n) /\
  Py.fmod 360 360 == 0 /\
  encodeAngle 360 = Ok ("00", "00", "00")%string /\
  Rounded.float_rem B64.rnd (- (1 # 2 ^ 70)) 360 == 360 /\
  Rounded.encodeAngle_integer B64.rnd (- (1 # 2 ^ 70)) = (2 ^ 24)%Z /\
  Rounded.encodeAngle B64.rnd (- (1 # 2 ^ 70))
  = Ok ("80", "00", "00")%string.
Proof.
  intros _ a' n.
  assert (En : encodeAngle_integer a = n) by apply encodeAngle_integer_floor.
  pose proof (encodeAngle_integer_range a) as Hn. rewrite En in Hn.
  split; [apply fmod_range|].
  split; [exact En|].
  split; [exact Hn|].
  split.
  { destruct (encodeAngle_pattern_shape n Hn) as (w & Hp & Hw & Hlen & _ & Hval).
    exists w. auto. }
  split; [rewrite <- En; apply encodeAngle_bytes|].
  split; [reflexivity|]. split; [reflexivity|].
  split; [vm_compute; reflexivity|].
  split; vm_compute; reflexivity.
Qed.

Lemma encodeAngle_floor_big_endian_witness :
  0 <= 90 /\
  encodeAngle_integer 90 = 4194304%Z /\
  encodeAngle 90 = Ok ("40", "00", "00")%string.
Proof.
  split; [discriminate|].
  destruct (encodeAngle_floor_big_endian 90) as (_ & En & _ & _ & Eb & _).
  - discriminate.
  - split; [exact En | exact Eb].
Defined.

(** The specification's wording (nearest integer) and the code (integer
    part) differ already at 0.00002 degrees, where [a / 360 * 2^24] is
    about 0.93. *)
Lemma encodeAngle_not_rounding :
  encodeAngle_spec (1 # 50000) = ("00", "00", "01")%string /\
  encodeAngle (1 # 50000) = Ok ("00", "00", "00")%string /\
  encodeAngle (1 # 50000) <> Ok (encodeAngle_spec (1 # 50000)).
Proof.
  split; [reflexivity|]. split; [reflexivity|].
  vm_compute. discriminate.
Qed.

(** C2: for every angle in [0, 360), decoding the three bytes that
    [encodeAngle] produces gives a value within one quantisation step,
    360 / 2^24 degrees, of the angle. *)
Theorem decode_encode_within_step (a : Q) :
  0 <= a -> a < 360 ->
  exists h1 h2 h3 d,
    encodeAngle a = Ok (h1, h2, h3) /\
    decodeAngle h1 h2 h3 = Ok d /\
    Qabs (d - a) <= 360 / inject_Z (2 ^ 24).
Proof.
  intros H0 H1.
  pose proof (encodeAngle_bytes a) as He.
  pose proof (encodeAngle_integer_range a) as Hn.
  pose proof (decodeAngle_bytes _ Hn) as Hd.
  pose proof (encodeAngle_integer_floor a) as Hf.
  set (n := encodeAngle_integer a) in *.
  destruct (bytes_be3 n) as [[h1 h2] h3].
  exists h1, h2, h3, ((inject_Z n / inject_Z (2 ^ 24)) * 360).
  split; [exact He|]. split; [exact Hd|].
  assert (Hs : Py.fmod a 360 == a) by (apply fmod_small; split; assumption).
  rewrite Hs in Hf.
  pose proof (Qfloor_le ((a / 360) * inject_Z (2 ^ 24))) as Hl.
  pose proof (Qlt_floor ((a / 360) * inject_Z (2 ^ 24))) as Hu.
  rewrite <- Hf in Hl, Hu. rewrite inject_Z_plus in Hu.
  change (inject_Z 1) with 1 in Hu.
  change (inject_Z (2 ^ 24)) with 16777216 in *.
  assert (Ha : a == 360 * (a / 360)) by field.
  assert (Hq : inject_Z n / 16777216 * 360 == inject_Z n * (45 # 2097152))
    by field.
  assert (Hstep : 360 / 16777216 == 45 # 2097152) by reflexivity.
  set (y := a / 360) in *. set (z := inject_Z n) in *.
  rewrite Hstep, Hq.
  apply Qabs_case; intros _; lra.
Qed.

Lemma decode_encode_within_step_witness :
  exists h1 h2 h3 d,
    encodeAngle (1231 # 10) = Ok (h1, h2, h3) /\
    decodeAngle h1 h2 h3 = Ok d /\
    Qabs (d - (1231 # 10)) <= 360 / inject_Z (2 ^ 24).
Proof.
  apply (decode_encode_within_step (1231 # 10)); unfold Qle, Qlt; simpl; lia.
Defined.

End AngleCodec.

(** * One transaction of a single caller *)

Section Talk.

Context {port : Type} `{SerialPort port}.

Lemma list_index_head (x : Z) (l : list Z) : list_index x (x :: l) = Ok O.
Proof. simpl. now rewrite Z.eqb_refl. Qed.

Lemma RS232_Talk_idle (command : string) (s data : list byte) (p : port)
    (t : telescope) :
  idle t ->
  fromhex command = Ok s ->
  ser_readline (ser_write s (ser t)) = (data, p) ->
  RS232_Talk command t = (Done data, after_talk s data p t).
Proof.
  intros [Hq Hl] Hs Hp.
  destruct t; simpl in Hq, Hl, Hp; subst.
  unfold RS232_Talk, bind, lift. rewrite Hs.
  unfold ret, RS232_enqueue, RS232_await_turn, RS232_transfer, RS232_release,
    try_except_finally, lock_acquire, lock_release, queue_pop0, bind, ret,
    modify, get, lift, log_info; simpl.
  rewrite Z.eqb_refl. simpl. rewrite Hp. reflexivity.
Qed.

Lemma bind_Done {A B : Type} (m : @M port A) (k : A -> @M port B)
    (t t' : telescope) (a : A) :
  m t = (Done a, t') -> bind m k t = k a t'.
Proof. intros E. unfold bind. now rewrite E. Qed.

Lemma idle_after_talk (s data : list byte) (p : port) (t : telescope) :
  idle (after_talk s data p t).
Proof. split; reflexivity. Qed.

End Talk.

(** * Destination of a GOTO *)

Section Destination.

Local Open Scope Q_scope.

Lemma Qle_bool_sign (x : Q) : Qle_bool 0 (Qsign x) = Qle_bool 0 x.
Proof.
  unfold Qsign.
  destruct (x ?= 0) eqn:E.
  - apply Qeq_alt in E. symmetry. apply Qle_bool_iff. rewrite E. apply Qle_refl.
  - apply Qlt_alt in E.
    transitivity false; [reflexivity|]. symmetry.
    apply not_true_is_false. rewrite Qle_bool_iff. lra.
  - apply Qgt_alt in E.
    transitivity true; [reflexivity|]. symmetry.
    apply Qle_bool_iff. lra.
Qed.

Lemma Qred_Qeq (x y : Q) : x == y -> Qred x = Qred y.
Proof. apply Qred_complete. Qed.

Lemma HourAngle_rounded (rnd : Q -> Q) (LST RA : Q) :
  Rounded.HourAngle rnd LST RA
  = Rounded.mul rnd
      (Rounded.normalizeSigned rnd
         (Rounded.float_rem rnd (Rounded.sub rnd LST RA) 24)) 15.
Proof.
  unfold Rounded.HourAngle, Rounded.normalizeSigned.
  set (h := Rounded.float_rem rnd (Rounded.sub rnd LST RA) 24).
  destruct (h ?= 12) eqn:E.
  - apply Qeq_alt in E.
    assert (B : Qle_bool h 12 = true) by (apply Qle_bool_iff; lra).
    rewrite B. reflexivity.
  - apply Qlt_alt in E.
    assert (B : Qle_bool h 12 = true) by (apply Qle_bool_iff; lra).
    rewrite B. reflexivity.
  - apply Qgt_alt in E.
    assert (B : Qle_bool h 12 = false)
      by (apply not_true_is_false; rewrite Qle_bool_iff; lra).
    rewrite B. unfold Rounded.add, Rounded.sub.
    rewrite (Qred_Qeq (- (24) + h) (h - 24)) by ring. reflexivity.
Qed.

(** C7 (amended): for every right ascension, declination and sidereal
    time, the destination computed by [_move_radec] (and by
    [GOTO_RADEC] of the thread-based copy) is the one of the
    specification, every operation taken in the arithmetic of the
    program, whatever its rounding: the hour angle is the signed
    normalisation of (LST - RA) mod 24 h, times 15; motor 2 goes to
    180 - Dec when the hour angle is not negative and to Dec otherwise,
    reduced modulo 360; motor 1 goes to the hour angle when it is not
    negative and to the hour angle modulo 180 otherwise. *)
Theorem move_radec_destination (rnd : Q -> Q) (lst ra dec : Q) :
  let RAh := Rounded.float_rem rnd (Rounded.div rnd ra 15) 24 in
  let RA24 := Rounded.float_rem rnd ra 24 in
  Rounded._move_radec_targets rnd lst ra dec
  = (RAh,
     fst (Rounded.destination_spec rnd lst RAh dec),
     snd (Rounded.destination_spec rnd lst RAh dec)) /\
  Rounded.GOTO_RADEC_targets rnd lst ra dec
  = (RA24,
     fst (Rounded.destination_spec rnd lst RA24 dec),
     snd (Rounded.destination_spec rnd lst RA24 dec)).
Proof.
  intros RAh RA24.
  unfold Rounded._move_radec_targets, Rounded.GOTO_RADEC_targets,
    Rounded.destination_spec.
  change (Rounded.AngleDiff rnd lst (Rounded.float_rem rnd ra 24))
    with (Rounded.HourAngle rnd lst (Rounded.float_rem rnd ra 24)).
  fold RAh RA24. cbn [fst snd].
  rewrite !Qle_bool_sign, !HourAngle_rounded.
  split; reflexivity.
Qed.

(** Read over the real numbers, the destination of the specification
    is not the one of the program.  With a sidereal time of 0 h, a
    right ascension of 15 * 2^-60 degrees and a declination of 20
    degrees, all three of them floats, (LST - RA) mod 24 is 24 itself
    in binary64, the hour angle is 0 and the program aims at (0, 160);
    over the reals the hour angle is negative and the destination is
    (180 - 15 * 2^-60, 20). *)
Lemma move_radec_destination_rounds :
  let lst := 0 in
  let ra := 15 # 2 ^ 60 in
  let dec := 20 in
  (B64.rnd lst == lst /\ B64.rnd ra == ra /\ B64.rnd dec == dec) /\
  (let '(ra', mot1, mot2) := Rounded._move_radec_targets B64.rnd lst ra dec in
   ra' == 1 # 2 ^ 60 /\ mot1 == 0 /\ mot2 == 160) /\
  (let '(RA', angle1, angle2) :=
     Rounded.GOTO_RADEC_targets B64.rnd lst (1 # 2 ^ 60) dec in
   RA' == 1 # 2 ^ 60 /\ angle1 == 0 /\ angle2 == 160) /\
  (let '(motor1, motor2) := destination_spec lst (1 # 2 ^ 60) dec in
   motor1 == 180 - (15 # 2 ^ 60) /\ motor2 == 20) /\
  ~ snd (Rounded._move_radec_targets B64.rnd lst ra dec)
    == snd (destination_spec lst (1 # 2 ^ 60) dec).
Proof.
  split; [vm_compute; repeat split|].
  split; [vm_compute; repeat split|].
  split; [vm_compute; repeat split|].
  split; [vm_compute; repeat split|].
  vm_compute. discriminate.
Qed.

End Destination.

(** * Motor-angle reads, release of the queue, tracking *)

Section Reads.

Context {port : Type} `{SerialPort port}.

Lemma Z_of_byte_range (b : byte) : 0 <= Z_of_byte b < 256.
Proof.
  unfold Z_of_byte. pose proof (Byte.to_N_bounded b) as Hb. lia.
Qed.

Lemma byte_hex2_nth (data : list byte) (i : nat) (b : byte) :
  nth_error data i = Some b ->
  byte_hex2 data i = Ok (hex_byte (Z_of_byte b)).
Proof.
  intros E. unfold byte_hex2, bytes_get. rewrite E. cbn [rbind].
  now rewrite pad2_hex by apply Z_of_byte_range.
Qed.

Lemma decodeAngle_hex_bytes (b1 b2 b3 : byte) :
  decodeAngle (hex_byte (Z_of_byte b1)) (hex_byte (Z_of_byte b2))
              (hex_byte (Z_of_byte b3))
  = Ok (angle_of_bytes b1 b2 b3).
Proof.
  unfold decodeAngle.
  rewrite !int_of_hex_byte by apply Z_of_byte_range.
  reflexivity.
Qed.

Lemma skipn_log_app (l new : list log_record) :
  skipn (List.length l) ((l ++ [Info "Length of RS232 QUEUE: {}"]) ++ new)
  = Info "Length of RS232 QUEUE: {}" :: new.
Proof.
  rewrite <- app_assoc, skipn_app, skipn_all, Nat.sub_diag. reflexivity.
Qed.

Ltac short_reply :=
  unfold bind, log_warning, modify, get;
  eexists; split; [reflexivity|];
  split; [reflexivity|]; split; [reflexivity|]; split; [reflexivity|];
  cbn [log set_log after_talk]; rewrite skipn_log_app;
  eexists; right; left; reflexivity.

(** C6 (amended): the reads accept a reply of exactly four bytes (three
    angle bytes and one more), not three.  Started idle, [GET_MOT1] and
    [GET_MOT2] never raise; on a four-byte reply they decode the first
    three bytes, store the angle for that axis and return it; on a
    reply of any other length they log a warning, leave both cached
    angles as they are and return the cached angle. *)
Theorem GET_MOT_checks_reply_length (t : telescope) :
  idle t ->
  (let '(data, p) :=
     ser_readline (ser_write (frame_bytes GET_MOT1_COMMAND) (ser t)) in
   exists t',
     GET_MOT1 t = (Done (mot1 t'), t') /\ mot2 t' = mot2 t /\
     wire t' = (wire t ++ [(frame_bytes GET_MOT1_COMMAND, data)])%list /\
     match data with
     | [b1; b2; b3; _] =>
         mot1 t' = angle_of_bytes b1 b2 b3 /\
         forall msg, ~ In (Warning msg) (skipn (List.length (log t)) (log t'))
     | _ =>
         mot1 t' = mot1 t /\
         exists msg, In (Warning msg) (skipn (List.length (log t)) (log t'))
     end) /\
  (let '(data, p) :=
     ser_readline (ser_write (frame_bytes GET_MOT2_COMMAND) (ser t)) in
   exists t',
     GET_MOT2 t = (Done (mot2 t'), t') /\ mot1 t' = mot1 t /\
     wire t' = (wire t ++ [(frame_bytes GET_MOT2_COMMAND, data)])%list /\
     match data with
     | [b1; b2; b3; _] =>
         mot2 t' = angle_of_bytes b1 b2 b3 /\
         forall msg, ~ In (Warning msg) (skipn (List.length (log t)) (log t'))
     | _ =>
         mot2 t' = mot2 t /\
         exists msg, In (Warning msg) (skipn (List.length (log t)) (log t'))
     end).
Proof.
  intros Hidle. split.
  - destruct (ser_readline (ser_write (frame_bytes GET_MOT1_COMMAND) (ser t)))
      as [data p] eqn:Hp.
    unfold GET_MOT1.
    rewrite (bind_Done _ _ _ _ _
               (RS232_Talk_idle GET_MOT1_COMMAND _ data p t Hidle eq_refl Hp)).
    destruct data as [|b1 [|b2 [|b3 [|b4 [|b5 data]]]]];
      cbn [List.length Nat.eqb]; try short_reply.
    unfold bind, log_info, modify, get.
    rewrite (byte_hex2_nth [b1; b2; b3; b4] 0 b1 eq_refl),
      (byte_hex2_nth [b1; b2; b3; b4] 1 b2 eq_refl),
      (byte_hex2_nth [b1; b2; b3; b4] 2 b3 eq_refl).
    cbn [lift ret]. rewrite decodeAngle_hex_bytes. cbn [lift ret].
    eexists; split; [reflexivity|].
    split; [reflexivity|]; split; [reflexivity|]; split; [reflexivity|].
    cbn [log set_log set_mot1 after_talk]. rewrite skipn_log_app.
    intros msg [E | [E | []]]; discriminate.
  - destruct (ser_readline (ser_write (frame_bytes GET_MOT2_COMMAND) (ser t)))
      as [data p] eqn:Hp.
    unfold GET_MOT2.
    rewrite (bind_Done _ _ _ _ _
               (RS232_Talk_idle GET_MOT2_COMMAND _ data p t Hidle eq_refl Hp)).
    destruct data as [|b1 [|b2 [|b3 [|b4 [|b5 data]]]]];
      cbn [List.length Nat.eqb]; try short_reply.
    unfold bind, log_info, modify, get.
    rewrite (byte_hex2_nth [b1; b2; b3; b4] 0 b1 eq_refl),
      (byte_hex2_nth [b1; b2; b3; b4] 1 b2 eq_refl),
      (byte_hex2_nth [b1; b2; b3; b4] 2 b3 eq_refl).
    cbn [lift ret]. rewrite decodeAngle_hex_bytes. cbn [lift ret].
    eexists; split; [reflexivity|].
    split; [reflexivity|]; split; [reflexivity|]; split; [reflexivity|].
    cbn [log set_log set_mot2 after_talk]. rewrite skipn_log_app.
    intros msg [E | [E | []]]; discriminate.
Qed.

(** C9 (amended): leaving the queue never raises.  With the lock free,
    the release block of [RS232_Talk] returns normally in every state:
    on an empty queue the [IndexError] of [pop(0)] is caught by the bare
    [except], an error is logged, the motion status becomes [ERROR] and
    the call goes on; on a non-empty queue the head is removed whatever
    ticket it is (the ticket of the caller is not looked at).  In both
    cases the lock is released and the event set. *)
Theorem RS232_release_swallows (t : @telescope port) :
  lock_RS232_comm t = false ->
  exists t',
    RS232_release t = (Done tt, t') /\
    lock_RS232_comm t' = false /\ event_RS232_comm t' = true /\
    wire t' = wire t /\ identity t' = identity t /\
    match RS232_QUEUE t with
    | [] =>
        RS232_QUEUE t' = [] /\ motion_status t' = ERROR /\
        log t' = (log t ++ [Error "SOME RESOURCE ACCESS ERROR OCURRED!"])%list
    | _ :: q =>
        RS232_QUEUE t' = q /\ motion_status t' = motion_status t /\
        log t' = log t
    end.
Proof.
  intros Hl. destruct t as [i q l e gs gr r d m1 m2 t1 t2 st lg sr w].
  simpl in Hl. subst l.
  destruct q as [|h q]; eexists; (split; [reflexivity|]); cbn; auto 10.
Qed.

End Reads.

(** * Tracking *)

Section Tracking.

Context {port : Type} `{SerialPort port}.

Lemma fromhex_hex_byte (v : Z) (rest : string) :
  0 <= v < 256 ->
  fromhex (hex_byte v ++ rest)
  = (r <- fromhex rest ;; Ok (byte_of_Z v :: r))%result.
Proof.
  intros Hv.
  assert (E : (negb (is_blank (Py.hex_digit (v / 16)))
               && match hex_value (Py.hex_digit (v / 16)),
                        hex_value (Py.hex_digit (v mod 16)) with
                  | Some hi, Some lo => (16 * hi + lo =? v)
                  | _, _ => false
                  end) = true).
  { revert v Hv.
    apply (all_bytes_complete
             (fun v => negb (is_blank (Py.hex_digit (v / 16)))
               && match hex_value (Py.hex_digit (v / 16)),
                        hex_value (Py.hex_digit (v mod 16)) with
                  | Some hi, Some lo => (16 * hi + lo =? v)
                  | _, _ => false
                  end)).
    vm_compute. reflexivity. }
  apply andb_true_iff in E as [Eb Ev].
  apply negb_true_iff in Eb.
  unfold hex_byte. cbn [append fromhex]. rewrite Eb.
  destruct (hex_value (Py.hex_digit (v / 16))) as [hi|]; [|discriminate].
  destruct (hex_value (Py.hex_digit (v mod 16))) as [lo|]; [|discriminate].
  apply Z.eqb_eq in Ev. now rewrite Ev.
Qed.

Lemma num_ge0_sign (r : Z) : num_ge0 (np_sign (PyInt r)) = (0 <=? r).
Proof. destruct r; reflexivity. Qed.

Lemma rate_bytes_range (r : Z) :
  Z.abs r * 4 < 65536 ->
  0 <= Z.abs r * 4 / 256 < 256 /\ 0 <= (Z.abs r * 4) mod 256 < 256.
Proof.
  intros Hr. split.
  - split; [apply Z.div_pos | apply Z.div_lt_upper_bound]; lia.
  - apply Z.mod_pos_bound. lia.
Qed.

Lemma tracking_frames_int (r1 r2 : Z) :
  Z.abs r1 * 4 < 65536 -> Z.abs r2 * 4 < 65536 ->
  tracking_frames (PyInt r1) (PyInt r2)
  = Ok (tracking_command POS_MOT1_TRACKING NEG_MOT1_TRACKING r1,
        tracking_command POS_MOT2_TRACKING NEG_MOT2_TRACKING r2).
Proof.
  intros H1 H2. unfold tracking_frames.
  rewrite !num_ge0_sign.
  cbn [np_abs num_mul num_floordiv num_sub num_int num_hex rbind].
  replace (Z.abs r1 * 4 - Z.abs r1 * 4 / 256 * 256)
    with ((Z.abs r1 * 4) mod 256) by (rewrite Z.mod_eq by lia; lia).
  replace (Z.abs r2 * 4 - Z.abs r2 * 4 / 256 * 256)
    with ((Z.abs r2 * 4) mod 256) by (rewrite Z.mod_eq by lia; lia).
  destruct (rate_bytes_range r1 H1) as [A1 B1].
  destruct (rate_bytes_range r2 H2) as [A2 B2].
  rewrite !pad2_hex by assumption.
  unfold tracking_command.
  destruct (0 <=? r1), (0 <=? r2); reflexivity.
Qed.

Lemma fromhex_tracking_command (axis : byte) (pos neg : string) (r : Z) :
  Z.abs r * 4 < 65536 ->
  fromhex pos = Ok [x50; x03; axis; x06] ->
  fromhex neg = Ok [x50; x03; axis; x07] ->
  (forall rest, fromhex (pos ++ rest)
                = (a <- fromhex pos ;; b <- fromhex rest ;; Ok (a ++ b)%list)%result) ->
  (forall rest, fromhex (neg ++ rest)
                = (a <- fromhex neg ;; b <- fromhex rest ;; Ok (a ++ b)%list)%result) ->
  fromhex (tracking_command pos neg r) = Ok (tracking_bytes axis r).
Proof.
  intros Hr Hpos Hneg Apos Aneg.
  destruct (rate_bytes_range r Hr) as [A B].
  unfold tracking_command, tracking_bytes.
  destruct (0 <=? r).
  - rewrite Apos, Hpos. cbn [rbind].
    rewrite !fromhex_hex_byte by assumption. reflexivity.
  - rewrite Aneg, Hneg. cbn [rbind].
    rewrite !fromhex_hex_byte by assumption. reflexivity.
Qed.

Lemma fromhex_MOT1_tracking (r : Z) :
  Z.abs r * 4 < 65536 ->
  fromhex (tracking_command POS_MOT1_TRACKING NEG_MOT1_TRACKING r)
  = Ok (tracking_bytes x10 r).
Proof.
  intros Hr. apply fromhex_tracking_command; try assumption; try reflexivity;
    intros rest; cbn; destruct (fromhex rest); reflexivity.
Qed.

Lemma fromhex_MOT2_tracking (r : Z) :
  Z.abs r * 4 < 65536 ->
  fromhex (tracking_command POS_MOT2_TRACKING NEG_MOT2_TRACKING r)
  = Ok (tracking_bytes x11 r).
Proof.
  intros Hr. apply fromhex_tracking_command; try assumption; try reflexivity;
    intros rest; cbn; destruct (fromhex rest); reflexivity.
Qed.

(** C8: for integer rates that fit sixteen bits after the scaling by
    four, [tracking] submits one frame per axis, each built from that
    axis' rate alone: the positive-direction opcode when the rate is
    not negative and the negative-direction opcode otherwise, then
    high = floor(v / 256) and low = v mod 256 of v = |rate| * 4.  For the
    rates +15 and -15 the frames are 50 03 10 06 00 3c 00 00 and
    50 03 11 07 00 3c 00 00: high 0, low 60. *)
Theorem tracking_submits_rate_frames (t : telescope) (r1 r2 : Z) :
  idle t ->
  Z.abs r1 * 4 < 65536 ->
  Z.abs r2 * 4 < 65536 ->
  (exists t',
     tracking (PyInt r1) (PyInt r2) t = (Done tt, t') /\
     map fst (wire t')
     = (map fst (wire t) ++ [tracking_bytes x10 r1; tracking_bytes x11 r2])%list /\
     tracking_rate_mot1 t' = PyInt r1 /\
     tracking_rate_mot2 t' = PyInt r2 /\
     motion_status t' = TRACKING) /\
  tracking_frames (PyInt 15) (PyInt (-15))
  = Ok ("50031006003c0000", "50031107003c0000") /\
  tracking_bytes x10 15 = [x50; x03; x10; x06; x00; x3c; x00; x00] /\
  tracking_bytes x11 (-15) = [x50; x03; x11; x07; x00; x3c; x00; x00].
Proof.
  intros Hidle H1 H2.
  split; [|repeat split; reflexivity].
  unfold tracking, _change_motion_status.
  set (t0 := set_tracking_rate_mot2 (PyInt r2)
               (set_tracking_rate_mot1 (PyInt r1) (set_motion_status TRACKING t))).
  assert (I0 : idle t0) by (destruct Hidle; split; assumption).
  destruct (ser_readline (ser_write (tracking_bytes x10 r1) (ser t0)))
    as [d1 p1] eqn:E1.
  pose proof (RS232_Talk_idle _ _ d1 p1 t0 I0 (fromhex_MOT1_tracking r1 H1) E1)
    as T1.
  set (t1 := after_talk (tracking_bytes x10 r1) d1 p1 t0) in *.
  assert (I1 : idle t1) by apply idle_after_talk.
  destruct (ser_readline (ser_write (tracking_bytes x11 r2) (ser t1)))
    as [d2 p2] eqn:E2.
  pose proof (RS232_Talk_idle _ _ d2 p2 t1 I1 (fromhex_MOT2_tracking r2 H2) E2)
    as T2.
  eexists. split.
  - unfold bind at 1, modify at 1.
    unfold bind at 1, modify at 1.
    unfold bind at 1, modify at 1.
    fold t0.
    unfold bind at 1. rewrite (tracking_frames_int r1 r2 H1 H2). cbn [lift ret].
    rewrite (bind_Done _ _ _ _ _ T1).
    rewrite (bind_Done _ _ _ _ _ T2).
    reflexivity.
  - cbn [wire set_log after_talk tracking_rate_mot1 tracking_rate_mot2
         motion_status].
    subst t1 t0.
    cbn [wire set_log after_talk tracking_rate_mot1 tracking_rate_mot2
         motion_status set_tracking_rate_mot1 set_tracking_rate_mot2
         set_motion_status].
    rewrite !map_app. cbn [map fst]. rewrite <- app_assoc.
    repeat split; reflexivity.
Qed.

Lemma to_float_finite (q : Q) :
  (Qabs q <= float_max)%Q -> to_float q = PyFloat q.
Proof.
  intros L. unfold to_float.
  now replace (Qle_bool (Qabs q) float_max) with true
    by (symmetry; now apply Qle_bool_iff).
Qed.

Lemma float_max_large : (256 <= float_max)%Q.
Proof. apply Qle_bool_iff. vm_compute. reflexivity. Qed.

Lemma num_float_4 : num_float (PyInt 4) = PyFloat (inject_Z 4).
Proof.
  apply to_float_finite. apply Qle_bool_iff. vm_compute. reflexivity.
Qed.

Lemma num_float_256 : num_float (PyInt 256) = PyFloat (inject_Z 256).
Proof.
  apply to_float_finite. apply Qle_bool_iff. vm_compute. reflexivity.
Qed.

Lemma Qle_bool_Qeq (x y z : Q) : (x == y)%Q -> Qle_bool x z = Qle_bool y z.
Proof.
  intros E. destruct (Qle_bool y z) eqn:B.
  - apply Qle_bool_iff. apply Qle_bool_iff in B. now rewrite E.
  - apply not_true_is_false. rewrite Qle_bool_iff.
    apply not_true_iff_false in B. rewrite Qle_bool_iff in B. now rewrite E.
Qed.

(** The operations of [tracking] on a float operand and an integer
    constant. *)
Lemma num_mul_float (x : pynum) (k : Z) :
  is_float x = true -> num_mul x (PyInt k) = float_mul x (num_float (PyInt k)).
Proof. destruct x; try discriminate; reflexivity. Qed.

Lemma num_floordiv_float (x : pynum) (k : Z) :
  is_float x = true ->
  num_floordiv x (PyInt k) = float_floordiv x (num_float (PyInt k)).
Proof. destruct x; try discriminate; reflexivity. Qed.

Lemma num_sub_float (x y : pynum) :
  is_float x = true -> is_float y = true -> num_sub x y = float_sub x y.
Proof. destruct x, y; try discriminate; reflexivity. Qed.

Lemma rate_tmp_finite (e : Q) :
  (0 <= e)%Q -> (e <= float_max)%Q ->
  exists f r,
    num_floordiv (PyFloat e) (PyInt 256) = PyFloat f /\
    num_sub (PyFloat e) (num_mul (PyFloat f) (PyInt 256)) = PyFloat r.
Proof.
  intros E0 E1.
  rewrite num_floordiv_float by reflexivity. rewrite num_float_256.
  cbn [float_floordiv]. change (Qeq_bool (inject_Z 256) 0) with false. cbv iota.
  change (inject_Z 256) with 256%Q.
  assert (Hl : (inject_Z (Qfloor (e / 256)) <= e / 256)%Q) by apply Qfloor_le.
  assert (Hu : (e / 256 < inject_Z (Qfloor (e / 256) + 1))%Q) by apply Qlt_floor.
  rewrite inject_Z_plus in Hu. change (inject_Z 1) with 1%Q in Hu.
  assert (F0 : (0 <= inject_Z (Qfloor (e / 256)))%Q).
  { change 0%Q with (inject_Z 0). rewrite <- Zle_Qle.
    change 0%Z with (Qfloor 0). apply Qfloor_resp_le.
    apply Qle_shift_div_l; [reflexivity | lra]. }
  assert (Ed : (e == 256 * (e / 256))%Q) by (field; discriminate).
  set (f := inject_Z (Qfloor (e / 256))) in *.
  set (y := (e / 256)%Q) in *.
  pose proof float_max_large as M.
  rewrite (to_float_finite f) by (rewrite Qabs_pos by exact F0; lra).
  exists f. eexists. split; [reflexivity|].
  rewrite num_mul_float by reflexivity. rewrite num_float_256.
  cbn [float_mul]. change (inject_Z 256) with 256%Q.
  rewrite (to_float_finite (f * 256)) by (rewrite Qabs_pos by lra; lra).
  cbn [num_sub num_float float_sub].
  rewrite (to_float_finite (e - f * 256)) by (rewrite Qabs_pos by lra; lra).
  reflexivity.
Qed.

Lemma encode_rate_float (q : Q) :
  num_mul (np_abs (PyFloat q)) (PyInt 4)
  = if Qle_bool (Qabs q * 4) float_max then PyFloat (Qabs q * 4)
    else PyInf false.
Proof.
  cbn [np_abs]. rewrite num_mul_float by reflexivity. rewrite num_float_4.
  cbn [float_mul]. change (inject_Z 4) with 4%Q.
  assert (Ea : (Qabs (Qabs q * 4) == Qabs q * 4)%Q).
  { rewrite Qabs_Qmult, Qabs_pos by apply Qabs_nonneg. reflexivity. }
  unfold to_float. rewrite (Qle_bool_Qeq _ _ _ Ea).
  destruct (Qle_bool (Qabs q * 4) float_max) eqn:B; [reflexivity|].
  f_equal. unfold Qnegative. apply Z.ltb_ge.
  pose proof (Qabs_nonneg q) as N. unfold Qle in N. simpl in *. nia.
Qed.

(** What [int(tmp)] gives for a rate. *)
Lemma num_int_rate_tmp (x : pynum) :
  if overflows4 x
  then num_int (rate_tmp x) = Raise ValueError
  else exists z, num_int (rate_tmp x) = Ok z.
Proof.
  destruct x as [z | q | s | ]; cbn [overflows4].
  - eexists. reflexivity.
  - unfold rate_tmp. rewrite encode_rate_float.
    destruct (Qle_bool (Qabs q * 4) float_max) eqn:B; cbn [negb].
    + apply Qle_bool_iff in B.
      destruct (rate_tmp_finite (Qabs q * 4)) as (f & r & -> & ->);
        [pose proof (Qabs_nonneg q); lra | exact B |].
      eexists. reflexivity.
    + reflexivity.
  - unfold rate_tmp. cbn [np_abs]. rewrite num_mul_float by reflexivity.
    rewrite num_float_4. reflexivity.
  - reflexivity.
Qed.

Lemma num_hex_high_byte (x : pynum) :
  overflows4 x = false ->
  num_hex (num_floordiv (num_mul (np_abs x) (PyInt 4)) (PyInt 256))
  = if is_float x
    then Raise TypeError
    else Ok (Py.hex (match x with PyInt z => Z.abs z * 4 / 256 | _ => 0 end)).
Proof.
  destruct x as [z | q | s | ]; cbn [overflows4 is_float]; try discriminate.
  - reflexivity.
  - intros B. apply negb_false_iff in B.
    rewrite encode_rate_float, B.
    apply Qle_bool_iff in B.
    destruct (rate_tmp_finite (Qabs q * 4)) as (f & r & -> & _);
      [pose proof (Qabs_nonneg q); lra | exact B |].
    reflexivity.
Qed.

(** The exception of [tracking_frames], by the types and values of the
    two rates. *)
Lemma tracking_frames_float (r1 r2 : pynum) :
  is_float r1 || is_float r2 = true ->
  tracking_frames r1 r2
  = Raise (if overflows4 r1 || overflows4 r2 then ValueError else TypeError).
Proof.
  intros F. unfold tracking_frames.
  fold (rate_tmp r1). fold (rate_tmp r2).
  pose proof (num_int_rate_tmp r1) as T1.
  pose proof (num_int_rate_tmp r2) as T2.
  destruct (overflows4 r1) eqn:O1.
  - rewrite T1. reflexivity.
  - destruct T1 as (z1 & ->). cbn [rbind].
    destruct (overflows4 r2) eqn:O2.
    + rewrite T2. reflexivity.
    + destruct T2 as (z2 & ->). cbn [rbind orb].
      rewrite (num_hex_high_byte r1 O1).
      destruct (is_float r1) eqn:F1; [reflexivity|]. cbn [rbind num_hex].
      rewrite (num_hex_high_byte r2 O2).
      cbn [orb] in F. rewrite F. reflexivity.
Qed.

(** C10 (amended): a rate of type float on either axis makes
    [tracking] raise, after the status [TRACKING] is set and the two
    cached rates are overwritten and before anything is written to the
    serial line: [ValueError] from [int(tmp)], which runs first, when
    one of the rates is not a number, an infinity or a float whose
    fourfold overflows; [TypeError] from [hex] of the float high byte
    in every other case.  With integer rates the frames are always
    built. *)
Theorem tracking_float_rate_raises (t : @telescope port) (r1 r2 : pynum) :
  (is_float r1 || is_float r2 = true ->
   exists t',
     tracking r1 r2 t
     = (Fault (if overflows4 r1 || overflows4 r2 then ValueError
               else TypeError), t') /\
     tracking_rate_mot1 t' = r1 /\ tracking_rate_mot2 t' = r2 /\
     motion_status t' = TRACKING /\
     wire t' = wire t /\ ser t' = ser t /\
     RS232_QUEUE t' = RS232_QUEUE t /\ identity t' = identity t) /\
  (forall z1 z2 : Z, exists f, tracking_frames (PyInt z1) (PyInt z2) = Ok f).
Proof.
  split.
  - intros F. eexists. split.
    + unfold tracking, _change_motion_status, bind, modify.
      rewrite (tracking_frames_float r1 r2 F). reflexivity.
    + repeat split; reflexivity.
  - intros z1 z2. unfold tracking_frames.
    cbn [np_abs num_mul num_floordiv num_sub num_int num_hex rbind].
    eexists. reflexivity.
Qed.

End Tracking.

(** * The two-phase GOTO on the simulated mount *)

Section Goto.

Lemma hex_is_255 (b : byte) :
  (Py.hex (Z_of_byte b) =? Py.hex 255)%string = (Z_of_byte b =? 255).
Proof. destruct b; vm_compute; reflexivity. Qed.

Lemma be3_ranges (n : Z) :
  0 <= n < 2 ^ 24 ->
  0 <= n / 2 ^ 16 < 256 /\ 0 <= (n / 2 ^ 8) mod 2 ^ 8 < 256 /\
  0 <= n mod 2 ^ 8 < 256.
Proof.
  intros Hn.
  change (2 ^ 8) with 256. change (2 ^ 16) with 65536.
  change (2 ^ 24) with 16777216 in Hn.
  repeat split; try (apply Z.mod_pos_bound; lia).
  - apply Z.div_pos; lia.
  - apply Z.div_lt_upper_bound; lia.
Qed.

Lemma fromhex_goto_prefix (rest : string) :
  fromhex (GOTO_MOT1_FAST ++ rest)
  = (r <- fromhex rest ;; Ok ([x50; x04; x10; x02] ++ r)%list)%result /\
  fromhex (GOTO_MOT1_SLOW ++ rest)
  = (r <- fromhex rest ;; Ok ([x50; x04; x10; x17] ++ r)%list)%result /\
  fromhex (GOTO_MOT2_FAST ++ rest)
  = (r <- fromhex rest ;; Ok ([x50; x04; x11; x02] ++ r)%list)%result /\
  fromhex (GOTO_MOT2_SLOW ++ rest)
  = (r <- fromhex rest ;; Ok ([x50; x04; x11; x17] ++ r)%list)%result.
Proof. repeat split; cbn; destruct (fromhex rest); reflexivity. Qed.

Lemma fromhex_angle_field (n : Z) :
  0 <= n < 2 ^ 24 ->
  fromhex (hex_byte (n / 2 ^ 16) ++ hex_byte ((n / 2 ^ 8) mod 2 ^ 8)
           ++ hex_byte (n mod 2 ^ 8) ++ "00")
  = Ok [byte_of_Z (n / 2 ^ 16); byte_of_Z ((n / 2 ^ 8) mod 2 ^ 8);
        byte_of_Z (n mod 2 ^ 8); x00].
Proof.
  intros Hn. destruct (be3_ranges n Hn) as (R1 & R2 & R3).
  rewrite !fromhex_hex_byte by assumption. reflexivity.
Qed.

Lemma GOTO_MOT_bytes (alpha : Q) (fast : bool) :
  (exists cmd,
      GOTO_MOT1 alpha fast = Ok cmd /\
      fromhex cmd = Ok (goto_bytes x10 (if fast then x02 else x17) alpha)) /\
  (exists cmd,
      GOTO_MOT2 alpha fast = Ok cmd /\
      fromhex cmd = Ok (goto_bytes x11 (if fast then x02 else x17) alpha)).
Proof.
  pose proof (encodeAngle_bytes alpha) as E.
  pose proof (fromhex_angle_field _ (encodeAngle_integer_range alpha)) as F.
  split; eexists.
  - unfold GOTO_MOT1. rewrite E. unfold bytes_be3. cbn [rbind].
    split; [reflexivity|].
    destruct fast.
    + rewrite (proj1 (fromhex_goto_prefix _)), F. reflexivity.
    + rewrite (proj1 (proj2 (fromhex_goto_prefix _))), F. reflexivity.
  - unfold GOTO_MOT2. rewrite E. unfold bytes_be3. cbn [rbind].
    split; [reflexivity|].
    destruct fast.
    + rewrite (proj1 (proj2 (proj2 (fromhex_goto_prefix _)))), F. reflexivity.
    + rewrite (proj2 (proj2 (proj2 (fromhex_goto_prefix _)))), F. reflexivity.
Qed.

Lemma advanced_refl (t : @telescope mount) : idle t -> advanced t t 0 0 [].
Proof.
  intros I. unfold advanced. rewrite !Nat.add_0_r, app_nil_r. auto 10.
Qed.

Lemma advanced_trans (t t1 t2 : @telescope mount) (r1 d1 r2 d2 : nat)
    (f1 f2 : list (list byte)) :
  advanced t t1 r1 d1 f1 -> advanced t1 t2 r2 d2 f2 ->
  advanced t t2 (r1 + r2) (d1 + d2) (f1 ++ f2).
Proof.
  intros (I1 & A1 & B1 & C1 & R1 & D1 & W1) (I2 & A2 & B2 & C2 & R2 & D2 & W2).
  unfold advanced. rewrite A2, B2, C2, R2, D2, W2, A1, B1, C1, R1, D1, W1.
  rewrite !Nat.add_assoc, app_assoc. auto 10.
Qed.

Lemma talk_ra (t : @telescope mount) :
  idle t ->
  exists t',
    RS232_Talk RA_GOTO_RUN t
    = (Done (ra_script (ser t) (ra_polls (ser t))), t') /\
    advanced t t' 1 0 [frame_bytes RA_GOTO_RUN].
Proof.
  intros I. eexists. split.
  - apply (RS232_Talk_idle RA_GOTO_RUN (frame_bytes RA_GOTO_RUN)); 
      [exact I | reflexivity | reflexivity].
  - unfold advanced. cbn [ser wire after_talk ra_script dec_script other_reply
                          ra_polls dec_polls].
    rewrite map_app, Nat.add_0_r, Nat.add_1_r.
    split; [apply idle_after_talk|]. auto 10.
Qed.

Lemma talk_dec (t : @telescope mount) :
  idle t ->
  exists t',
    RS232_Talk DEC_GOTO_RUN t
    = (Done (dec_script (ser t) (dec_polls (ser t))), t') /\
    advanced t t' 0 1 [frame_bytes DEC_GOTO_RUN].
Proof.
  intros I. eexists. split.
  - apply (RS232_Talk_idle DEC_GOTO_RUN (frame_bytes DEC_GOTO_RUN)); 
      [exact I | reflexivity | reflexivity].
  - unfold advanced. cbn [ser wire after_talk ra_script dec_script other_reply
                          ra_polls dec_polls].
    rewrite map_app, Nat.add_0_r, Nat.add_1_r.
    split; [apply idle_after_talk|]. auto 10.
Qed.

Lemma talk_goto (t : @telescope mount) (cmd : string) (axis speed : byte)
    (alpha : Q) :
  idle t ->
  fromhex cmd = Ok (goto_bytes axis speed alpha) ->
  exists data t',
    RS232_Talk cmd t = (Done data, t') /\
    advanced t t' 0 0 [goto_bytes axis speed alpha].
Proof.
  intros I E. eexists. eexists. split.
  - apply (RS232_Talk_idle cmd (goto_bytes axis speed alpha));
      [exact I | exact E | reflexivity].
  - unfold advanced. cbn [ser wire after_talk ra_script dec_script other_reply
                          ra_polls dec_polls].
    rewrite map_app, !Nat.add_0_r.
    split; [apply idle_after_talk|]. auto 10.
Qed.

Lemma poll_axis_running (frame : string) (t : @telescope mount) :
  poll_axis frame true t = (Done true, t).
Proof. reflexivity. Qed.

Lemma poll_reply (data : list byte) (t : @telescope mount) :
  (2 <= List.length data)%nat ->
  (d0 <- lift (bytes_get data 0) ;;
   let h1 := Py.hex d0 in
   d1 <- lift (bytes_get data 1) ;;
   let h2 := Py.hex d1 in
   if (h1 =? Py.hex 255)%string then ret true else ret false)%driver t
  = (Done (stoppedb data), t).
Proof.
  intros L. destruct data as [|b0 [|b1 rest]]; cbn [List.length] in L; try lia.
  unfold bind, bytes_get. cbn [nth_error lift ret stoppedb].
  rewrite hex_is_255. now destruct (Z_of_byte b0 =? 255).
Qed.

Lemma poll_axis_ra (t : @telescope mount) :
  idle t ->
  (2 <= List.length (ra_script (ser t) (ra_polls (ser t))))%nat ->
  exists t',
    poll_axis RA_GOTO_RUN false t
    = (Done (stoppedb (ra_script (ser t) (ra_polls (ser t)))), t') /\
    advanced t t' 1 0 [frame_bytes RA_GOTO_RUN].
Proof.
  intros I L. destruct (talk_ra t I) as (t' & E & A).
  exists t'. split; [|exact A].
  unfold poll_axis. cbn [negb].
  rewrite (bind_Done _ _ _ _ _ E). now apply poll_reply.
Qed.

Lemma poll_axis_dec (t : @telescope mount) :
  idle t ->
  (2 <= List.length (dec_script (ser t) (dec_polls (ser t))))%nat ->
  exists t',
    poll_axis DEC_GOTO_RUN false t
    = (Done (stoppedb (dec_script (ser t) (dec_polls (ser t)))), t') /\
    advanced t t' 0 1 [frame_bytes DEC_GOTO_RUN].
Proof.
  intros I L. destruct (talk_dec t I) as (t' & E & A).
  exists t'. split; [|exact A].
  unfold poll_axis. cbn [negb].
  rewrite (bind_Done _ _ _ _ _ E). now apply poll_reply.
Qed.

(** One axis in round [j] of a loop in which it stops at round [a]. *)
Lemma poll_axis_round_ra (t : @telescope mount) (a j : nat) :
  idle t ->
  (forall i, 2 <= List.length (ra_script (ser t) i))%nat ->
  ((j <= a)%nat -> first_stop (ra_script (ser t)) (ra_polls (ser t)) (a - j)) ->
  exists t',
    poll_axis RA_GOTO_RUN (a <? j)%nat t = (Done (a <? S j)%nat, t') /\
    advanced t t' (if (j <=? a)%nat then 1 else 0) 0
             (if (j <=? a)%nat then [frame_bytes RA_GOTO_RUN] else []).
Proof.
  intros I L F.
  destruct (Nat.leb_spec j a) as [Hle | Hgt].
  - assert (Hn : (a <? j)%nat = false) by (apply Nat.ltb_ge; lia).
    rewrite Hn.
    destruct (poll_axis_ra t I (L _)) as (t' & E & A).
    exists t'. split; [|exact A]. rewrite E. do 2 f_equal.
    destruct (F Hle) as [Fm Fs].
    destruct (Nat.eq_dec j a) as [-> | Hne].
    + rewrite Nat.sub_diag, Nat.add_0_r in Fs. rewrite Fs.
      symmetry. apply Nat.ltb_lt. lia.
    + specialize (Fm 0%nat ltac:(lia)). rewrite Nat.add_0_r in Fm. rewrite Fm.
      symmetry. apply Nat.ltb_ge. lia.
  - assert (Hn : (a <? j)%nat = true) by (apply Nat.ltb_lt; lia).
    assert (Hn' : (a <? S j)%nat = true) by (apply Nat.ltb_lt; lia).
    rewrite Hn, Hn'. exists t. split; [reflexivity | now apply advanced_refl].
Qed.

Lemma poll_axis_round_dec (t : @telescope mount) (d j : nat) :
  idle t ->
  (forall i, 2 <= List.length (dec_script (ser t) i))%nat ->
  ((j <= d)%nat -> first_stop (dec_script (ser t)) (dec_polls (ser t)) (d - j)) ->
  exists t',
    poll_axis DEC_GOTO_RUN (d <? j)%nat t = (Done (d <? S j)%nat, t') /\
    advanced t t' 0 (if (j <=? d)%nat then 1 else 0)
             (if (j <=? d)%nat then [frame_bytes DEC_GOTO_RUN] else []).
Proof.
  intros I L F.
  destruct (Nat.leb_spec j d) as [Hle | Hgt].
  - assert (Hn : (d <? j)%nat = false) by (apply Nat.ltb_ge; lia).
    rewrite Hn.
    destruct (poll_axis_dec t I (L _)) as (t' & E & A).
    exists t'. split; [|exact A]. rewrite E. do 2 f_equal.
    destruct (F Hle) as [Fm Fs].
    destruct (Nat.eq_dec j d) as [-> | Hne].
    + rewrite Nat.sub_diag, Nat.add_0_r in Fs. rewrite Fs.
      symmetry. apply Nat.ltb_lt. lia.
    + specialize (Fm 0%nat ltac:(lia)). rewrite Nat.add_0_r in Fm. rewrite Fm.
      symmetry. apply Nat.ltb_ge. lia.
  - assert (Hn : (d <? j)%nat = true) by (apply Nat.ltb_lt; lia).
    assert (Hn' : (d <? S j)%nat = true) by (apply Nat.ltb_lt; lia).
    rewrite Hn, Hn'. exists t. split; [reflexivity | now apply advanced_refl].
Qed.

Lemma advanced_eq (t t' : @telescope mount) (r d r' d' : nat)
    (f f' : list (list byte)) :
  advanced t t' r d f -> r = r' -> d = d' -> f = f' -> advanced t t' r' d' f'.
Proof. intros A -> -> ->. exact A. Qed.

Lemma first_stop_shift (script : nat -> list byte) (start n : nat) :
  first_stop script start (S n) -> first_stop script (start + 1) n.
Proof.
  intros [Fm Fs]. split.
  - intros j Hj. replace (start + 1 + j)%nat with (start + S j)%nat by lia.
    apply Fm. lia.
  - replace (start + 1 + n)%nat with (start + S n)%nat by lia. exact Fs.
Qed.

Lemma poll_until_stopped_done (budget : nat) (abort_event : nat -> bool)
    (k : nat) (ra dec : bool) (t : @telescope mount) :
  poll_until_stopped budget abort_event k true ra dec t = (Done k, t).
Proof. destruct budget; reflexivity. Qed.

Lemma poll_loop (a d : nat) :
  forall (r j budget k : nat) (t : @telescope mount),
    (j + r = S (Nat.max a d))%nat -> (1 <= r)%nat -> (r <= budget)%nat ->
    idle t ->
    (forall i, 2 <= List.length (ra_script (ser t) i))%nat ->
    (forall i, 2 <= List.length (dec_script (ser t) i))%nat ->
    ((j <= a)%nat -> first_stop (ra_script (ser t)) (ra_polls (ser t)) (a - j)) ->
    ((j <= d)%nat -> first_stop (dec_script (ser t)) (dec_polls (ser t)) (d - j)) ->
    exists k' t',
      poll_until_stopped budget (fun _ => false) k false
                         (a <? j)%nat (d <? j)%nat t
      = (Done k', t') /\
      advanced t t' (S a - j) (S d - j) (flat_map (poll_round a d) (seq j r)).
Proof.
  induction r as [|r IH]; intros j budget k t Hjr Hr Hb I La Ld Fa Fd; [lia|].
  destruct budget as [|b]; [lia|].
  cbn [poll_until_stopped].
  destruct (poll_axis_round_ra t a j I La Fa) as (t1 & E1 & A1).
  rewrite (bind_Done _ _ _ _ _ E1).
  pose proof A1 as (I1 & Sa1 & Sd1 & So1 & Ra1 & Rd1 & W1).
  assert (Ld1 : forall i, (2 <= List.length (dec_script (ser t1) i))%nat)
    by (intros i; rewrite Sd1; apply Ld).
  assert (Fd1 : (j <= d)%nat ->
                first_stop (dec_script (ser t1)) (dec_polls (ser t1)) (d - j))
    by (intros Hle; rewrite Sd1, Rd1, Nat.add_0_r; auto).
  destruct (poll_axis_round_dec t1 d j I1 Ld1 Fd1) as (t2 & E2 & A2).
  rewrite (bind_Done _ _ _ _ _ E2).
  pose proof (advanced_trans _ _ _ _ _ _ _ _ _ A1 A2) as A12.
  pose proof A12 as (I2 & Sa2 & Sd2 & So2 & Ra2 & Rd2 & W2).
  cbv zeta.
  destruct r as [|r'].
  - (* last round: both axes have stopped *)
    assert (Ha : (a <? S j)%nat = true) by (apply Nat.ltb_lt; lia).
    assert (Hd : (d <? S j)%nat = true) by (apply Nat.ltb_lt; lia).
    rewrite Ha, Hd. cbn [andb]. rewrite poll_until_stopped_done.
    exists (S k), t2. split; [reflexivity|].
    apply (advanced_eq _ _ _ _ _ _ _ _ A12).
    + destruct (Nat.leb_spec j a); lia.
    + destruct (Nat.leb_spec j d); lia.
    + cbn [seq flat_map]. rewrite app_nil_r. reflexivity.
  - (* some axis is still moving *)
    assert (Ht : ((d <? S j)%nat && (a <? S j)%nat) = false).
    { apply andb_false_iff.
      destruct (Nat.le_ge_cases a d).
      - left. apply Nat.ltb_ge. lia.
      - right. apply Nat.ltb_ge. lia. }
    rewrite Ht.
    destruct (IH (S j) b (S k) t2) as (k' & t' & E & A); try lia; try assumption.
    + intros i. rewrite Sa2. apply La.
    + intros i. rewrite Sd2. apply Ld.
    + intros Hle. rewrite Sa2, Ra2.
      assert (Hja : (j <=? a)%nat = true) by (apply Nat.leb_le; lia).
      rewrite Hja. cbn [Nat.add].
      apply first_stop_shift.
      replace (S (a - S j)) with (a - j)%nat by lia. apply Fa. lia.
    + intros Hle. rewrite Sd2, Rd2.
      assert (Hjd : (j <=? d)%nat = true) by (apply Nat.leb_le; lia).
      rewrite Hjd. cbn [Nat.add].
      apply first_stop_shift.
      replace (S (d - S j)) with (d - j)%nat by lia. apply Fd. lia.
    + exists k', t'. split; [exact E|].
      apply (advanced_eq _ _ _ _ _ _ _ _ (advanced_trans _ _ _ _ _ _ _ _ _ A12 A)).
      * destruct (Nat.leb_spec j a); lia.
      * destruct (Nat.leb_spec j d); lia.
      * cbn [seq flat_map]. unfold poll_round at 3. reflexivity.
Qed.

Lemma exists_first_stop (script : nat -> list byte) (start : nat) :
  (exists i, (start <= i)%nat /\ stoppedb (script i) = true) ->
  exists a, first_stop script start a.
Proof.
  intros (i & Hi & Hs).
  replace i with (start + (i - start))%nat in Hs by lia.
  generalize dependent (i - start)%nat. clear i Hi.
  intros n. revert start.
  induction n as [|n IH]; intros start Hs.
  - exists 0%nat. split; [intros j Hj; lia | exact Hs].
  - destruct (stoppedb (script start)) eqn:E.
    + exists 0%nat. split; [intros j Hj; lia|].
      now rewrite Nat.add_0_r.
    + destruct (IH (start + 1)%nat) as (a & Fm & Fs).
      { now replace (start + 1 + n)%nat with (start + S n)%nat by lia. }
      exists (S a). split.
      * intros [|j] Hj; [now rewrite Nat.add_0_r|].
        replace (start + S j)%nat with (start + 1 + j)%nat by lia.
        apply Fm. lia.
      * now replace (start + S a)%nat with (start + 1 + a)%nat by lia.
Qed.

Lemma bind_modify {A : Type} (f : @telescope mount -> @telescope mount)
    (k : unit -> @M mount A) (t : @telescope mount) :
  bind (modify f) k t = k tt (f t).
Proof. reflexivity. Qed.

Lemma bind_lift_Ok {A B : Type} (a : A) (k : A -> @M mount B)
    (t : @telescope mount) :
  bind (lift (Ok a)) k t = k a t.
Proof. reflexivity. Qed.

Lemma advanced_set_log (t t' : @telescope mount) (r d : nat)
    (f : list (list byte)) (l : list log_record) :
  advanced t t' r d f -> advanced t (set_log l t') r d f.
Proof. intros A. exact A. Qed.

Lemma bytes_eqb_refl (f : list byte) : bytes_eqb f f = true.
Proof.
  induction f as [|b f IH]; [reflexivity|].
  cbn [bytes_eqb]. rewrite IH, andb_true_r.
  destruct b; reflexivity.
Qed.

Lemma count_frame_app (f : list byte) (l1 l2 : list (list byte)) :
  count_frame f (l1 ++ l2) = (count_frame f l1 + count_frame f l2)%nat.
Proof. unfold count_frame. now rewrite filter_app, List.length_app. Qed.

Lemma count_poll_rounds (f : list byte) (a d : nat) (js : list nat) :
  count_frame f (flat_map (poll_round a d) js)
  = ((if bytes_eqb f (frame_bytes RA_GOTO_RUN)
      then List.length (filter (fun j => (j <=? a)%nat) js) else 0)
     + (if bytes_eqb f (frame_bytes DEC_GOTO_RUN)
        then List.length (filter (fun j => (j <=? d)%nat) js) else 0))%nat.
Proof.
  induction js as [|j js IH].
  - cbn. now destruct (bytes_eqb f _), (bytes_eqb f _).
  - cbn [flat_map filter]. rewrite count_frame_app, IH.
    unfold poll_round, count_frame.
    destruct (j <=? a)%nat, (j <=? d)%nat; cbn [app filter List.length];
      destruct (bytes_eqb f (frame_bytes RA_GOTO_RUN)),
               (bytes_eqb f (frame_bytes DEC_GOTO_RUN));
      cbn [List.length]; lia.
Qed.

Lemma filter_le_seq (a n : nat) :
  (a < n)%nat ->
  List.length (filter (fun j => (j <=? a)%nat) (seq 0 n)) = S a.
Proof.
  intros H.
  replace n with (S a + (n - S a))%nat by lia.
  rewrite seq_app, filter_app, List.length_app.
  assert (E1 : forall m s, (s + m <= S a)%nat ->
             filter (fun j => (j <=? a)%nat) (seq s m) = seq s m).
  { induction m as [|m IHm]; intros s Hs; [reflexivity|].
    cbn [seq filter].
    assert (Hsa : (s <=? a)%nat = true) by (apply Nat.leb_le; lia).
    rewrite Hsa, IHm by lia. reflexivity. }
  assert (E2 : forall m s, (S a <= s)%nat ->
             filter (fun j => (j <=? a)%nat) (seq s m) = []).
  { induction m as [|m IHm]; intros s Hs; [reflexivity|].
    cbn [seq filter].
    assert (Hsa : (s <=? a)%nat = false) by (apply Nat.leb_gt; lia).
    rewrite Hsa, IHm by lia. reflexivity. }
  rewrite E1, E2, length_seq by lia. cbn [List.length]. lia.
Qed.

Lemma count_poll_frames (a d : nat) :
  count_frame (frame_bytes RA_GOTO_RUN) (poll_frames a d) = S a /\
  count_frame (frame_bytes DEC_GOTO_RUN) (poll_frames a d) = S d /\
  forall axis speed alpha,
    count_frame (goto_bytes axis speed alpha) (poll_frames a d) = 0%nat.
Proof.
  unfold poll_frames. repeat split.
  - rewrite count_poll_rounds.
    change (bytes_eqb (frame_bytes RA_GOTO_RUN) (frame_bytes RA_GOTO_RUN))
      with true.
    change (bytes_eqb (frame_bytes RA_GOTO_RUN) (frame_bytes DEC_GOTO_RUN))
      with false.
    rewrite !filter_le_seq by lia. lia.
  - rewrite count_poll_rounds.
    change (bytes_eqb (frame_bytes DEC_GOTO_RUN) (frame_bytes RA_GOTO_RUN))
      with false.
    change (bytes_eqb (frame_bytes DEC_GOTO_RUN) (frame_bytes DEC_GOTO_RUN))
      with true.
    rewrite !filter_le_seq by lia. lia.
  - intros axis speed alpha. rewrite count_poll_rounds. reflexivity.
Qed.

Lemma goto_bytes_eqb (ax sp ax' sp' : byte) (a a' : Q) :
  Byte.eqb ax ax' && Byte.eqb sp sp' = false ->
  bytes_eqb (goto_bytes ax sp a) (goto_bytes ax' sp' a') = false.
Proof.
  intros E. unfold goto_bytes. cbn [bytes_eqb].
  change (Byte.eqb x50 x50) with true. change (Byte.eqb x04 x04) with true.
  cbn [andb].
  destruct (Byte.eqb ax ax'); [|reflexivity].
  destruct (Byte.eqb sp sp'); [discriminate E | reflexivity].
Qed.

Lemma count_goto_pair (ax sp : byte) (a : Q) (ax1 sp1 ax2 sp2 : byte)
    (a1 a2 : Q) :
  count_frame (goto_bytes ax sp a) [goto_bytes ax1 sp1 a1; goto_bytes ax2 sp2 a2]
  = ((if bytes_eqb (goto_bytes ax sp a) (goto_bytes ax1 sp1 a1) then 1 else 0)
     + (if bytes_eqb (goto_bytes ax sp a) (goto_bytes ax2 sp2 a2) then 1 else 0))%nat.
Proof.
  unfold count_frame. cbn [filter].
  destruct (bytes_eqb _ (goto_bytes ax1 sp1 a1)),
           (bytes_eqb _ (goto_bytes ax2 sp2 a2)); reflexivity.
Qed.

(** C5 (amended): on a mount whose status replies carry at least two
    bytes and report "stopped" (first byte 255) again and again on both
    axes, a
    GOTO that is never aborted returns, once the step budget covers the
    polling rounds.  It has then gone through the fast phase, the slow
    phase and the positioned end: the line has carried the two fast
    frames, the status requests of the fast loop, the two slow frames
    and the status requests of the slow loop, in this order; each of
    the four GOTO frames occurs exactly once; and in each phase each
    axis has been asked with its own status frame exactly until its
    first "stopped" reply ([a + 1] requests when [a] replies say
    "moving" first). *)
Theorem move_converges (t : @telescope mount) (mot1 mot2 : Q) :
  idle t ->
  (forall i, 2 <= List.length (ra_script (ser t) i))%nat ->
  (forall i, 2 <= List.length (dec_script (ser t) i))%nat ->
  (forall i0, exists i, (i0 <= i)%nat /\ stoppedb (ra_script (ser t) i) = true) ->
  (forall i0, exists i, (i0 <= i)%nat /\ stoppedb (dec_script (ser t) i) = true) ->
  exists a1 d1 a2 d2,
    first_stop (ra_script (ser t)) (ra_polls (ser t)) a1 /\
    first_stop (dec_script (ser t)) (dec_polls (ser t)) d1 /\
    first_stop (ra_script (ser t)) (ra_polls (ser t) + S a1) a2 /\
    first_stop (dec_script (ser t)) (dec_polls (ser t) + S d1) d2 /\
    forall budget,
      (Nat.max (Nat.max a1 d1) (Nat.max a2 d2) < budget)%nat ->
      exists t' sent,
        __move budget mot1 mot2 (fun _ => false) t = (Done tt, t') /\
        motion_status t' = POSITIONED /\ GOTO_RUNNING t' = false /\
        idle t' /\
        map fst (wire t') = (map fst (wire t) ++ sent)%list /\
        sent = ([goto_bytes x11 x02 mot2; goto_bytes x10 x02 mot1]
                ++ poll_frames a1 d1
                ++ [goto_bytes x11 x17 mot2; goto_bytes x10 x17 mot1]
                ++ poll_frames a2 d2)%list /\
        count_frame (goto_bytes x11 x02 mot2) sent = 1%nat /\
        count_frame (goto_bytes x10 x02 mot1) sent = 1%nat /\
        count_frame (goto_bytes x11 x17 mot2) sent = 1%nat /\
        count_frame (goto_bytes x10 x17 mot1) sent = 1%nat /\
        count_frame (frame_bytes RA_GOTO_RUN) (poll_frames a1 d1) = S a1 /\
        count_frame (frame_bytes DEC_GOTO_RUN) (poll_frames a1 d1) = S d1 /\
        count_frame (frame_bytes RA_GOTO_RUN) (poll_frames a2 d2) = S a2 /\
        count_frame (frame_bytes DEC_GOTO_RUN) (poll_frames a2 d2) = S d2.
Proof.
  intros I La Ld Ea Ed.
  destruct (exists_first_stop _ _ (Ea (ra_polls (ser t)))) as (a1 & Fa1).
  destruct (exists_first_stop _ _ (Ed (dec_polls (ser t)))) as (d1 & Fd1).
  destruct (exists_first_stop _ _ (Ea (ra_polls (ser t) + S a1)%nat))
    as (a2 & Fa2).
  destruct (exists_first_stop _ _ (Ed (dec_polls (ser t) + S d1)%nat))
    as (d2 & Fd2).
  exists a1, d1, a2, d2. repeat (split; [assumption|]).
  intros budget Hb.
  destruct (GOTO_MOT_bytes mot2 true) as [_ (c2f & G2f & H2f)].
  destruct (GOTO_MOT_bytes mot2 false) as [_ (c2s & G2s & H2s)].
  destruct (GOTO_MOT_bytes mot1 true) as [(c1f & G1f & H1f) _].
  destruct (GOTO_MOT_bytes mot1 false) as [(c1s & G1s & H1s) _].
  unfold __move, log_info, log_data, _change_motion_status.
  rewrite !bind_modify.
  rewrite G2f, G2s, G1f, G1s, !bind_lift_Ok.
  match goal with |- exists _ _, bind _ _ ?t0 = _ /\ _ => set (s0 := t0) end.
  assert (A0 : advanced t s0 0 0 []) by (apply advanced_refl in I; exact I).
  (* fast frames *)
  destruct (talk_goto s0 c2f _ _ _ (proj1 A0) H2f) as (x1 & s1 & E1 & A1).
  rewrite (bind_Done _ _ _ _ _ E1), bind_modify.
  apply (advanced_set_log _ _ _ _ _ (log s1 ++ [InfoData x1])) in A1.
  match goal with |- exists _ _, bind _ _ ?t0 = _ /\ _ => set (s1' := t0) in * end.
  destruct (talk_goto s1' c1f _ _ _ (proj1 A1) H1f) as (x2 & s2 & E2 & A2).
  rewrite (bind_Done _ _ _ _ _ E2), bind_modify.
  apply (advanced_set_log _ _ _ _ _ (log s2 ++ [InfoData x2])) in A2.
  match goal with |- exists _ _, bind _ _ ?t0 = _ /\ _ => set (s2' := t0) in * end.
  pose proof (advanced_trans _ _ _ _ _ _ _ _ _
                (advanced_trans _ _ _ _ _ _ _ _ _ A0 A1) A2) as B2.
  cbn [Nat.add app] in B2.
  pose proof B2 as (I2 & Sa2 & Sd2 & So2 & Ra2 & Rd2 & W2).
  (* fast loop *)
  destruct (poll_loop a1 d1 (S (Nat.max a1 d1)) 0 budget 0 s2') as (k1 & s3 & E3 & A3);
    try lia; try exact I2.
  { intros i. rewrite Sa2. apply La. }
  { intros i. rewrite Sd2. apply Ld. }
  { intros _. rewrite Sa2, Ra2, Nat.add_0_r, Nat.sub_0_r. exact Fa1. }
  { intros _. rewrite Sd2, Rd2, Nat.add_0_r, Nat.sub_0_r. exact Fd1. }
  change (a1 <? 0)%nat with false in E3. change (d1 <? 0)%nat with false in E3.
  rewrite (bind_Done _ _ _ _ _ E3).
  fold (poll_frames a1 d1) in A3. rewrite !Nat.sub_0_r in A3.
  pose proof (advanced_trans _ _ _ _ _ _ _ _ _ B2 A3) as B3.
  cbn [Nat.add] in B3.
  (* slow frames *)
  destruct (talk_goto s3 c2s _ _ _ (proj1 A3) H2s) as (x4 & s4 & E4 & A4).
  rewrite (bind_Done _ _ _ _ _ E4), bind_modify.
  apply (advanced_set_log _ _ _ _ _ (log s4 ++ [InfoData x4])) in A4.
  match goal with |- exists _ _, bind _ _ ?t0 = _ /\ _ => set (s4' := t0) in * end.
  destruct (talk_goto s4' c1s _ _ _ (proj1 A4) H1s) as (x5 & s5 & E5 & A5).
  rewrite (bind_Done _ _ _ _ _ E5), bind_modify.
  apply (advanced_set_log _ _ _ _ _ (log s5 ++ [InfoData x5])) in A5.
  match goal with |- exists _ _, bind _ _ ?t0 = _ /\ _ => set (s5' := t0) in * end.
  pose proof (advanced_trans _ _ _ _ _ _ _ _ _
                (advanced_trans _ _ _ _ _ _ _ _ _ B3 A4) A5) as B5.
  rewrite !Nat.add_0_r in B5.
  pose proof B5 as (I5 & Sa5 & Sd5 & So5 & Ra5 & Rd5 & W5).
  (* slow loop *)
  destruct (poll_loop a2 d2 (S (Nat.max a2 d2)) 0 budget k1 s5') as (k2 & s6 & E6 & A6);
    try lia; try exact I5.
  { intros i. rewrite Sa5. apply La. }
  { intros i. rewrite Sd5. apply Ld. }
  { intros _. rewrite Sa5, Ra5, Nat.sub_0_r. exact Fa2. }
  { intros _. rewrite Sd5, Rd5, Nat.sub_0_r. exact Fd2. }
  change (a2 <? 0)%nat with false in E6. change (d2 <? 0)%nat with false in E6.
  rewrite (bind_Done _ _ _ _ _ E6).
  fold (poll_frames a2 d2) in A6.
  pose proof (advanced_trans _ _ _ _ _ _ _ _ _ B5 A6) as B6.
  destruct B6 as (I6 & _ & _ & _ & _ & _ & W6).
  rewrite !bind_modify.
  eexists.
  exists ([goto_bytes x11 x02 mot2; goto_bytes x10 x02 mot1]
          ++ poll_frames a1 d1
          ++ [goto_bytes x11 x17 mot2; goto_bytes x10 x17 mot1]
          ++ poll_frames a2 d2)%list.
  split; [reflexivity|].
  split; [reflexivity|]. split; [reflexivity|].
  split; [exact I6|].
  split.
  { cbn [wire set_log set_motion_status set_GOTO_RUNNING].
    rewrite W6. rewrite <- !app_assoc. reflexivity. }
  split; [reflexivity|].
  destruct (count_poll_frames a1 d1) as (P1 & P2 & P3).
  destruct (count_poll_frames a2 d2) as (Q1 & Q2 & Q3).
  rewrite !count_frame_app, !P3, !Q3, !count_goto_pair, !bytes_eqb_refl.
  rewrite !goto_bytes_eqb by reflexivity.
  repeat split; try reflexivity; assumption.
Qed.

End Goto.

(** * Runs on the simulated mount *)

Section Simulated.

Local Open Scope Q_scope.

Lemma GET_MOT_checks_reply_length_witness :
  idle (fresh (replying [x80; x00; x00; x23])) /\
  exists t',
    GET_MOT1 (fresh (replying [x80; x00; x00; x23])) = (Done (mot1 t'), t') /\
    mot1 t' == 180.
Proof.
  split; [split; reflexivity|].
  destruct (GET_MOT_checks_reply_length
              (fresh (replying [x80; x00; x00; x23])) (conj eq_refl eq_refl))
    as [(t' & E & _ & _ & Hm & _) _].
  exists t'. split; [exact E|]. rewrite Hm. reflexivity.
Defined.

(** A reply of three bytes, the payload size the specification expects,
    is rejected: the cached 90 degrees are returned although the bytes
    encode 180; a reply of four bytes is decoded and stored. *)
Lemma GET_MOT1_three_bytes_rejected :
  (exists t',
     GET_MOT1 (fresh (replying [x80; x00; x00])) = (Done 90, t') /\
     mot1 t' = 90 /\
     angle_of_bytes x80 x00 x00 == 180 /\
     In (Warning
           "RS232 reading feed incorrect answer in GET_MOT1, use last read answer instead")
        (log t')) /\
  (exists a t',
     GET_MOT1 (fresh (replying [x80; x00; x00; x23])) = (Done a, t') /\
     a == 180 /\ mot1 t' == 180 /\
     ~ mot1 t' == mot1 (fresh (replying [x80; x00; x00; x23]))).
Proof.
  split.
  - eexists. split; [vm_compute; reflexivity|].
    split; [reflexivity|]. split; [reflexivity|].
    right; left; reflexivity.
  - eexists. eexists. split; [vm_compute; reflexivity|].
    split; [reflexivity|]. split; [reflexivity|].
    cbn. intros E. discriminate E.
Qed.

Lemma RS232_release_swallows_witness :
  lock_RS232_comm (fresh (replying [])) = false /\
  exists t',
    RS232_release (fresh (replying [])) = (Done tt, t') /\
    motion_status t' = ERROR.
Proof.
  split; [reflexivity|].
  destruct (RS232_release_swallows (fresh (replying [])) eq_refl)
    as (t' & E & _ & _ & _ & _ & _ & Hs & _).
  exists t'. split; [exact E | exact Hs].
Defined.

(** Removing from an empty queue is not a fault of the call: the block
    returns, with an error logged; and a head that is not the caller's
    ticket is removed without complaint. *)
Lemma RS232_release_empty_queue_returns :
  (exists t',
     RS232_release (fresh (replying [])) = (Done tt, t') /\
     log t' = [Error "SOME RESOURCE ACCESS ERROR OCURRED!"] /\
     event_RS232_comm t' = true) /\
  (exists t',
     RS232_release (set_RS232_QUEUE [7; 3]%Z (fresh (replying [])))
     = (Done tt, t') /\
     RS232_QUEUE t' = [3]%Z /\ log t' = []) /\
  forall e t', RS232_release (fresh (replying [])) <> (Fault e, t').
Proof.
  split; [eexists; split; [reflexivity|]; split; reflexivity|].
  split; [eexists; split; [reflexivity|]; split; reflexivity|].
  intros e t' E. discriminate E.
Qed.

Lemma tracking_submits_rate_frames_witness :
  idle (fresh (replying [x23])) /\
  (Z.abs 15 * 4 < 65536)%Z /\ (Z.abs (-15) * 4 < 65536)%Z /\
  exists t',
    tracking (PyInt 15) (PyInt (-15)) (fresh (replying [x23])) = (Done tt, t') /\
    map fst (wire t')
    = [[x50; x03; x10; x06; x00; x3c; x00; x00];
       [x50; x03; x11; x07; x00; x3c; x00; x00]].
Proof.
  split; [split; reflexivity|]. split; [reflexivity|]. split; [reflexivity|].
  destruct (tracking_submits_rate_frames
              (fresh (replying [x23])) 15%Z (-15)%Z
              (conj eq_refl eq_refl) eq_refl eq_refl)
    as [(t' & E & W & _) _].
  exists t'. split; [exact E | exact W].
Defined.

Lemma tracking_float_rate_raises_witness :
  is_float (PyFloat (3 # 2)) || is_float (PyInt 3) = true /\
  exists t',
    tracking (PyFloat (3 # 2)) (PyInt 3) (fresh (replying [x23]))
    = (Fault TypeError, t') /\
    tracking_rate_mot1 t' = PyFloat (3 # 2) /\
    wire t' = [].
Proof.
  split; [reflexivity|].
  destruct (tracking_float_rate_raises
              (fresh (replying [x23])) (PyFloat (3 # 2)) (PyInt 3))
    as [F _].
  destruct (F eq_refl) as (t' & E & R1 & _ & _ & W & _).
  exists t'. split; [exact E|]. split; [exact R1 | exact W].
Defined.

(** Not every float rate ends in the [TypeError] of [hex]: [int(tmp)]
    runs first and raises [ValueError] for a rate that is not a number,
    for an infinite one, and for a finite one whose fourfold is no
    float any more.  The cached rates are overwritten and nothing is
    sent in these cases too. *)
Lemma tracking_float_rate_value_error :
  let t := fresh (replying [x23]) in
  (exists t',
     tracking PyNaN (PyInt 0) t = (Fault ValueError, t') /\
     tracking_rate_mot1 t' = PyNaN /\ wire t' = []) /\
  (exists t',
     tracking (PyInt 3) (PyInf true) t = (Fault ValueError, t') /\
     tracking_rate_mot2 t' = PyInf true /\ wire t' = []) /\
  (exists t',
     tracking (PyFloat (inject_Z (2 ^ 1023))) (PyInt 0) t
     = (Fault ValueError, t') /\
     wire t' = []) /\
  (inject_Z (2 ^ 1023) <= float_max).
Proof.
  intros t.
  split; [eexists; split; [vm_compute; reflexivity | split; reflexivity]|].
  split; [eexists; split; [vm_compute; reflexivity | split; reflexivity]|].
  split; [eexists; split; [vm_compute; reflexivity | reflexivity]|].
  apply Qle_bool_iff. vm_compute. reflexivity.
Qed.

(** C3 (the code at the failing input): a GOTO to (90, 90) on a mount
    that never reports an axis stopped, with the abort flag raised after
    the first polling round of the fast phase.  [__move] leaves the
    fast loop and then submits both slow-phase frames (opcode x17), makes
    no stop-frame transaction (x4d), and ends as a completed slew:
    status [POSITIONED], [GOTO_RUNNING] false.  The stop frame is only
    written by [stop_motion], once, which then fails with a
    [TypeError] at its call of [MOTION_MOT1]. *)
Theorem move_abort_in_fast_phase_goes_on :
  let t := fresh (replying [x00; x00]) in
  let abort_event := fun k : nat => (1 <=? k)%nat in
  (exists t',
     __move 5 90 90 abort_event t = (Done tt, t') /\
     map fst (wire t')
     = [[x50; x04; x11; x02; x40; x00; x00; x00];
        [x50; x04; x10; x02; x40; x00; x00; x00];
        frame_bytes RA_GOTO_RUN;
        frame_bytes DEC_GOTO_RUN;
        [x50; x04; x11; x17; x40; x00; x00; x00];
        [x50; x04; x10; x17; x40; x00; x00; x00]] /\
     ~ In (frame_bytes GOTO_STOP) (map fst (wire t')) /\
     motion_status t' = POSITIONED /\ GOTO_RUNNING t' = false /\
     GOTO_IN_STOP t' = false) /\
  (exists t',
     stop_motion t = (Fault TypeError, t') /\
     map fst (wire t') = [frame_bytes GOTO_STOP] /\
     motion_status t' = ABORTING).
Proof.
  intros t abort_event. split.
  - eexists. split; [vm_compute; reflexivity|].
    split; [vm_compute; reflexivity|].
    split.
    + vm_compute. intros Hin.
      repeat (destruct Hin as [Hin | Hin]; [discriminate Hin|]).
      exact Hin.
    + repeat split; reflexivity.
  - eexists. split; [vm_compute; reflexivity|].
    split; reflexivity.
Qed.

Lemma move_converges_witness :
  idle (fresh (replying [xff; x00])) /\
  exists a1 d1 a2 d2 : nat,
    forall budget,
      (Nat.max (Nat.max a1 d1) (Nat.max a2 d2) < budget)%nat ->
      exists t',
        __move budget 90 45 (fun _ => false) (fresh (replying [xff; x00]))
        = (Done tt, t') /\
        motion_status t' = POSITIONED.
Proof.
  split; [split; reflexivity|].
  destruct (move_converges (fresh (replying [xff; x00])) 90 45) 
    as (a1 & d1 & a2 & d2 & _ & _ & _ & _ & Hrun).
  - split; reflexivity.
  - intros i. simpl. lia.
  - intros i. simpl. lia.
  - intros i0. exists i0. split; [lia | reflexivity].
  - intros i0. exists i0. split; [lia | reflexivity].
  - exists a1, d1, a2, d2. intros budget Hb.
    destruct (Hrun budget Hb) as (t' & sent & E & S & _).
    exists t'. split; [exact E | exact S].
Defined.

(** The stopped sentinel alone does not make the run converge.  A
    mount that answers every request with the single byte 255 reports
    "stopped" on both axes each time, and the GOTO ends in the first
    polling round with the [IndexError] of [data[1]]: the two fast
    frames and one status request have been sent, no slow frame, and
    [GOTO_RUNNING] stays true. *)
Lemma move_one_byte_reply_raises :
  let t := fresh (replying [xff]) in
  idle t /\
  (forall i, stoppedb (ra_script (ser t) i) = true) /\
  (forall i, stoppedb (dec_script (ser t) i) = true) /\
  forall budget, (0 < budget)%nat ->
    exists t',
      __move budget 90 45 (fun _ => false) t = (Fault IndexError, t') /\
      map fst (wire t')
      = [[x50; x04; x11; x02; x20; x00; x00; x00];
         [x50; x04; x10; x02; x40; x00; x00; x00];
         frame_bytes RA_GOTO_RUN] /\
      GOTO_RUNNING t' = true /\
      motion_status t' = SLEWING.
Proof.
  intros t.
  split; [split; reflexivity|].
  split; [reflexivity|]. split; [reflexivity|].
  intros [|budget] Hb; [lia|].
  eexists. split; [vm_compute; reflexivity|].
  repeat split; reflexivity.
Qed.

End Simulated.

(** * Concurrent callers: the invariant of the queue *)

Module ThreadsFacts.

Import Threads.
Local Open Scope list_scope.
Local Open Scope Z_scope.

Lemma length_upd {A : Type} (i : nat) (x : A) (l : list A) :
  List.length (upd i x l) = List.length l.
Proof.
  revert i; induction l as [|y l IH]; intros [|i]; simpl; auto.
Qed.

Lemma nth_upd {A : Type} (i j : nat) (x d : A) (l : list A) :
  (i < List.length l)%nat ->
  nth j (upd i x l) d = if (j =? i)%nat then x else nth j l d.
Proof.
  revert i j; induction l as [|y l IH]; intros i j Hi; simpl in Hi; [lia|].
  destruct i as [|i], j as [|j]; simpl; auto.
  apply IH. lia.
Qed.

Lemma init_inv (M : Z) (N : nat) : Inv M N (init N) ghost_init.
Proof.
  assert (T : forall j, thr (init N) j = idle_thread).
  { intros j. unfold thr, init. cbn [pool].
    destruct (Nat.lt_ge_cases j N) as [H | H].
    - apply nth_repeat_lt. exact H.
    - apply nth_overflow. now rewrite repeat_length. }
  constructor; try (intros j; rewrite ?T); try reflexivity.
  - apply repeat_length.
  - constructor.
  - cbn. intuition discriminate.
  - cbn. intuition discriminate.
  - cbn. discriminate.
  - cbn. discriminate.
  - exists None. split; [reflexivity|]. split; [|discriminate].
    intros j _. rewrite T. cbn. split; discriminate.
Qed.

Lemma thr_goto (s : state) (i : nat) (l : label) (id : Z) (q : list Z)
    (lk : option nat) (ev : bool) (ln : list io) (en : list nat) :
  (i < List.length (pool s))%nat ->
  forall j, thr (mkState id q lk ev (goto i l s) ln en) j
            = if (j =? i)%nat then mkThread l (my_id (thr s i)) else thr s j.
Proof. intros Hi j. unfold thr, goto. cbn [pool]. now apply nth_upd. Qed.

Lemma thr_upd (s : state) (i : nat) (x : thread) (id : Z) (q : list Z)
    (lk : option nat) (ev : bool) (ln : list io) (en : list nat) :
  (i < List.length (pool s))%nat ->
  forall j, thr (mkState id q lk ev (upd i x (pool s)) ln en) j
            = if (j =? i)%nat then x else thr s j.
Proof. intros Hi j. unfold thr. cbn [pool]. now apply nth_upd. Qed.

Lemma hd_error_In {A : Type} (l : list A) (x : A) :
  hd_error l = Some x -> In x l.
Proof. destruct l; simpl; [discriminate|]. intros [= ->]. now left. Qed.

(** A step that leaves the queue alone: thread [i] becomes [x];
    identity, lock, event, line and the number of issued tickets may
    change. *)
Lemma frame_inv (M : Z) (N : nat) (s : state) (g : ghost) (i : nat)
    (x : thread) (id' : Z) (lk' : option nat) (ev' : bool) (ln' : list io)
    (iss' : nat) :
  Inv M N s g -> (i < N)%nat ->
  let s' := mkState id' (RS232_QUEUE s) lk' ev' (upd i x (pool s))
                    ln' (enq s) in
  (In i (qown g) -> my_id x = my_id (thr s i)) ->
  inq (pc x) = inq (pc (thr s i)) ->
  (critical (pc x) = true -> hd_error (qown g) = Some i) ->
  iss' = (removed g + List.length (RS232_QUEUE s)
          + match lk' with
            | Some j => if pending (pc (thr s' j)) then 1 else 0
            | None => 0
            end)%nat ->
  id' = Z.of_nat iss' mod M ->
  (forall j, (j < N)%nat -> pc (thr s' j) = App -> my_id (thr s' j) = id') ->
  (forall j, (j < N)%nat -> (holds (pc (thr s' j)) = true <-> lk' = Some j)) ->
  (forall j, lk' = Some j -> (j < N)%nat) ->
  (exists o,
      scan ln' = Some o /\
      (forall j, (j < N)%nat -> (pc (thr s' j) = Read <-> o = Some j)) /\
      (forall j, o = Some j -> (j < N)%nat)) ->
  writers ln'
  = (popped g ++ match hd_error (qown g) with
                 | Some j => if written (pc (thr s' j)) then [j] else []
                 | None => []
                 end)%list ->
  readers ln'
  = (popped g ++ match hd_error (qown g) with
                 | Some j => if has_read (pc (thr s' j)) then [j] else []
                 | None => []
                 end)%list ->
  Inv M N s' (mkGhost (qown g) iss' (removed g) (popped g)).
Proof.
  intros I Hi s' Hmy Hinq Hcrit Hiss Hid Happ Hlock Hholder Hline Hwr Hrd.
  pose proof (inv_size _ _ _ _ I) as Hsz.
  assert (T : forall j, thr s' j = if (j =? i)%nat then x else thr s j)
    by (apply thr_upd; lia).
  assert (Tmy : forall j, In j (qown g) -> my_id (thr s' j) = my_id (thr s j)).
  { intros j Hj. rewrite T. destruct (Nat.eqb_spec j i) as [->|]; auto. }
  assert (Tinq : forall j, inq (pc (thr s' j)) = inq (pc (thr s j))).
  { intros j. rewrite T. destruct (Nat.eqb_spec j i) as [->|]; auto. }
  destruct I.
  constructor; cbn [identity RS232_QUEUE lock event line enq pool
                    qown issued removed popped]; auto.
  - subst s'. cbn [pool]. now rewrite length_upd.
  - change (RS232_QUEUE s') with (RS232_QUEUE s).
    rewrite inv_queue0 at 1. apply map_ext_in. intros j Hj.
    symmetry. now apply Tmy.
  - intros j. rewrite Tinq. apply inv_own0.
  - intros j Hj Hc. rewrite T in Hc.
    destruct (Nat.eqb_spec j i) as [->|]; auto.
Qed.

(** The three clauses about the line, when the line does not change and
    thread [i] stays on the same side of its write and of its read. *)
Lemma line_same (M : Z) (N : nat) (s s' : state) (g : ghost) (i : nat)
    (x : thread) :
  Inv M N s g ->
  (forall j, thr s' j = if (j =? i)%nat then x else thr s j) ->
  written (pc x) = written (pc (thr s i)) ->
  has_read (pc x) = has_read (pc (thr s i)) ->
  (pc x = Read <-> pc (thr s i) = Read) ->
  (exists o,
      scan (line s) = Some o /\
      (forall j, (j < N)%nat -> (pc (thr s' j) = Read <-> o = Some j)) /\
      (forall j, o = Some j -> (j < N)%nat)) /\
  writers (line s)
  = (popped g ++ match hd_error (qown g) with
                 | Some j => if written (pc (thr s' j)) then [j] else []
                 | None => []
                 end)%list /\
  readers (line s)
  = (popped g ++ match hd_error (qown g) with
                 | Some j => if has_read (pc (thr s' j)) then [j] else []
                 | None => []
                 end)%list.
Proof.
  intros I T Hwr Hrd HRead.
  assert (Twr : forall j, written (pc (thr s' j)) = written (pc (thr s j))).
  { intros j. rewrite T. destruct (Nat.eqb_spec j i) as [->|]; auto. }
  assert (Trd : forall j, has_read (pc (thr s' j)) = has_read (pc (thr s j))).
  { intros j. rewrite T. destruct (Nat.eqb_spec j i) as [->|]; auto. }
  destruct I. split; [|split].
  - destruct inv_line0 as (o & Ho & Hr & Hb).
    exists o. split; [exact Ho|]. split; [|exact Hb].
    intros j Hj. rewrite T.
    destruct (Nat.eqb_spec j i) as [->|]; [|auto].
    rewrite HRead. auto.
  - rewrite inv_writers0. f_equal.
    destruct (hd_error (qown g)); [|reflexivity]. now rewrite Twr.
  - rewrite inv_readers0. f_equal.
    destruct (hd_error (qown g)); [|reflexivity]. now rewrite Trd.
Qed.

(** A statement that changes neither the lock nor the counter. *)
Lemma quiet_inv (M : Z) (N : nat) (s : state) (g : ghost) (i : nat)
    (x : thread) (ev' : bool) :
  Inv M N s g -> (i < N)%nat ->
  my_id x = my_id (thr s i) ->
  inq (pc x) = inq (pc (thr s i)) ->
  written (pc x) = written (pc (thr s i)) ->
  has_read (pc x) = has_read (pc (thr s i)) ->
  holds (pc x) = holds (pc (thr s i)) ->
  pending (pc x) = pending (pc (thr s i)) ->
  (pc x = Read <-> pc (thr s i) = Read) ->
  (pc x = App -> pc (thr s i) = App) ->
  (critical (pc x) = true -> hd_error (qown g) = Some i) ->
  Inv M N (mkState (identity s) (RS232_QUEUE s) (lock s) ev'
                   (upd i x (pool s)) (line s) (enq s)) g.
Proof.
  intros I Hi Hmy Hinq Hwr Hrd Hho Hpe HRead HApp Hcrit.
  pose proof (inv_size _ _ _ _ I) as Hsz.
  set (s' := mkState (identity s) (RS232_QUEUE s) (lock s) ev'
                     (upd i x (pool s)) (line s) (enq s)).
  assert (T : forall j, thr s' j = if (j =? i)%nat then x else thr s j)
    by (apply thr_upd; lia).
  destruct (line_same M N s s' g i x I T Hwr Hrd HRead) as (L1 & L2 & L3).
  destruct g as [qo iss rem po].
  apply (frame_inv M N s (mkGhost qo iss rem po)); auto.
  - fold s'. pose proof (inv_issued _ _ _ _ I) as Hiss.
    cbn [issued removed] in Hiss. rewrite Hiss. f_equal.
    destruct (lock s) as [j|]; [|reflexivity].
    rewrite T. destruct (Nat.eqb_spec j i) as [->|]; [now rewrite Hpe | reflexivity].
  - apply (inv_identity _ _ _ _ I).
  - fold s'. intros j Hj. rewrite T.
    destruct (Nat.eqb_spec j i) as [->|]; [|apply (inv_app _ _ _ _ I); auto].
    intros E. rewrite Hmy. apply (inv_app _ _ _ _ I); auto.
  - fold s'. intros j Hj. rewrite T.
    destruct (Nat.eqb_spec j i) as [->|]; [rewrite Hho|];
      apply (inv_lock _ _ _ _ I); auto.
  - exact (inv_holder _ _ _ _ I).
Qed.

(** [lock.acquire()] by thread [i], the lock being free. *)
Lemma acquire_inv (M : Z) (N : nat) (s : state) (g : ghost) (i : nat)
    (x : thread) :
  Inv M N s g -> (i < N)%nat ->
  lock s = None ->
  my_id x = my_id (thr s i) ->
  inq (pc x) = inq (pc (thr s i)) ->
  written (pc x) = written (pc (thr s i)) ->
  has_read (pc x) = has_read (pc (thr s i)) ->
  holds (pc x) = true ->
  pending (pc x) = false ->
  (pc x = Read <-> pc (thr s i) = Read) ->
  pc x <> App ->
  (critical (pc x) = true -> hd_error (qown g) = Some i) ->
  Inv M N (mkState (identity s) (RS232_QUEUE s) (Some i) (event s)
                   (upd i x (pool s)) (line s) (enq s)) g.
Proof.
  intros I Hi Hl Hmy Hinq Hwr Hrd Hho Hpe HRead HApp Hcrit.
  pose proof (inv_size _ _ _ _ I) as Hsz.
  set (s' := mkState (identity s) (RS232_QUEUE s) (Some i) (event s)
                     (upd i x (pool s)) (line s) (enq s)).
  assert (T : forall j, thr s' j = if (j =? i)%nat then x else thr s j)
    by (apply thr_upd; lia).
  destruct (line_same M N s s' g i x I T Hwr Hrd HRead) as (L1 & L2 & L3).
  destruct g as [qo iss rem po].
  apply (frame_inv M N s (mkGhost qo iss rem po)); auto.
  - fold s'. pose proof (inv_issued _ _ _ _ I) as Hiss.
    cbn [issued removed] in Hiss. rewrite Hiss, Hl. f_equal.
    rewrite T, Nat.eqb_refl, Hpe. reflexivity.
  - apply (inv_identity _ _ _ _ I).
  - fold s'. intros j Hj. rewrite T.
    destruct (Nat.eqb_spec j i) as [->|]; [|apply (inv_app _ _ _ _ I); auto].
    intros E. contradiction.
  - fold s'. intros j Hj. rewrite T.
    destruct (Nat.eqb_spec j i) as [->|Hne].
    + rewrite Hho. split; reflexivity.
    + rewrite (inv_lock _ _ _ _ I j Hj), Hl.
      split; [discriminate | intros [= E]; congruence].
  - intros j [= <-]. exact Hi.
Qed.

(** [lock.release()] by thread [i], which holds the lock. *)
Lemma release_inv (M : Z) (N : nat) (s : state) (g : ghost) (i : nat)
    (x : thread) :
  Inv M N s g -> (i < N)%nat ->
  holds (pc (thr s i)) = true ->
  pending (pc (thr s i)) = false ->
  my_id x = my_id (thr s i) ->
  inq (pc x) = inq (pc (thr s i)) ->
  written (pc x) = written (pc (thr s i)) ->
  has_read (pc x) = has_read (pc (thr s i)) ->
  holds (pc x) = false ->
  (pc x = Read <-> pc (thr s i) = Read) ->
  pc x <> App ->
  (critical (pc x) = true -> hd_error (qown g) = Some i) ->
  Inv M N (mkState (identity s) (RS232_QUEUE s) None (event s)
                   (upd i x (pool s)) (line s) (enq s)) g.
Proof.
  intros I Hi Hh Hp Hmy Hinq Hwr Hrd Hho HRead HApp Hcrit.
  pose proof (inv_size _ _ _ _ I) as Hsz.
  pose proof (proj1 (inv_lock _ _ _ _ I i Hi) Hh) as Hl.
  set (s' := mkState (identity s) (RS232_QUEUE s) None (event s)
                     (upd i x (pool s)) (line s) (enq s)).
  assert (T : forall j, thr s' j = if (j =? i)%nat then x else thr s j)
    by (apply thr_upd; lia).
  destruct (line_same M N s s' g i x I T Hwr Hrd HRead) as (L1 & L2 & L3).
  destruct g as [qo iss rem po].
  apply (frame_inv M N s (mkGhost qo iss rem po)); auto.
  - pose proof (inv_issued _ _ _ _ I) as Hiss.
    cbn [issued removed] in Hiss. rewrite Hiss, Hl, Hp. reflexivity.
  - apply (inv_identity _ _ _ _ I).
  - fold s'. intros j Hj. rewrite T.
    destruct (Nat.eqb_spec j i) as [->|]; [|apply (inv_app _ _ _ _ I); auto].
    intros E. contradiction.
  - fold s'. intros j Hj. rewrite T.
    destruct (Nat.eqb_spec j i) as [->|Hne].
    + rewrite Hho. split; discriminate.
    + rewrite (inv_lock _ _ _ _ I j Hj), Hl.
      split; [intros [= E]; congruence | discriminate].
  - discriminate.
Qed.

Lemma list_index_head_iff (x : Z) (l : list Z) :
  list_index x l = Ok O -> hd_error l = Some x.
Proof.
  destruct l as [|y l]; cbn; [discriminate|].
  destruct (Z.eqb_spec y x) as [->|]; [reflexivity|].
  destruct (list_index x l); cbn; discriminate.
Qed.

Lemma list_index_In (x : Z) (l : list Z) :
  In x l -> exists n, list_index x l = Ok n.
Proof.
  induction l as [|y l IH]; intros Hin; [contradiction|].
  cbn. destruct (Z.eqb_spec y x) as [->|Hne]; [now exists O|].
  destruct Hin as [-> | Hin]; [contradiction|].
  destruct (IH Hin) as (n & ->). now exists (S n).
Qed.

Lemma NoDup_map_inj {A B : Type} (f : A -> B) (l : list A) (a b : A) :
  NoDup (map f l) -> In a l -> In b l -> f a = f b -> a = b.
Proof.
  induction l as [|c l IH]; intros Hnd Ha Hb E; [contradiction|].
  cbn in Hnd. inversion Hnd as [|? ? Hnotin Hnd']; subst.
  destruct Ha as [-> | Ha], Hb as [-> | Hb]; auto.
  - exfalso. apply Hnotin. rewrite E. now apply in_map.
  - exfalso. apply Hnotin. rewrite <- E. now apply in_map.
Qed.

Lemma ticket_inj (M : Z) (a b : nat) :
  0 < M -> (Z.of_nat a - Z.of_nat b < M) -> (Z.of_nat b - Z.of_nat a < M) ->
  ticket M a = ticket M b -> a = b.
Proof.
  intros HM H1 H2 E. unfold ticket in E.
  assert (D : (Z.of_nat (S a) - Z.of_nat (S b)) mod M = 0).
  { rewrite Zminus_mod, E, Z.sub_diag. apply Z.mod_0_l. lia. }
  apply Z.mod_divide in D; [|lia].
  destruct D as [k Hk].
  assert (k = 0) by nia. lia.
Qed.

Lemma NoDup_tickets (M : Z) (a k : nat) :
  0 < M -> Z.of_nat k <= M -> NoDup (map (ticket M) (seq a k)).
Proof.
  intros HM Hk.
  assert (G : forall k a b, Z.of_nat (a + k - b) < M -> (b <= a)%nat ->
              ~ In (ticket M b) (map (ticket M) (seq (S a) k))).
  { clear. intros k a b Hw Hb Hin. apply in_map_iff in Hin as (c & E & Hc).
    apply in_seq in Hc.
    assert (0 < M) by lia.
    apply ticket_inj in E; lia. }
  revert a. induction k as [|k IH]; intros a; cbn [seq map]; constructor.
  - apply (G k a a); lia.
  - apply IH. lia.
Qed.

Lemma qown_length (M : Z) (N : nat) (s : state) (g : ghost) :
  Inv M N s g -> (List.length (qown g) <= N)%nat.
Proof.
  intros I.
  rewrite <- (length_seq N 0).
  apply NoDup_incl_length; [apply (inv_nodup _ _ _ _ I)|].
  intros j Hj. apply (inv_own _ _ _ _ I) in Hj as [Hj _].
  apply in_seq. lia.
Qed.

Lemma queue_length (M : Z) (N : nat) (s : state) (g : ghost) :
  Inv M N s g -> List.length (RS232_QUEUE s) = List.length (qown g).
Proof. intros I. rewrite (inv_queue _ _ _ _ I). apply length_map. Qed.

Lemma queue_NoDup (M : Z) (N : nat) (s : state) (g : ghost) :
  0 < M -> Z.of_nat N <= M -> Inv M N s g -> NoDup (RS232_QUEUE s).
Proof.
  intros HM HN I. rewrite (inv_tickets _ _ _ _ I).
  apply NoDup_tickets; [exact HM|].
  rewrite (queue_length _ _ _ _ I).
  pose proof (qown_length _ _ _ _ I). lia.
Qed.

(** The thread whose ticket is found at index 0 owns the head. *)
Lemma turn_is_head (M : Z) (N : nat) (s : state) (g : ghost) (i : nat) :
  0 < M -> Z.of_nat N <= M -> Inv M N s g ->
  In i (qown g) ->
  list_index (my_id (thr s i)) (RS232_QUEUE s) = Ok O ->
  hd_error (qown g) = Some i.
Proof.
  intros HM HN I Hin Hidx.
  apply list_index_head_iff in Hidx.
  pose proof (queue_NoDup _ _ _ _ HM HN I) as Hnd.
  rewrite (inv_queue _ _ _ _ I) in Hidx, Hnd.
  destruct (qown g) as [|h q] eqn:Hq; [contradiction|].
  cbn in Hidx. injection Hidx as E. cbn. f_equal.
  apply (NoDup_map_inj _ _ _ _ Hnd); [now left | exact Hin | exact E].
Qed.

Lemma scan_app (l : list io) (e : io) :
  scan (l ++ [e]) = scan_io (scan l) e.
Proof. unfold scan. now rewrite fold_left_app. Qed.

Lemma writers_app (l1 l2 : list io) :
  writers (l1 ++ l2) = (writers l1 ++ writers l2)%list.
Proof.
  induction l1 as [|[j|j] l1 IH]; cbn; [reflexivity| |]; now rewrite IH.
Qed.

Lemma readers_app (l1 l2 : list io) :
  readers (l1 ++ l2) = (readers l1 ++ readers l2)%list.
Proof.
  induction l1 as [|[j|j] l1 IH]; cbn; [reflexivity| |]; now rewrite IH.
Qed.

Lemma NoDup_snoc {A : Type} (l : list A) (a : A) :
  NoDup l -> ~ In a l -> NoDup (l ++ [a]).
Proof.
  intros Hnd Hn. apply NoDup_app; [exact Hnd | repeat constructor; auto |].
  intros x Hx [-> | []]. contradiction.
Qed.

Ltac side Hpc :=
  cbn [pc my_id]; rewrite ?Hpc;
  cbn [inq written has_read holds pending critical];
  try reflexivity; try discriminate; try (split; discriminate);
  try congruence.

(** [self.identity = (self.identity + 1) % M] *)
Lemma inc_inv (M : Z) (N : nat) (s : state) (g : ghost) (i : nat) :
  0 < M -> Inv M N s g -> (i < N)%nat -> pc (thr s i) = Inc ->
  Inv M N (mkState ((identity s + 1) mod M) (RS232_QUEUE s) (lock s)
                   (event s) (goto i Id s) (line s) (enq s))
          (mkGhost (qown g) (S (issued g)) (removed g) (popped g)).
Proof.
  intros HM I Hi Hpc.
  pose proof (inv_size _ _ _ _ I) as Hsz.
  assert (Hl : lock s = Some i)
    by (apply (inv_lock _ _ _ _ I); [exact Hi | now rewrite Hpc]).
  unfold goto.
  set (x := mkThread Id (my_id (thr s i))).
  set (s' := mkState ((identity s + 1) mod M) (RS232_QUEUE s) (lock s)
                     (event s) (upd i x (pool s)) (line s) (enq s)).
  assert (T : forall j, thr s' j = if (j =? i)%nat then x else thr s j)
    by (apply thr_upd; lia).
  destruct (line_same M N s s' g i x I T) as (L1 & L2 & L3); try (side Hpc).
  apply (frame_inv M N s g); auto; try (side Hpc).
  - fold s'. rewrite Hl, T, Nat.eqb_refl. cbn [x pc pending].
    rewrite (inv_issued _ _ _ _ I), Hl, Hpc. cbn [pending]. lia.
  - rewrite (inv_identity _ _ _ _ I), Nat2Z.inj_succ.
    unfold Z.succ. now rewrite Z.add_mod_idemp_l by lia.
  - fold s'. intros j Hj. rewrite T.
    destruct (Nat.eqb_spec j i) as [->|Hne]; [discriminate|].
    intros E. exfalso.
    assert (Hh : lock s = Some j)
      by (apply (inv_lock _ _ _ _ I); [exact Hj | now rewrite E]).
    congruence.
  - fold s'. intros j Hj. rewrite T.
    destruct (Nat.eqb_spec j i) as [->|Hne].
    + cbn. rewrite Hl. split; reflexivity.
    + apply (inv_lock _ _ _ _ I); auto.
Qed.

(** [my_id = self.identity] *)
Lemma id_inv (M : Z) (N : nat) (s : state) (g : ghost) (i : nat) :
  Inv M N s g -> (i < N)%nat -> pc (thr s i) = Id ->
  Inv M N (mkState (identity s) (RS232_QUEUE s) (lock s) (event s)
                   (upd i (mkThread App (identity s)) (pool s))
                   (line s) (enq s)) g.
Proof.
  intros I Hi Hpc.
  pose proof (inv_size _ _ _ _ I) as Hsz.
  assert (Hl : lock s = Some i)
    by (apply (inv_lock _ _ _ _ I); [exact Hi | now rewrite Hpc]).
  set (x := mkThread App (identity s)).
  set (s' := mkState (identity s) (RS232_QUEUE s) (lock s)
                     (event s) (upd i x (pool s)) (line s) (enq s)).
  assert (T : forall j, thr s' j = if (j =? i)%nat then x else thr s j)
    by (apply thr_upd; lia).
  destruct (line_same M N s s' g i x I T) as (L1 & L2 & L3); try (side Hpc).
  pose proof (inv_issued _ _ _ _ I) as Hiss.
  pose proof (inv_identity _ _ _ _ I) as Hid.
  pose proof (inv_own _ _ _ _ I i) as Hown.
  destruct g as [qo iss rem po]. cbn [qown issued removed popped] in *.
  apply (frame_inv M N s (mkGhost qo iss rem po)); auto; try (side Hpc).
  - intros Hin. apply Hown in Hin as [_ Hin]. rewrite Hpc in Hin. discriminate.
  - fold s'. rewrite Hl, T, Nat.eqb_refl. cbn [x pc pending].
    rewrite Hiss, Hl, Hpc. reflexivity.
  - fold s'. intros j Hj. rewrite T.
    destruct (Nat.eqb_spec j i) as [->|Hne]; [reflexivity|].
    intros E. exfalso.
    assert (Hh : lock s = Some j)
      by (apply (inv_lock _ _ _ _ I); [exact Hj | now rewrite E]).
    congruence.
  - fold s'. intros j Hj. rewrite T.
    destruct (Nat.eqb_spec j i) as [->|Hne].
    + cbn. rewrite Hl. split; reflexivity.
    + apply (inv_lock _ _ _ _ I); auto.
Qed.

(** Lock, counter and [App] clauses for a statement outside the locked
    blocks that keeps thread [i] outside them. *)
Lemma unlocked_clauses (M : Z) (N : nat) (s s' : state) (g : ghost)
    (i : nat) (x : thread) :
  Inv M N s g -> (i < N)%nat ->
  (forall j, thr s' j = if (j =? i)%nat then x else thr s j) ->
  lock s' = lock s -> identity s' = identity s ->
  holds (pc (thr s i)) = false -> holds (pc x) = false ->
  issued g
  = (removed g + List.length (RS232_QUEUE s)
     + match lock s' with
       | Some j => if pending (pc (thr s' j)) then 1 else 0
       | None => 0
       end)%nat /\
  (forall j, (j < N)%nat -> pc (thr s' j) = App ->
             my_id (thr s' j) = identity s') /\
  (forall j, (j < N)%nat -> (holds (pc (thr s' j)) = true <-> lock s' = Some j)).
Proof.
  intros I Hi T Hl Hid Hh Hx.
  assert (Hni : lock s <> Some i).
  { intros E. apply (inv_lock _ _ _ _ I i Hi) in E. congruence. }
  rewrite Hl, Hid. split; [|split].
  - rewrite (inv_issued _ _ _ _ I). f_equal.
    destruct (lock s) as [j|]; [|reflexivity].
    rewrite T. destruct (Nat.eqb_spec j i) as [->|]; [congruence | reflexivity].
  - intros j Hj. rewrite T.
    destruct (Nat.eqb_spec j i) as [->|]; [|apply (inv_app _ _ _ _ I); auto].
    intros E. rewrite E in Hx. discriminate.
  - intros j Hj. rewrite T.
    destruct (Nat.eqb_spec j i) as [->|]; [|apply (inv_lock _ _ _ _ I); auto].
    rewrite Hx. split; [discriminate | intros E; congruence].
Qed.

(** [self.ser.write(s)] *)
Lemma write_inv (M : Z) (N : nat) (s : state) (g : ghost) (i : nat) :
  Inv M N s g -> (i < N)%nat -> pc (thr s i) = Write ->
  Inv M N (mkState (identity s) (RS232_QUEUE s) (lock s) (event s)
                   (goto i Read s) (line s ++ [W i]) (enq s)) g.
Proof.
  intros I Hi Hpc.
  pose proof (inv_size _ _ _ _ I) as Hsz.
  unfold goto.
  set (x := mkThread Read (my_id (thr s i))).
  set (s' := mkState (identity s) (RS232_QUEUE s) (lock s) (event s)
                     (upd i x (pool s)) (line s ++ [W i]) (enq s)).
  assert (T : forall j, thr s' j = if (j =? i)%nat then x else thr s j)
    by (apply thr_upd; lia).
  assert (Hhd : hd_error (qown g) = Some i)
    by (apply (inv_head _ _ _ _ I); [exact Hi | now rewrite Hpc]).
  destruct (unlocked_clauses M N s s' g i x I Hi T) as (U1 & U2 & U3);
    try (side Hpc).
  pose proof (inv_line _ _ _ _ I) as (o & Ho & Hr & Hb).
  assert (Hnone : o = None).
  { destruct o as [j|]; [|reflexivity]. exfalso.
    pose proof (Hb j eq_refl) as Hj.
    assert (Hjr : pc (thr s j) = Read) by (apply Hr; auto).
    assert (Hjh : hd_error (qown g) = Some j)
      by (apply (inv_head _ _ _ _ I); [exact Hj | now rewrite Hjr]).
    congruence. }
  subst o.
  pose proof (inv_writers _ _ _ _ I) as Hw.
  pose proof (inv_readers _ _ _ _ I) as Hrd.
  rewrite Hhd, Hpc in Hw, Hrd. cbn [written has_read] in Hw, Hrd.
  destruct g as [qo iss rem po]. cbn [qown issued removed popped] in *.
  apply (frame_inv M N s (mkGhost qo iss rem po)); auto; try (side Hpc).
  - apply (inv_identity _ _ _ _ I).
  - apply (inv_holder _ _ _ _ I).
  - exists (Some i). split; [now rewrite scan_app, Ho|].
    split; [|intros j [= <-]; exact Hi].
    fold s'. intros j Hj. rewrite T.
    destruct (Nat.eqb_spec j i) as [->|Hne].
    + split; reflexivity.
    + rewrite (Hr j Hj). split; [discriminate | intros [= E]; congruence].
  - fold s'. cbn [qown popped]. rewrite Hhd, T, Nat.eqb_refl. cbn [x pc written].
    rewrite writers_app, Hw. cbn. now rewrite <- app_assoc.
  - fold s'. cbn [qown popped]. rewrite Hhd, T, Nat.eqb_refl. cbn [x pc has_read].
    rewrite readers_app, Hrd. cbn. now rewrite !app_nil_r.
Qed.

(** [data = self.ser.readline()] *)
Lemma read_inv (M : Z) (N : nat) (s : state) (g : ghost) (i : nat) :
  Inv M N s g -> (i < N)%nat -> pc (thr s i) = Read ->
  Inv M N (mkState (identity s) (RS232_QUEUE s) (lock s) (event s)
                   (goto i Acq2 s) (line s ++ [R i]) (enq s)) g.
Proof.
  intros I Hi Hpc.
  pose proof (inv_size _ _ _ _ I) as Hsz.
  unfold goto.
  set (x := mkThread Acq2 (my_id (thr s i))).
  set (s' := mkState (identity s) (RS232_QUEUE s) (lock s) (event s)
                     (upd i x (pool s)) (line s ++ [R i]) (enq s)).
  assert (T : forall j, thr s' j = if (j =? i)%nat then x else thr s j)
    by (apply thr_upd; lia).
  assert (Hhd : hd_error (qown g) = Some i)
    by (apply (inv_head _ _ _ _ I); [exact Hi | now rewrite Hpc]).
  destruct (unlocked_clauses M N s s' g i x I Hi T) as (U1 & U2 & U3);
    try (side Hpc).
  pose proof (inv_line _ _ _ _ I) as (o & Ho & Hr & Hb).
  assert (Hsome : o = Some i) by (apply Hr; auto).
  subst o.
  pose proof (inv_writers _ _ _ _ I) as Hw.
  pose proof (inv_readers _ _ _ _ I) as Hrd.
  rewrite Hhd, Hpc in Hw, Hrd. cbn [written has_read] in Hw, Hrd.
  destruct g as [qo iss rem po]. cbn [qown issued removed popped] in *.
  apply (frame_inv M N s (mkGhost qo iss rem po)); auto; try (side Hpc).
  - apply (inv_identity _ _ _ _ I).
  - apply (inv_holder _ _ _ _ I).
  - exists None. split; [rewrite scan_app, Ho; cbn; now rewrite Nat.eqb_refl|].
    split; [|discriminate].
    fold s'. intros j Hj. rewrite T.
    destruct (Nat.eqb_spec j i) as [->|Hne].
    + split; discriminate.
    + rewrite (Hr j Hj). split; [intros [= E]; congruence | discriminate].
  - fold s'. cbn [qown popped]. rewrite Hhd, T, Nat.eqb_refl. cbn [x pc written].
    rewrite writers_app, Hw. cbn. now rewrite !app_nil_r.
  - fold s'. cbn [qown popped]. rewrite Hhd, T, Nat.eqb_refl. cbn [x pc has_read].
    rewrite readers_app, Hrd. cbn. now rewrite !app_nil_r.
Qed.

(** [self.RS232_QUEUE.append(my_id)] *)
Lemma app_inv (M : Z) (N : nat) (s : state) (g : ghost) (i : nat) :
  Inv M N s g -> (i < N)%nat -> pc (thr s i) = App ->
  Inv M N (mkState (identity s) (RS232_QUEUE s ++ [my_id (thr s i)])
                   (lock s) (event s) (goto i Rel1 s) (line s)
                   (enq s ++ [i]))
          (mkGhost (qown g ++ [i]) (issued g) (removed g) (popped g)).
Proof.
  intros I Hi Hpc.
  pose proof (inv_size _ _ _ _ I) as Hsz.
  unfold goto.
  set (x := mkThread Rel1 (my_id (thr s i))).
  set (s' := mkState (identity s) (RS232_QUEUE s ++ [my_id (thr s i)])
                     (lock s) (event s) (upd i x (pool s)) (line s)
                     (enq s ++ [i])).
  assert (T : forall j, thr s' j = if (j =? i)%nat then x else thr s j)
    by (apply thr_upd; lia).
  assert (Eq : RS232_QUEUE s' = (RS232_QUEUE s ++ [my_id (thr s i)])%list)
    by reflexivity.
  assert (Ei : identity s' = identity s) by reflexivity.
  assert (El : lock s' = lock s) by reflexivity.
  assert (En : line s' = line s) by reflexivity.
  assert (Ee : enq s' = (enq s ++ [i])%list) by reflexivity.
  assert (Ep : List.length (pool s') = N)
    by (cbn [s' pool]; now rewrite length_upd).
  clearbody s'.
  assert (Hl : lock s = Some i)
    by (apply (inv_lock _ _ _ _ I); [exact Hi | now rewrite Hpc]).
  assert (Hnin : ~ In i (qown g)).
  { intros Hin. apply (inv_own _ _ _ _ I) in Hin as [_ Hin].
    rewrite Hpc in Hin. discriminate. }
  assert (Hmy : my_id (thr s i) = identity s)
    by (apply (inv_app _ _ _ _ I); auto).
  assert (Tq : forall j, In j (qown g) -> thr s' j = thr s j).
  { intros j Hj. rewrite T.
    destruct (Nat.eqb_spec j i) as [->|]; [contradiction|reflexivity]. }
  pose proof (inv_issued _ _ _ _ I) as Hiss.
  rewrite Hl, Hpc in Hiss. cbn [pending] in Hiss.
  constructor; cbn [qown issued removed popped];
    rewrite ?Eq, ?Ei, ?El, ?En, ?Ee.
  - exact Ep.
  - rewrite map_app. cbn [map]. rewrite T, Nat.eqb_refl. cbn [x my_id].
    f_equal. rewrite (inv_queue _ _ _ _ I) at 1.
    apply map_ext_in. intros j Hj. now rewrite Tq.
  - apply NoDup_snoc; [apply (inv_nodup _ _ _ _ I) | exact Hnin].
  - intros j. rewrite in_app_iff, T.
    destruct (Nat.eqb_spec j i) as [->|Hne].
    + cbn. intuition.
    + rewrite (inv_own _ _ _ _ I j). cbn. intuition congruence.
  - rewrite List.length_app. cbn [List.length]. rewrite seq_app, map_app.
    cbn [seq map]. rewrite <- (inv_tickets _ _ _ _ I). f_equal. f_equal.
    rewrite Hmy, (inv_identity _ _ _ _ I). unfold ticket.
    f_equal. lia.
  - rewrite List.length_app, Hl, T, Nat.eqb_refl.
    cbn [x pc pending List.length]. lia.
  - apply (inv_identity _ _ _ _ I).
  - intros j Hj. rewrite T.
    destruct (Nat.eqb_spec j i) as [->|Hne]; [discriminate|].
    intros E. exfalso.
    assert (Hh : lock s = Some j)
      by (apply (inv_lock _ _ _ _ I); [exact Hj | now rewrite E]).
    congruence.
  - intros j Hj. rewrite T.
    destruct (Nat.eqb_spec j i) as [->|Hne].
    + cbn. rewrite Hl. split; reflexivity.
    + apply (inv_lock _ _ _ _ I); auto.
  - apply (inv_holder _ _ _ _ I).
  - intros j Hj. rewrite T.
    destruct (Nat.eqb_spec j i) as [->|Hne]; [discriminate|].
    intros Hc. apply (inv_head _ _ _ _ I j Hj) in Hc.
    destruct (qown g); [discriminate | exact Hc].
  - destruct (inv_line _ _ _ _ I) as (o & Ho & Hr & Hb).
    exists o. split; [exact Ho|]. split; [|exact Hb].
    intros j Hj. rewrite T.
    destruct (Nat.eqb_spec j i) as [->|Hne]; [|auto].
    rewrite <- (Hr i Hi), Hpc. split; discriminate.
  - rewrite (inv_enq _ _ _ _ I). now rewrite app_assoc.
  - rewrite (inv_writers _ _ _ _ I). f_equal.
    destruct (qown g) as [|h q] eqn:Hq; cbn [hd_error app].
    + rewrite T, Nat.eqb_refl. reflexivity.
    + rewrite T. destruct (Nat.eqb_spec h i) as [->|]; [|reflexivity].
      exfalso. apply Hnin. now left.
  - rewrite (inv_readers _ _ _ _ I). f_equal.
    destruct (qown g) as [|h q] eqn:Hq; cbn [hd_error app].
    + rewrite T, Nat.eqb_refl. reflexivity.
    + rewrite T. destruct (Nat.eqb_spec h i) as [->|]; [|reflexivity].
      exfalso. apply Hnin. now left.
Qed.

(** [self.RS232_QUEUE.pop(0)] *)
Lemma pop_inv (M : Z) (N : nat) (s : state) (g : ghost) (i : nat) :
  Inv M N s g -> (i < N)%nat -> pc (thr s i) = Pop ->
  Inv M N (mkState (identity s) (tl (RS232_QUEUE s)) (lock s) (event s)
                   (goto i Rel2 s) (line s) (enq s))
          (mkGhost (tl (qown g)) (issued g) (S (removed g))
                   (popped g ++ [i])).
Proof.
  intros I Hi Hpc.
  pose proof (inv_size _ _ _ _ I) as Hsz.
  unfold goto.
  set (x := mkThread Rel2 (my_id (thr s i))).
  set (s' := mkState (identity s) (tl (RS232_QUEUE s)) (lock s) (event s)
                     (upd i x (pool s)) (line s) (enq s)).
  assert (T : forall j, thr s' j = if (j =? i)%nat then x else thr s j)
    by (apply thr_upd; lia).
  assert (Eq : RS232_QUEUE s' = tl (RS232_QUEUE s)) by reflexivity.
  assert (Ei : identity s' = identity s) by reflexivity.
  assert (El : lock s' = lock s) by reflexivity.
  assert (En : line s' = line s) by reflexivity.
  assert (Ee : enq s' = enq s) by reflexivity.
  assert (Ep : List.length (pool s') = N)
    by (cbn [s' pool]; now rewrite length_upd).
  clearbody s'.
  assert (Hl : lock s = Some i)
    by (apply (inv_lock _ _ _ _ I); [exact Hi | now rewrite Hpc]).
  assert (Hhd : hd_error (qown g) = Some i)
    by (apply (inv_head _ _ _ _ I); [exact Hi | now rewrite Hpc]).
  destruct (qown g) as [|h rest] eqn:Hq; [discriminate|].
  cbn [hd_error] in Hhd. injection Hhd as ->.
  pose proof (inv_nodup _ _ _ _ I) as Hnd. rewrite Hq in Hnd.
  apply NoDup_cons_iff in Hnd as [Hnin Hnd'].
  assert (Tq : forall j, In j rest -> thr s' j = thr s j).
  { intros j Hj. rewrite T.
    destruct (Nat.eqb_spec j i) as [->|]; [contradiction|reflexivity]. }
  assert (Hnc : forall j, In j rest -> critical (pc (thr s j)) = false).
  { intros j Hj. destruct (critical (pc (thr s j))) eqn:E; [|reflexivity].
    exfalso.
    assert (Hjn : (j < N)%nat)
      by (apply (inv_own _ _ _ _ I); rewrite Hq; now right).
    pose proof (inv_head _ _ _ _ I j Hjn E) as Hh. rewrite Hq in Hh.
    injection Hh as ->. contradiction. }
  pose proof (inv_queue _ _ _ _ I) as Hqu. rewrite Hq in Hqu. cbn [map] in Hqu.
  pose proof (inv_tickets _ _ _ _ I) as Htk.
  pose proof (inv_issued _ _ _ _ I) as Hiss.
  rewrite Hl, Hpc in Hiss. cbn [pending] in Hiss.
  pose proof (inv_writers _ _ _ _ I) as Hw.
  pose proof (inv_readers _ _ _ _ I) as Hrd.
  rewrite Hq in Hw, Hrd. cbn [hd_error] in Hw, Hrd.
  rewrite Hpc in Hw, Hrd. cbn [written has_read] in Hw, Hrd.
  rewrite Hqu in Htk, Hiss. cbn [List.length seq map] in Htk, Hiss.
  injection Htk as Htk0 Htk.
  constructor; cbn [qown issued removed popped tl];
    rewrite ?Eq, ?Ei, ?El, ?En, ?Ee, ?Hqu; cbn [tl].
  - exact Ep.
  - apply map_ext_in. intros j Hj. now rewrite Tq.
  - exact Hnd'.
  - intros j. rewrite T.
    destruct (Nat.eqb_spec j i) as [->|Hne].
    + cbn. intuition discriminate.
    + pose proof (inv_own _ _ _ _ I j) as Ho. rewrite Hq in Ho. cbn in Ho.
      intuition congruence.
  - rewrite length_map in *. exact Htk.
  - rewrite Hl, T, Nat.eqb_refl. cbn [x pc pending]. lia.
  - apply (inv_identity _ _ _ _ I).
  - intros j Hj. rewrite T.
    destruct (Nat.eqb_spec j i) as [->|Hne]; [discriminate|].
    apply (inv_app _ _ _ _ I); auto.
  - intros j Hj. rewrite T.
    destruct (Nat.eqb_spec j i) as [->|Hne].
    + cbn. rewrite Hl. split; reflexivity.
    + apply (inv_lock _ _ _ _ I); auto.
  - apply (inv_holder _ _ _ _ I).
  - intros j Hj. rewrite T.
    destruct (Nat.eqb_spec j i) as [->|Hne]; [discriminate|].
    intros Hc. exfalso.
    pose proof (inv_head _ _ _ _ I j Hj Hc) as Hh. rewrite Hq in Hh.
    injection Hh as ->. congruence.
  - destruct (inv_line _ _ _ _ I) as (o & Ho & Hr & Hb).
    exists o. split; [exact Ho|]. split; [|exact Hb].
    intros j Hj. rewrite T.
    destruct (Nat.eqb_spec j i) as [->|Hne]; [|auto].
    rewrite <- (Hr i Hi), Hpc. split; discriminate.
  - rewrite (inv_enq _ _ _ _ I), Hq. now rewrite <- app_assoc.
  - rewrite Hw. rewrite <- app_nil_r at 1. f_equal.
    destruct rest as [|h q]; [reflexivity|]. cbn [hd_error].
    rewrite Tq by (now left).
    assert (Hc := Hnc h (or_introl eq_refl)).
    destruct (pc (thr s h)); cbn in Hc |- *; congruence.
  - rewrite Hrd. rewrite <- app_nil_r at 1. f_equal.
    destruct rest as [|h q]; [reflexivity|]. cbn [hd_error].
    rewrite Tq by (now left).
    assert (Hc := Hnc h (or_introl eq_refl)).
    destruct (pc (thr s h)); cbn in Hc |- *; congruence.
Qed.

Lemma ghost_eta (g : ghost) :
  g = mkGhost (qown g) (issued g) (removed g) (popped g).
Proof. now destruct g. Qed.

(** Every statement keeps the invariant, as long as there are no more
    threads than tickets. *)
Lemma step_inv (M : Z) (N : nat) (s s' : state) (g : ghost) (i : nat) :
  0 < M -> Z.of_nat N <= M ->
  Inv M N s g -> step M i s = Some s' -> Inv M N s' (ghost_step i s g).
Proof.
  intros HM HN I Hs. unfold step in Hs.
  pose proof (inv_size _ _ _ _ I) as Hsz.
  destruct (Nat.ltb_spec i (List.length (pool s))) as [Hi|Hi]; [|discriminate].
  cbn [negb] in Hs. rewrite Hsz in Hi.
  unfold ghost_step.
  destruct (pc (thr s i)) eqn:Hpc.
  - (* Acq1 *)
    destruct (lock s) eqn:Hl; [discriminate|]. injection Hs as <-.
    apply acquire_inv; auto; side Hpc.
  - (* Inc *)
    injection Hs as <-. now apply inc_inv.
  - (* Id *)
    injection Hs as <-. now apply id_inv.
  - (* App *)
    injection Hs as <-. now apply app_inv.
  - (* Rel1 *)
    injection Hs as <-. apply release_inv; auto; side Hpc.
  - (* Clr *)
    injection Hs as <-. apply quiet_inv; auto; side Hpc.
  - (* Test *)
    assert (Hin : In i (qown g))
      by (apply (inv_own _ _ _ _ I); split; [exact Hi | now rewrite Hpc]).
    destruct (list_index (my_id (thr s i)) (RS232_QUEUE s)) as [[|n]|e] eqn:Hx;
      injection Hs as <-.
    + apply quiet_inv; auto; side Hpc.
      intros _. now apply (turn_is_head M N s g i).
    + apply quiet_inv; auto; side Hpc.
    + exfalso.
      destruct (list_index_In (my_id (thr s i)) (RS232_QUEUE s)) as (n & Hn).
      { rewrite (inv_queue _ _ _ _ I).
        apply (in_map (fun j => my_id (thr s j))). exact Hin. }
      congruence.
  - (* Wait *)
    destruct (event s); [|discriminate]. injection Hs as <-.
    apply quiet_inv; auto; side Hpc.
  - (* Clr2 *)
    injection Hs as <-. apply quiet_inv; auto; side Hpc.
  - (* Write *)
    injection Hs as <-. now apply write_inv.
  - (* Read *)
    injection Hs as <-. now apply read_inv.
  - (* Acq2 *)
    destruct (lock s) eqn:Hl; [discriminate|]. injection Hs as <-.
    apply acquire_inv; auto; side Hpc.
    intros _. apply (inv_head _ _ _ _ I); [exact Hi | now rewrite Hpc].
  - (* Pop *)
    injection Hs as <-. now apply pop_inv.
  - (* Rel2 *)
    injection Hs as <-. apply release_inv; auto; side Hpc.
  - (* SetEv *)
    injection Hs as <-. apply quiet_inv; auto; side Hpc.
  - (* Ret *)
    injection Hs as <-. apply quiet_inv; auto; side Hpc.
  - (* Crashed *)
    discriminate.
Qed.

Lemma reachable_inv (M : Z) (N : nat) (s : state) :
  0 < M -> Z.of_nat N <= M ->
  reachable M N s -> exists g, Inv M N s g.
Proof.
  intros HM HN HR. induction HR as [|s s' i HR [g I] Hs].
  - exists ghost_init. apply init_inv.
  - exists (ghost_step i s g). now apply (step_inv M N s s' g i).
Qed.

Lemma run_reachable (M : Z) (N : nat) (sched : list nat) (s s' : state) :
  reachable M N s -> run M sched s = Some s' -> reachable M N s'.
Proof.
  revert s. induction sched as [|i sched IH]; intros s HR Hr; cbn in Hr.
  - now injection Hr as <-.
  - destruct (step M i s) as [s1|] eqn:Hs; [|discriminate].
    apply (IH s1); [|exact Hr]. now apply (reach_step M N s s1 i).
Qed.

(** A line that [scan] accepts is a run of complete write-read pairs,
    followed by the write of the thread that has not read yet. *)
Lemma scan_shape (l : list io) (o : option nat) :
  scan l = Some o ->
  l = flat_map (fun i => [W i; R i]) (readers l)
      ++ map W (match o with Some i => [i] | None => [] end) /\
  writers l = readers l ++ match o with Some i => [i] | None => [] end.
Proof.
  revert o. induction l as [|e l IH] using rev_ind; intros o Hs.
  - cbn in Hs. injection Hs as <-. split; reflexivity.
  - rewrite scan_app in Hs.
    destruct (scan l) as [[j|]|] eqn:Hl; destruct e as [i|i]; cbn in Hs;
      try discriminate.
    + destruct (Nat.eqb_spec i j) as [->|]; [|discriminate].
      injection Hs as <-.
      destruct (IH _ eq_refl) as [E1 E2].
      rewrite readers_app, writers_app, flat_map_app. cbn.
      rewrite !app_nil_r. split; [|exact E2].
      rewrite E1 at 1. cbn. now rewrite <- app_assoc.
    + injection Hs as <-.
      destruct (IH _ eq_refl) as [E1 E2]. cbn in E1, E2.
      rewrite app_nil_r in E1, E2.
      rewrite readers_app, writers_app. cbn. rewrite !app_nil_r.
      split; [now rewrite E1 at 1 | now rewrite E2].
Qed.

(** C4 (amended): with no more concurrent callers than the modulus of
    the ticket counter (1000 in the thread-based driver, 10000 in the
    cooperative one), in every state the callers can reach by any
    interleaving of their statements, the serial line has carried
    complete write-read pairs, one caller after the other, followed by
    at most one write whose read is still to come; and the callers that
    have written, in this order, are the first callers in the order of
    joining the queue.  So no write falls between the write and the
    read of another caller, and transactions are served in ticket
    order. *)
Theorem queue_serializes (M : Z) (N : nat) (s : state) :
  0 < M -> Z.of_nat N <= M -> reachable M N s ->
  exists done tail rest,
    line s = flat_map (fun i => [W i; R i]) done ++ map W tail /\
    (List.length tail <= 1)%nat /\
    enq s = done ++ tail ++ rest.
Proof.
  intros HM HN HR.
  destruct (reachable_inv M N s HM HN HR) as [g I].
  destruct (inv_line _ _ _ _ I) as (o & Ho & Hr & Hb).
  destruct (scan_shape _ _ Ho) as [E1 E2].
  pose proof (inv_writers _ _ _ _ I) as Hw.
  pose proof (inv_enq _ _ _ _ I) as He.
  exists (readers (line s)), (match o with Some i => [i] | None => [] end).
  assert (P : exists rest, enq s = writers (line s) ++ rest).
  { rewrite Hw, He.
    destruct (qown g) as [|h q]; cbn [hd_error].
    - exists []. now rewrite !app_nil_r.
    - destruct (written (pc (thr s h))).
      + exists q. now rewrite <- app_assoc.
      + exists (h :: q). now rewrite app_nil_r. }
  destruct P as [rest P]. exists rest.
  split; [exact E1|]. split; [destruct o; cbn; lia|].
  rewrite P, E2. now rewrite <- app_assoc.
Qed.

Lemma queue_serializes_witness :
  0 < 1000 /\ Z.of_nat 2 <= 1000 /\ reachable 1000 2 demo_state /\
  exists done tail rest,
    line demo_state = flat_map (fun i => [W i; R i]) done ++ map W tail /\
    (List.length tail <= 1)%nat /\
    enq demo_state = done ++ tail ++ rest.
Proof.
  assert (HR : reachable 1000 2 demo_state).
  { apply (run_reachable 1000 2 [0; 0; 0; 0; 0; 0; 0; 0; 1; 1]%nat (init 2));
      [apply reach_init | vm_compute; reflexivity]. }
  split; [lia|]. split; [simpl; lia|]. split; [exact HR|].
  apply (queue_serializes 1000 2 demo_state); [lia | simpl; lia | exact HR].
Defined.

(** With 1001 threads on the modulus 1000 of the thread-based driver,
    the last thread draws the ticket of the first.  After all have
    joined the queue, both find their ticket at index 0: thread 1000
    writes while thread 0 is between its write and its read, and ahead
    of thread 1, which joined before it. *)
Lemma queue_overflow_interleaves :
  exists s,
    reachable 1000 1001 s /\
    line s = [W 0; W 1000] /\
    scan (line s) = None /\
    firstn 3 (enq s) = [0; 1; 2]%nat /\
    ~ (exists done tail rest,
          line s = flat_map (fun i => [W i; R i]) done ++ map W tail /\
          (List.length tail <= 1)%nat /\
          enq s = done ++ tail ++ rest).
Proof.
  destruct (run 1000 (overflow_schedule 1001) (init 1001)) as [s|] eqn:E.
  - exists s.
    assert (L : line s = [W 0; W 1000] /\ firstn 3 (enq s) = [0; 1; 2]%nat).
    { revert E. vm_compute. intros [= <-]. split; reflexivity. }
    destruct L as [L1 L2].
    split; [apply (run_reachable 1000 1001 (overflow_schedule 1001) (init 1001));
            [apply reach_init | exact E]|].
    split; [exact L1|]. split; [now rewrite L1|]. split; [exact L2|].
    clear E L2.
    intros (done & tail & rest & Hl & Ht & _). rewrite L1 in Hl. clear L1.
    destruct done as [|a done]; cbn in Hl.
    + destruct tail as [|b [|c tail]]; cbn in Hl, Ht;
        [discriminate Hl | discriminate Hl | lia].
    + discriminate Hl.
  - exfalso. revert E. vm_compute. discriminate.
Qed.

End ThreadsFacts.

(** * Conversions and coordinates *)

Section Conversions.

Local Open Scope Q_scope.

Lemma fmod_bounds (x m : Q) : 0 < m -> 0 <= Py.fmod x m /\ Py.fmod x m < m.
Proof.
  intros Hm. unfold Py.fmod.
  pose proof (Qfloor_le (x / m)) as Hl.
  pose proof (Qlt_floor (x / m)) as Hu.
  rewrite inject_Z_plus in Hu. change (inject_Z 1) with 1 in Hu.
  assert (Ha : x == m * (x / m)) by (field; lra).
  set (f := inject_Z (Qfloor (x / m))) in *.
  set (y := x / m) in *.
  split; nra.
Qed.

Lemma fmod_unique (x m : Q) (k : Z) :
  0 < m -> 0 <= x - m * inject_Z k -> x - m * inject_Z k < m ->
  Py.fmod x m == x - m * inject_Z k.
Proof.
  intros Hm H0 H1. unfold Py.fmod.
  assert (Hf : Qfloor (x / m) = k).
  { apply Qfloor_unique.
    - apply Qle_shift_div_l; [exact Hm | lra].
    - apply Qlt_shift_div_r; [exact Hm|].
      rewrite inject_Z_plus. change (inject_Z 1) with 1. lra. }
  now rewrite Hf.
Qed.

Lemma fmod_id (x m : Q) : 0 <= x -> x < m -> Py.fmod x m == x.
Proof.
  intros H0 H1.
  rewrite (fmod_unique x m 0); [change (inject_Z 0) with 0; ring | lra | |];
    change (inject_Z 0) with 0; lra.
Qed.

Lemma fmod_shift (x m : Q) (k : Z) :
  0 < m -> Py.fmod (x + m * inject_Z k) m == Py.fmod x m.
Proof.
  intros Hm. destruct (fmod_bounds x m Hm) as [H0 H1].
  unfold Py.fmod in H0, H1 |- *.
  set (f := Qfloor (x / m)) in *.
  fold (Py.fmod (x + m * inject_Z k) m).
  rewrite (fmod_unique _ m (f + k)); rewrite ?inject_Z_plus; [ring | lra | lra | lra].
Qed.

Lemma Qle_bool_cases (x y : Q) :
  (Qle_bool x y = true /\ x <= y) \/ (Qle_bool x y = false /\ y < x).
Proof.
  destruct (Qle_bool x y) eqn:B.
  - left. split; [reflexivity | now apply Qle_bool_iff].
  - right. split; [reflexivity|].
    apply not_true_iff_false in B. rewrite Qle_bool_iff in B. lra.
Qed.

Lemma HourAngle_cases (LST RA : Q) :
  let h := Py.fmod (LST - RA) 24 in
  (h <= 12 /\ HourAngle LST RA == h * 15) \/
  (12 < h /\ HourAngle LST RA == (h - 24) * 15).
Proof.
  intros h. unfold HourAngle. fold h.
  destruct (h ?= 12) eqn:E.
  - apply Qeq_alt in E. left. split; [lra | reflexivity].
  - apply Qlt_alt in E. left. split; [lra | reflexivity].
  - apply Qgt_alt in E. right. split; [lra | ring].
Qed.

Lemma HourAngle_bounds (LST RA : Q) :
  - (180) < HourAngle LST RA /\ HourAngle LST RA <= 180.
Proof.
  destruct (fmod_bounds (LST - RA) 24 ltac:(lra)) as [H0 H1].
  destruct (HourAngle_cases LST RA) as [[Hc E] | [Hc E]];
    cbv zeta in Hc, E; rewrite E; split; lra.
Qed.

(** The hour angle lies in (-180, 180] and differs from
    15 (LST - RA) by a multiple of 360. *)
Theorem HourAngle_range (LST RA : Q) :
  - (180) < HourAngle LST RA /\ HourAngle LST RA <= 180 /\
  exists k : Z, HourAngle LST RA == 15 * (LST - RA) + 360 * inject_Z k.
Proof.
  destruct (fmod_bounds (LST - RA) 24 ltac:(lra)) as [H0 H1].
  destruct (HourAngle_cases LST RA) as [[Hc E] | [Hc E]];
    cbv zeta in Hc, E.
  - split; [rewrite E; lra|]. split; [rewrite E; lra|].
    exists (- Qfloor ((LST - RA) / 24))%Z. rewrite E. unfold Py.fmod.
    rewrite inject_Z_opp. ring.
  - split; [rewrite E; lra|]. split; [rewrite E; lra|].
    exists (- Qfloor ((LST - RA) / 24) - 1)%Z. rewrite E. unfold Py.fmod.
    unfold Z.sub. rewrite inject_Z_plus, !inject_Z_opp.
    change (inject_Z 1) with 1. ring.
Qed.

(** The targets [_move_radec] hands to [__move] (and [GOTO_RADEC] to
    [GOTO_MOT1MOT2]) are never out of range: motor 1 is never sent
    beyond [0, 180], motor 2 stays in [0, 360], the stored right
    ascension in [0, 24].  (The upper ends are included: the remainder
    of a float that is negative and close to zero is the modulus
    itself.) *)
Theorem move_radec_targets_in_range (lst ra dec : Q) :
  (let '(ra', mot1, mot2) := _move_radec_targets lst ra dec in
   0 <= ra' /\ ra' <= 24 /\ 0 <= mot1 /\ mot1 <= 180 /\
   0 <= mot2 /\ mot2 <= 360) /\
  (let '(RA', angle1, angle2) := GOTO_RADEC_targets lst ra dec in
   0 <= RA' /\ RA' <= 24 /\ 0 <= angle1 /\ angle1 <= 180 /\
   0 <= angle2 /\ angle2 <= 360).
Proof.
  assert (G : forall r,
             let tau := HourAngle lst r in
             0 <= (if Qle_bool 0 (Qsign tau) then tau else Py.fmod tau 180) /\
             (if Qle_bool 0 (Qsign tau) then tau else Py.fmod tau 180) <= 180).
  { intros r tau. rewrite Qle_bool_sign.
    destruct (HourAngle_bounds lst r) as (Hl & Hu). fold tau in Hl, Hu.
    destruct (Qle_bool_cases 0 tau) as [[-> Ht] | [-> Ht]]; [lra|].
    destruct (fmod_bounds tau 180 ltac:(lra)). lra. }
  assert (F : forall x m, 0 < m -> 0 <= Py.fmod x m /\ Py.fmod x m <= m).
  { intros x m Hm. destruct (fmod_bounds x m Hm). split; lra. }
  unfold _move_radec_targets, GOTO_RADEC_targets.
  change (AngleDiff lst (Py.fmod ra 24)) with (HourAngle lst (Py.fmod ra 24)).
  split.
  - destruct (F (ra / 15) 24 ltac:(lra)) as [A0 A1].
    destruct (G (Py.fmod (ra / 15) 24)) as [B0 B1].
    split; [exact A0|]. split; [exact A1|].
    split; [exact B0|]. split; [exact B1|].
    apply F. lra.
  - destruct (F ra 24 ltac:(lra)) as [A0 A1].
    destruct (G (Py.fmod ra 24)) as [B0 B1].
    split; [exact A0|]. split; [exact A1|].
    split; [exact B0|]. split; [exact B1|].
    apply F. lra.
Qed.

Lemma Qltb_true (x y : Q) : x < y -> Qltb x y = true.
Proof.
  intros L. unfold Qltb. destruct (Qle_bool_cases y x) as [[_ C] | [-> _]];
    [lra | reflexivity].
Qed.

Lemma Qltb_false (x y : Q) : y <= x -> Qltb x y = false.
Proof.
  intros L. unfold Qltb. destruct (Qle_bool_cases y x) as [[-> _] | [_ C]];
    [reflexivity | lra].
Qed.

Lemma get_radec_coordinates_upper (mot1 mot2 lst : Q) :
  180 <= Py.fmod (mot2 + 90) 360 ->
  get_radec_coordinates mot1 mot2 lst
  = Some (Py.fmod (- mot1 / 15 + lst) 24, 270 - Py.fmod (mot2 + 90) 360).
Proof.
  intros L. unfold get_radec_coordinates.
  destruct (fmod_bounds (mot2 + 90) 360 ltac:(lra)) as [H0 H1].
  assert (B : Qle_bool 180 (Py.fmod (mot2 + 90) 360) = true)
    by now apply Qle_bool_iff.
  rewrite B, (Qltb_true _ _ H1). reflexivity.
Qed.

Lemma get_radec_coordinates_lower (mot1 mot2 lst : Q) :
  Py.fmod (mot2 + 90) 360 < 180 ->
  get_radec_coordinates mot1 mot2 lst
  = Some (Py.fmod ((180 - mot1) / 15 + lst) 24, Py.fmod (mot2 + 90) 360 - 90).
Proof.
  intros L. unfold get_radec_coordinates.
  destruct (fmod_bounds (mot2 + 90) 360 ltac:(lra)) as [H0 H1].
  assert (B : Qle_bool 180 (Py.fmod (mot2 + 90) 360) = false).
  { destruct (Qle_bool_cases 180 (Py.fmod (mot2 + 90) 360)) as [[_ C] | [-> _]];
      [lra | reflexivity]. }
  assert (B0 : Qle_bool 0 (Py.fmod (mot2 + 90) 360) = true)
    by now apply Qle_bool_iff.
  rewrite B, B0, (Qltb_true _ _ L). reflexivity.
Qed.

Lemma get_radec_coordinates_some (mot1 mot2 lst : Q) :
  exists ra dec,
    get_radec_coordinates mot1 mot2 lst = Some (ra, dec) /\
    0 <= ra /\ ra < 24 /\ - (90) <= dec /\ dec <= 90.
Proof.
  destruct (fmod_bounds (mot2 + 90) 360 ltac:(lra)) as [H0 H1].
  destruct (Qlt_le_dec (Py.fmod (mot2 + 90) 360) 180) as [L | L].
  - rewrite (get_radec_coordinates_lower _ _ _ L).
    eexists; eexists; split; [reflexivity|].
    destruct (fmod_bounds ((180 - mot1) / 15 + lst) 24 ltac:(lra)).
    repeat split; lra.
  - rewrite (get_radec_coordinates_upper _ _ _ L).
    eexists; eexists; split; [reflexivity|].
    destruct (fmod_bounds (- mot1 / 15 + lst) 24 ltac:(lra)).
    repeat split; lra.
Qed.

Ltac qconst :=
  unfold Qdiv in *;
  change (/ 15) with (1 # 15) in *; change (/ 24) with (1 # 24) in *;
  change (/ 60) with (1 # 60) in *; change (/ 240) with (1 # 240) in *;
  change (/ 360) with (1 # 360) in *; change (/ 3600) with (1 # 3600) in *.

(** [angleToDecimal] reduces the degrees modulo 360 and adds minutes
    and seconds on top: degrees below zero are not kept.  The tuple
    (-d, m, s) with 0 < d <= 360 gives 360 - d + m/60 + s/3600; the
    result is never negative. *)
Theorem angleToDecimal_negative_degrees (d m s : Q) :
  0 < d -> d <= 360 -> 0 <= m -> m < 60 -> 0 <= s -> s < 60 ->
  angleToDecimal (- d, m, s) == 360 - d + m / 60 + s / 3600 /\
  0 <= angleToDecimal (- d, m, s) /\
  forall a0 a1 a2, 0 <= angleToDecimal (a0, a1, a2).
Proof.
  intros D0 D1 M0 M1 S0 S1.
  assert (E : angleToDecimal (- d, m, s) == 360 - d + m / 60 + s / 3600).
  { unfold angleToDecimal.
    rewrite (fmod_unique (- d) 360 (-1)), (fmod_id m 60), (fmod_id s 60);
      change (inject_Z (-1)) with (- (1)); try lra.
    field. }
  split; [exact E|]. split; [rewrite E; qconst; lra|].
  intros a0 a1 a2. unfold angleToDecimal.
  destruct (fmod_bounds a0 360 ltac:(lra)), (fmod_bounds a1 60 ltac:(lra)),
    (fmod_bounds a2 60 ltac:(lra)).
  qconst. lra.
Qed.

(** [hourToAngle] is 15 times [timeToHour]; both reduce each component
    modulo its base by itself, so that a component out of range wraps
    around and is not carried over: 60 minutes count as 0 minutes. *)
Theorem hourToAngle_wraps (h m s : Q) (a b c : Z) :
  hourToAngle h m s == 15 * timeToHour h m s /\
  timeToHour (h + 24 * inject_Z a) (m + 60 * inject_Z b) (s + 60 * inject_Z c)
  == timeToHour h m s /\
  hourToAngle (h + 24 * inject_Z a) (m + 60 * inject_Z b) (s + 60 * inject_Z c)
  == hourToAngle h m s /\
  hourToAngle h 60 0 == hourToAngle h 0 0.
Proof.
  assert (T : forall h m s a b c,
             timeToHour (h + 24 * inject_Z a) (m + 60 * inject_Z b)
                        (s + 60 * inject_Z c)
             == timeToHour h m s).
  { intros. unfold timeToHour. rewrite !fmod_shift by lra. reflexivity. }
  assert (E : forall h m s, hourToAngle h m s == 15 * timeToHour h m s).
  { intros. unfold hourToAngle, timeToHour. field. }
  split; [apply E|]. split; [apply T|]. split; [now rewrite !E, T|].
  rewrite !E. unfold timeToHour.
  rewrite (fmod_unique 60 60 1), (fmod_id 0 60);
    change (inject_Z 1) with 1; lra.
Qed.

Lemma angleToDecimal_negative_degrees_witness :
  0 < 33 /\ 33 <= 360 /\ 0 <= 56 /\ 56 < 60 /\ 0 <= 4 /\ 4 < 60 /\
  angleToDecimal (- (33), 56, 4) == 360 - 33 + 56 / 60 + 4 / 3600.
Proof.
  repeat (split; [lra|]).
  apply (angleToDecimal_negative_degrees 33 56 4); lra.
Defined.

End Conversions.
(** * Hand-control motion, tracking stop, set-up, parking *)

Section CommandFacts.

Context {port : Type} `{SerialPort port}.

Lemma In_Z_range (lo z : Z) (n : nat) :
  lo <= z < lo + Z.of_nat n ->
  In z (map (fun i => lo + Z.of_nat i) (seq 0 n)).
Proof.
  intros R. apply in_map_iff. exists (Z.to_nat (z - lo)).
  split; [lia|]. apply in_seq. lia.
Qed.

Lemma idle_set_log (t : @telescope port) (l : list log_record) :
  idle t -> idle (set_log l t).
Proof. intros I. exact I. Qed.

Lemma motion_command_bytes (level : Z) :
  -9 <= level <= 9 ->
  fromhex (MOTION_MOT1_s ++ (if 0 <=? Z.sgn level then "24" else "25")
           ++ ("0" ++ str (Z.abs level)) ++ MOTION_MOT1_e)
  = Ok (motion_bytes x10 level) /\
  fromhex (MOTION_MOT2_s ++ (if 0 <=? Z.sgn level then "24" else "25")
           ++ ("0" ++ str (Z.abs level)) ++ MOTION_MOT2_e)
  = Ok (motion_bytes x11 level).
Proof.
  intros R.
  assert (F : Forall
                (fun level =>
                   fromhex (MOTION_MOT1_s
                            ++ (if 0 <=? Z.sgn level then "24" else "25")
                            ++ ("0" ++ str (Z.abs level)) ++ MOTION_MOT1_e)
                   = Ok (motion_bytes x10 level) /\
                   fromhex (MOTION_MOT2_s
                            ++ (if 0 <=? Z.sgn level then "24" else "25")
                            ++ ("0" ++ str (Z.abs level)) ++ MOTION_MOT2_e)
                   = Ok (motion_bytes x11 level))
                (map (fun i => -9 + Z.of_nat i) (seq 0 19))).
  { repeat (constructor; [vm_compute; split; reflexivity|]). constructor. }
  exact (proj1 (Forall_forall _ _) F level (In_Z_range (-9) level 19 ltac:(lia))).
Qed.

Lemma motion_command_odd (a : Z) (negative : bool) :
  10 <= a <= 99 ->
  fromhex (MOTION_MOT1_s ++ (if negative then "25" else "24")
           ++ ("0" ++ str a) ++ MOTION_MOT1_e)
  = Raise ValueError /\
  fromhex (MOTION_MOT2_s ++ (if negative then "25" else "24")
           ++ ("0" ++ str a) ++ MOTION_MOT2_e)
  = Raise ValueError.
Proof.
  intros R.
  assert (F : Forall
                (fun a =>
                   forall negative : bool,
                     fromhex (MOTION_MOT1_s ++ (if negative then "25" else "24")
                              ++ ("0" ++ str a) ++ MOTION_MOT1_e)
                     = Raise ValueError /\
                     fromhex (MOTION_MOT2_s ++ (if negative then "25" else "24")
                              ++ ("0" ++ str a) ++ MOTION_MOT2_e)
                     = Raise ValueError)
                (map (fun i => 10 + Z.of_nat i) (seq 0 90))).
  { repeat (constructor; [intros []; vm_compute; split; reflexivity|]).
    constructor. }
  exact (proj1 (Forall_forall _ _) F a (In_Z_range 10 a 90 ltac:(lia)) negative).
Qed.

(** For the levels -9 .. 9 of the docstring, [MOTION_MOT1] and
    [MOTION_MOT2] send one frame of eight bytes: [50 02], the axis, 24
    for a level that is not negative and 25 for a negative one, the
    absolute level, three zero bytes.  The default level is 0. *)
Theorem MOTION_MOT_frames (t : telescope) (level : Z) :
  idle t -> -9 <= level <= 9 ->
  (exists t',
     MOTION_MOT1 (Some level) t = (Done tt, t') /\ idle t' /\
     map fst (wire t') = (map fst (wire t) ++ [motion_bytes x10 level])%list /\
     motion_status t' = motion_status t) /\
  (exists t',
     MOTION_MOT2 (Some level) t = (Done tt, t') /\ idle t' /\
     map fst (wire t') = (map fst (wire t) ++ [motion_bytes x11 level])%list /\
     motion_status t' = motion_status t) /\
  MOTION_MOT1 None t = MOTION_MOT1 (Some 0) t /\
  MOTION_MOT2 None t = MOTION_MOT2 (Some 0) t.
Proof.
  intros I R. destruct (motion_command_bytes level R) as [E1 E2].
  split; [|split; [|split; reflexivity]].
  - destruct (ser_readline (ser_write (motion_bytes x10 level) (ser t)))
      as [data p] eqn:Hp.
    unfold MOTION_MOT1.
    rewrite (bind_Done _ _ _ _ _ (RS232_Talk_idle _ _ data p t I E1 Hp)).
    eexists. split; [reflexivity|]. split; [split; reflexivity|].
    split; [|reflexivity].
    cbn [wire set_log after_talk]. rewrite map_app. reflexivity.
  - destruct (ser_readline (ser_write (motion_bytes x11 level) (ser t)))
      as [data p] eqn:Hp.
    unfold MOTION_MOT2.
    rewrite (bind_Done _ _ _ _ _ (RS232_Talk_idle _ _ data p t I E2 Hp)).
    eexists. split; [reflexivity|]. split; [split; reflexivity|].
    split; [|reflexivity].
    cbn [wire set_log after_talk]. rewrite map_app. reflexivity.
Qed.

(** A level of two digits gives a command of seventeen hexadecimal
    digits, which [bytes.fromhex] refuses: the call raises [ValueError]
    before it takes a ticket, and nothing is sent. *)
Theorem MOTION_MOT_two_digit_level (t : telescope) (level : Z) :
  10 <= Z.abs level <= 99 ->
  MOTION_MOT1 (Some level) t = (Fault ValueError, t) /\
  MOTION_MOT2 (Some level) t = (Fault ValueError, t).
Proof.
  intros R.
  assert (S : (if 0 <=? Z.sgn level then "24" else "25")
              = (if negb (0 <=? level) then "25" else "24")).
  { destruct level; reflexivity. }
  destruct (motion_command_odd (Z.abs level) (negb (0 <=? level)) R) as [E1 E2].
  unfold MOTION_MOT1, MOTION_MOT2, RS232_Talk, bind.
  rewrite S, E1, E2. split; reflexivity.
Qed.

Lemma bind_modify_any {A : Type} (f : @telescope port -> @telescope port)
    (k : unit -> @M port A) (t : telescope) :
  bind (modify f) k t = k tt (f t).
Proof. reflexivity. Qed.

(** From an idle driver [stop_tracking] stores the rate 0.0 for both
    axes and sends the two frames [tracking] builds for the integer
    rates (0, 0), motor 1 first; the motion status is left to the
    final call of the inherited [change_motion_status]. *)
Theorem stop_tracking_frames (change_motion_status : MotionStatus -> @M port unit)
    (t : telescope) :
  idle t ->
  exists t1,
    stop_tracking change_motion_status t = change_motion_status IDLE t1 /\
    idle t1 /\
    map fst (wire t1)
    = (map fst (wire t) ++ [tracking_bytes x10 0; tracking_bytes x11 0])%list /\
    tracking_rate_mot1 t1 = PyFloat 0 /\ tracking_rate_mot2 t1 = PyFloat 0 /\
    motion_status t1 = motion_status t /\
    tracking_frames (PyInt 0) (PyInt 0)
    = Ok (POS_MOT1_TRACKING ++ TRACKING_STOP ++ TRACKING_END_SEQUENCE,
          POS_MOT2_TRACKING ++ TRACKING_STOP ++ TRACKING_END_SEQUENCE).
Proof.
  intros I. unfold stop_tracking. rewrite !bind_modify_any.
  match goal with |- exists _, bind _ _ ?t0 = _ /\ _ => set (t0' := t0) end.
  assert (I0 : idle t0') by exact I.
  destruct (ser_readline (ser_write (tracking_bytes x10 0) (ser t0')))
    as [d1 p1] eqn:Hp1.
  rewrite (bind_Done _ _ _ _ _
             (RS232_Talk_idle (POS_MOT1_TRACKING ++ TRACKING_STOP ++ TRACKING_END_SEQUENCE)
                (tracking_bytes x10 0) d1 p1 t0' I0 eq_refl Hp1)).
  unfold log_data at 1. rewrite bind_modify_any.
  match goal with |- exists _, bind _ _ ?t0 = _ /\ _ => set (t1' := t0) end.
  assert (I1 : idle t1') by (split; reflexivity).
  destruct (ser_readline (ser_write (tracking_bytes x11 0) (ser t1')))
    as [d2 p2] eqn:Hp2.
  rewrite (bind_Done _ _ _ _ _
             (RS232_Talk_idle (POS_MOT2_TRACKING ++ TRACKING_STOP ++ TRACKING_END_SEQUENCE)
                (tracking_bytes x11 0) d2 p2 t1' I1 eq_refl Hp2)).
  unfold log_data at 1. rewrite bind_modify_any.
  eexists. split; [reflexivity|].
  split; [split; reflexivity|].
  split.
  { cbn [wire set_log after_talk]. unfold t1'. cbn [wire set_log after_talk].
    rewrite !map_app, <- app_assoc. reflexivity. }
  repeat split; reflexivity.
Qed.

(** ** The command files *)

Lemma talk_each_sends (file : list (string * string)) :
  Forall (fun kv => exists s, fromhex (snd kv) = Ok s) file ->
  forall t : telescope,
    idle t ->
    exists t',
      talk_each file t = (Done tt, t') /\ idle t' /\
      map fst (wire t')
      = (map fst (wire t) ++ map (fun kv => frame_bytes (snd kv)) file)%list /\
      motion_status t' = motion_status t.
Proof.
  induction 1 as [|[key value] file (s & Es) _ IH]; intros t I.
  - exists t. split; [reflexivity|]. split; [exact I|].
    split; [now rewrite app_nil_r | reflexivity].
  - destruct (ser_readline (ser_write s (ser t))) as [data p] eqn:Hp.
    cbn [talk_each snd] in *.
    rewrite (bind_Done _ _ _ _ _ (RS232_Talk_idle value s data p t I Es Hp)).
    destruct (IH (after_talk s data p t) (idle_after_talk s data p t))
      as (t' & E & I' & W & S).
    exists t'. split; [exact E|]. split; [exact I'|]. split; [|exact S].
    assert (Ef : frame_bytes value = s) by (unfold frame_bytes; now rewrite Es).
    rewrite W. cbn [wire after_talk map snd]. rewrite map_app, <- app_assoc, Ef.
    reflexivity.
Qed.

Lemma talk_each_stops (pre post : list (string * string)) (key bad : string)
    (e : exn) :
  Forall (fun kv => exists s, fromhex (snd kv) = Ok s) pre ->
  fromhex bad = Raise e ->
  forall t : telescope,
    idle t ->
    exists t',
      talk_each (pre ++ (key, bad) :: post) t = (Fault e, t') /\ idle t' /\
      map fst (wire t')
      = (map fst (wire t) ++ map (fun kv => frame_bytes (snd kv)) pre)%list.
Proof.
  intros F Eb. induction F as [|[k value] pre (s & Es) _ IH]; intros t I.
  - exists t. split.
    + cbn [app talk_each]. unfold RS232_Talk, bind. now rewrite Eb.
    + split; [exact I | now rewrite app_nil_r].
  - destruct (ser_readline (ser_write s (ser t))) as [data p] eqn:Hp.
    cbn [talk_each snd app] in *.
    rewrite (bind_Done _ _ _ _ _ (RS232_Talk_idle value s data p t I Es Hp)).
    destruct (IH (after_talk s data p t) (idle_after_talk s data p t))
      as (t' & E & I' & W).
    exists t'. split; [exact E|]. split; [exact I'|].
    assert (Ef : frame_bytes value = s) by (unfold frame_bytes; now rewrite Es).
    rewrite W. cbn [wire after_talk map snd]. rewrite map_app, <- app_assoc, Ef.
    reflexivity.
Qed.

(** Given a dictionary of well-formed commands, [StartConfig] and
    [QuickAlign] send every command of the file, one transaction each,
    in the order of the file, and leave the driver idle.  At the first
    command that is not an even number of hexadecimal digits the call
    ends with the exception of [bytes.fromhex], the commands before it
    sent and the ones after it not. *)
Theorem StartConfig_sends_commands (file : list (string * string))
    (t : telescope) :
  idle t ->
  (Forall (fun kv => exists s, fromhex (snd kv) = Ok s) file ->
   exists t',
     StartConfig (Ok file) t = (Done tt, t') /\
     QuickAlign (Ok file) t = (Done tt, t') /\
     idle t' /\
     map fst (wire t')
     = (map fst (wire t) ++ map (fun kv => frame_bytes (snd kv)) file)%list /\
     motion_status t' = motion_status t) /\
  (forall pre post key bad e,
     file = (pre ++ (key, bad) :: post)%list ->
     Forall (fun kv => exists s, fromhex (snd kv) = Ok s) pre ->
     fromhex bad = Raise e ->
     exists t',
       StartConfig (Ok file) t = (Fault e, t') /\
       QuickAlign (Ok file) t = (Fault e, t') /\
       map fst (wire t')
       = (map fst (wire t) ++ map (fun kv => frame_bytes (snd kv)) pre)%list).
Proof.
  intros I. split.
  - intros F. destruct (talk_each_sends file F t I) as (t' & E & I' & W & S).
    exists t'. repeat split; try assumption; try apply I'.
  - intros pre post key bad e -> F Eb.
    destruct (talk_each_stops pre post key bad e F Eb t I) as (t' & E & _ & W).
    exists t'. repeat split; assumption.
Qed.

(** When the command file cannot be opened or parsed, the handler of
    [StartConfig] sets the status [ERROR] and logs, the one of
    [QuickAlign] only logs; both functions then go on to the loop and
    fail there with [UnboundLocalError] on the variable [file].
    Nothing is sent. *)
Theorem StartConfig_unreadable_file (e : exn) (t : telescope) :
  (exists t',
     StartConfig (Raise e) t = (Fault UnboundLocalError, t') /\
     motion_status t' = ERROR /\
     log t' = (log t ++ [Error "could not open initialization file."])%list /\
     wire t' = wire t /\ RS232_QUEUE t' = RS232_QUEUE t) /\
  (exists t',
     QuickAlign (Raise e) t = (Fault UnboundLocalError, t') /\
     motion_status t' = motion_status t /\
     log t' = (log t ++ [Error "could not open quick align file."])%list /\
     wire t' = wire t /\ RS232_QUEUE t' = RS232_QUEUE t).
Proof.
  split; eexists; (split; [reflexivity|]); repeat split; reflexivity.
Qed.

(** ** [ReadClean] *)

Lemma ReadClean_step (budget : nat) (t : telescope) :
  ReadClean (S budget) t
  = if (List.length (fst (ser_readline (ser t))) =? 0)%nat
    then (Done tt, set_ser (snd (ser_readline (ser t))) t)
    else ReadClean budget (set_ser (snd (ser_readline (ser t))) t).
Proof.
  cbn [ReadClean]. unfold bind, ser_read.
  destruct (ser_readline (ser t)) as [data p]. cbn [fst snd].
  destruct (List.length data =? 0)%nat; reflexivity.
Qed.

Lemma set_ser_set_ser (p q : port) (t : telescope) :
  set_ser p (set_ser q t) = set_ser p t.
Proof. reflexivity. Qed.

(** [ReadClean] reads until the first read that returns nothing and
    stops there: if the first [n] reads return data and the next one is
    empty, then with a budget above [n] it returns after [n + 1] reads,
    having changed nothing but the device; with a budget of at most [n]
    it is still reading when the budget ends.  It never writes. *)
Theorem ReadClean_drains (n : nat) :
  forall t : telescope,
    (forall j, (j < n)%nat -> fst (ser_readline (reads j (ser t))) <> []) ->
    fst (ser_readline (reads n (ser t))) = [] ->
    forall budget,
      ((n < budget)%nat ->
       ReadClean budget t = (Done tt, set_ser (reads (S n) (ser t)) t)) /\
      ((budget <= n)%nat ->
       ReadClean budget t = (Running, set_ser (reads budget (ser t)) t)).
Proof.
  induction n as [|n IH]; intros t Hd He budget.
  - split; intros Hb.
    + destruct budget as [|budget]; [lia|].
      rewrite ReadClean_step. cbn [reads] in He |- *. rewrite He. reflexivity.
    + replace budget with 0%nat by lia. destruct t; reflexivity.
  - destruct budget as [|budget].
    + split; intros Hb; [lia|]. destruct t; reflexivity.
    + rewrite ReadClean_step.
      pose proof (Hd 0%nat ltac:(lia)) as H0. cbn [reads] in H0.
      destruct (fst (ser_readline (ser t))) as [|b data] eqn:Ed; [congruence|].
      cbn [List.length Nat.eqb].
      specialize (IH (set_ser (snd (ser_readline (ser t))) t)).
      assert (Es : ser (set_ser (snd (ser_readline (ser t))) t)
                   = snd (ser_readline (ser t))) by reflexivity.
      rewrite Es in IH.
      destruct (IH (fun j Hj => Hd (S j) ltac:(lia)) He budget) as [IH1 IH2].
      split; intros Hb.
      * rewrite IH1 by lia. reflexivity.
      * rewrite IH2 by lia. reflexivity.
Qed.

(** ** A ticket left in the queue *)

Lemma list_index_last (x h : Z) (q : list Z) :
  h <> x -> exists i, list_index x (h :: q ++ [x]) = Ok (S i).
Proof.
  intros N. cbn [list_index].
  destruct (Z.eqb_spec h x) as [E | _]; [contradiction|].
  destruct (ThreadsFacts.list_index_In x (q ++ [x])) as (i & Ei).
  { apply in_or_app. right. now left. }
  exists i. now rewrite Ei.
Qed.

(** A transaction that finds a ticket other than its own at the head
    of the queue (left by a caller that never released) joins the queue
    behind it and waits for the event; it writes nothing to the line.
    Nothing in the class removes a ticket on behalf of another caller. *)
Theorem RS232_Talk_waits_behind (command : string) (s : list byte)
    (h : Z) (q : list Z) (t : telescope) :
  lock_RS232_comm t = false ->
  RS232_QUEUE t = h :: q ->
  fromhex command = Ok s ->
  h <> (identity t + 1) mod 10000 ->
  exists t',
    RS232_Talk command t = (Waiting, t') /\
    wire t' = wire t /\ ser t' = ser t /\
    RS232_QUEUE t' = (h :: q ++ [(identity t + 1) mod 10000])%list /\
    lock_RS232_comm t' = false /\ event_RS232_comm t' = false.
Proof.
  intros L Q E N.
  destruct (list_index_last _ h q N) as (i & Ei).
  destruct t as [id qu l ev gs gr r d m1 m2 t1 t2 st lg sr w].
  cbn [lock_RS232_comm RS232_QUEUE identity] in *. subst l qu.
  unfold RS232_Talk, bind. rewrite E. cbn [lift ret].
  cbv [RS232_enqueue bind lock_acquire lock_RS232_comm try_except_finally
       modify get log_info lock_release ret set_identity set_RS232_QUEUE
       set_log set_lock_RS232_comm identity RS232_QUEUE log
       GOTO_IN_STOP GOTO_RUNNING ra dec mot1 mot2 tracking_rate_mot1
       tracking_rate_mot2 motion_status ser wire event_RS232_comm
       RS232_await_turn set_event_RS232_comm lift raise suspend].
  change ((h :: q) ++ [(id + 1) mod 10000])%list
    with (h :: q ++ [(id + 1) mod 10000])%list.
  rewrite Ei. cbn [Nat.eqb].
  eexists. split; [reflexivity|]. repeat split; reflexivity.
Qed.

End CommandFacts.
(** * What a transaction and a GOTO leave alone *)

Section Frame.

Context {port : Type} `{SerialPort port}.

Lemma kept_refl (t : @telescope port) : kept t t.
Proof. repeat split. Qed.

Lemma kept_trans (t1 t2 t3 : @telescope port) :
  kept t1 t2 -> kept t2 t3 -> kept t1 t3.
Proof.
  intros (A1 & A2 & A3 & A4 & A5 & A6) (B1 & B2 & B3 & B4 & B5 & B6).
  repeat split; congruence.
Qed.

Lemma keeps_ret {A : Type} (a : A) : keeps (@ret port A a).
Proof. intros t. apply kept_refl. Qed.

Lemma keeps_raise {A : Type} (e : exn) : keeps (@raise port A e).
Proof. intros t. apply kept_refl. Qed.

Lemma keeps_suspend {A : Type} : keeps (@suspend port A).
Proof. intros t. apply kept_refl. Qed.

Lemma keeps_out_of_budget {A : Type} : keeps (@out_of_budget port A).
Proof. intros t. apply kept_refl. Qed.

Lemma keeps_lift {A : Type} (r : result A) : keeps (@lift port A r).
Proof. destruct r; [apply keeps_ret | apply keeps_raise]. Qed.

Lemma keeps_get {A : Type} (f : @telescope port -> A) : keeps (get f).
Proof. intros t. apply kept_refl. Qed.

Lemma keeps_modify (f : @telescope port -> @telescope port) :
  (forall t, kept t (f t)) -> keeps (modify f).
Proof. intros F t. apply F. Qed.

Lemma keeps_bind {A B : Type} (m : @M port A) (k : A -> @M port B) :
  keeps m -> (forall a, keeps (k a)) -> keeps (bind m k).
Proof.
  intros Km Kk t. unfold bind. specialize (Km t).
  destruct (m t) as [[a | e | |] t']; cbn [snd] in *; try exact Km.
  eapply kept_trans; [exact Km | apply Kk].
Qed.

Lemma keeps_try_except_finally {A : Type} (body : @M port A)
    (handler final : @M port unit) :
  keeps body -> keeps handler -> keeps final ->
  keeps (try_except_finally body handler final).
Proof.
  intros Kb Kh Kf t. unfold try_except_finally. specialize (Kb t).
  destruct (body t) as [[a | e | |] t1]; cbn [snd] in *; try exact Kb.
  - eapply kept_trans; [exact Kb|].
    apply (keeps_bind final (fun _ => ret (Some a)) Kf (fun _ => keeps_ret _)).
  - specialize (Kh t1).
    destruct (handler t1) as [[u | e' | |] t2]; cbn [snd] in *;
      try (eapply kept_trans; [exact Kb | exact Kh]).
    + eapply kept_trans; [exact Kb|]. eapply kept_trans; [exact Kh|].
      apply (keeps_bind final (fun _ => ret None) Kf (fun _ => keeps_ret _)).
    + eapply kept_trans; [exact Kb|]. eapply kept_trans; [exact Kh|].
      apply (keeps_bind final (fun _ => raise e') Kf (fun _ => keeps_raise _)).
Qed.

Ltac keeps_step :=
  first
    [ apply keeps_ret | apply keeps_raise | apply keeps_suspend
    | apply keeps_out_of_budget | apply keeps_lift | apply keeps_get
    | apply keeps_modify; intros []; repeat split
    | apply keeps_try_except_finally
    | apply keeps_bind; [|intros ?] ].

Lemma keeps_lock_acquire : keeps (@lock_acquire port).
Proof.
  intros t. unfold lock_acquire. destruct (lock_RS232_comm t);
    destruct t; repeat split.
Qed.

Lemma keeps_RS232_Talk (command : string) : keeps (RS232_Talk command).
Proof.
  unfold RS232_Talk, RS232_enqueue, RS232_await_turn, RS232_release,
    log_info, log_error, _change_motion_status, lock_release.
  apply keeps_bind; [apply keeps_lift | intros s].
  apply keeps_bind.
  { apply keeps_bind; [apply keeps_lock_acquire | intros _].
    repeat keeps_step. }
  intros my_id. apply keeps_bind.
  { apply keeps_bind; [keeps_step | intros _].
    apply keeps_bind; [destruct my_id; keeps_step | intros i].
    apply keeps_bind; [keeps_step | intros q].
    apply keeps_bind; [keeps_step | intros n].
    destruct (n =? 0)%nat; keeps_step. }
  intros _. apply keeps_bind.
  { intros t. unfold RS232_transfer.
    destruct (ser_readline (ser_write s (ser t))) as [data p].
    destruct t; repeat split. }
  intros data. apply keeps_bind; [|intros _; apply keeps_ret].
  apply keeps_bind; [apply keeps_lock_acquire | intros _].
  apply keeps_bind; [|intros _; keeps_step].
  apply keeps_try_except_finally; [| repeat keeps_step | keeps_step].
  intros t. unfold queue_pop0. destruct (RS232_QUEUE t); destruct t; repeat split.
Qed.

Lemma keeps_poll_axis (frame : string) (running : bool) :
  keeps (poll_axis frame running).
Proof.
  unfold poll_axis. destruct running; cbn [negb]; [apply keeps_ret|].
  apply keeps_bind; [apply keeps_RS232_Talk | intros data].
  apply keeps_bind; [apply keeps_lift | intros d0].
  apply keeps_bind; [apply keeps_lift | intros d1].
  destruct (_ =? _)%string; apply keeps_ret.
Qed.

Lemma keeps_poll_until_stopped (budget : nat) (abort_event : nat -> bool) :
  forall k test ra_running dec_running,
    keeps (poll_until_stopped budget abort_event k test ra_running dec_running).
Proof.
  induction budget as [|budget IH]; intros k test r d; cbn [poll_until_stopped];
    destruct test; try apply keeps_ret;
    destruct (abort_event k); try apply keeps_ret;
    [apply keeps_out_of_budget|].
  apply keeps_bind; [apply keeps_poll_axis | intros r'].
  apply keeps_bind; [apply keeps_poll_axis | intros d'].
  apply IH.
Qed.

Lemma keeps_move (budget : nat) (m1 m2 : Q) (abort_event : nat -> bool) :
  keeps (@__move port _ budget m1 m2 abort_event).
Proof.
  unfold __move, log_info, log_data, _change_motion_status.
  repeat (apply keeps_bind;
          [first [ apply keeps_RS232_Talk | apply keeps_poll_until_stopped
                 | keeps_step ]
          | intros ?]).
  keeps_step.
Qed.

(** However it ends and whatever the mount answers, [__move] writes
    neither the stored coordinates [ra] and [dec] nor the cached motor
    angles nor the tracking rates: after a GOTO the driver still
    carries the tracking rates set before it, under the motion status
    of the GOTO, and [mot1], [mot2] are not the new targets. *)
Theorem move_keeps_coordinates (budget : nat) (m1 m2 : Q)
    (abort_event : nat -> bool) (t : telescope) :
  let t' := snd (__move budget m1 m2 abort_event t) in
  ra t' = ra t /\ dec t' = dec t /\ mot1 t' = mot1 t /\ mot2 t' = mot2 t /\
  tracking_rate_mot1 t' = tracking_rate_mot1 t /\
  tracking_rate_mot2 t' = tracking_rate_mot2 t.
Proof. exact (keeps_move budget m1 m2 abort_event t). Qed.

End Frame.
(** * Parking, GOTO in equatorial coordinates, reading the coordinates *)

Section Slews.

Local Open Scope Q_scope.

Lemma move_done (t : @telescope mount) (m1 m2 : Q) (a1 d1 a2 d2 budget : nat) :
  idle t ->
  (forall i, 2 <= List.length (ra_script (ser t) i))%nat ->
  (forall i, 2 <= List.length (dec_script (ser t) i))%nat ->
  first_stop (ra_script (ser t)) (ra_polls (ser t)) a1 ->
  first_stop (dec_script (ser t)) (dec_polls (ser t)) d1 ->
  first_stop (ra_script (ser t)) (ra_polls (ser t) + S a1) a2 ->
  first_stop (dec_script (ser t)) (dec_polls (ser t) + S d1) d2 ->
  (Nat.max (Nat.max a1 d1) (Nat.max a2 d2) < budget)%nat ->
  exists t',
    __move budget m1 m2 (fun _ => false) t = (Done tt, t') /\
    motion_status t' = POSITIONED /\ GOTO_RUNNING t' = false /\
    advanced t t' (S a1 + S a2) (S d1 + S d2)
             ([goto_bytes x11 x02 m2; goto_bytes x10 x02 m1]
              ++ poll_frames a1 d1
              ++ [goto_bytes x11 x17 m2; goto_bytes x10 x17 m1]
              ++ poll_frames a2 d2)%list.
Proof.
  intros I La Ld Fa1 Fd1 Fa2 Fd2 Hb.
  destruct (GOTO_MOT_bytes m2 true) as [_ (c2f & G2f & H2f)].
  destruct (GOTO_MOT_bytes m2 false) as [_ (c2s & G2s & H2s)].
  destruct (GOTO_MOT_bytes m1 true) as [(c1f & G1f & H1f) _].
  destruct (GOTO_MOT_bytes m1 false) as [(c1s & G1s & H1s) _].
  unfold __move, log_info, log_data, _change_motion_status.
  rewrite !bind_modify.
  rewrite G2f, G2s, G1f, G1s, !bind_lift_Ok.
  match goal with |- exists _, bind _ _ ?t0 = _ /\ _ => set (s0 := t0) end.
  assert (A0 : advanced t s0 0 0 []) by (apply advanced_refl in I; exact I).
  destruct (talk_goto s0 c2f _ _ _ (proj1 A0) H2f) as (x1 & s1 & E1 & A1).
  rewrite (bind_Done _ _ _ _ _ E1), bind_modify.
  apply (advanced_set_log _ _ _ _ _ (log s1 ++ [InfoData x1])) in A1.
  match goal with |- exists _, bind _ _ ?t0 = _ /\ _ => set (s1' := t0) in * end.
  destruct (talk_goto s1' c1f _ _ _ (proj1 A1) H1f) as (x2 & s2 & E2 & A2).
  rewrite (bind_Done _ _ _ _ _ E2), bind_modify.
  apply (advanced_set_log _ _ _ _ _ (log s2 ++ [InfoData x2])) in A2.
  match goal with |- exists _, bind _ _ ?t0 = _ /\ _ => set (s2' := t0) in * end.
  pose proof (advanced_trans _ _ _ _ _ _ _ _ _
                (advanced_trans _ _ _ _ _ _ _ _ _ A0 A1) A2) as B2.
  cbn [Nat.add app] in B2.
  pose proof B2 as (I2 & Sa2 & Sd2 & So2 & Ra2 & Rd2 & W2).
  destruct (poll_loop a1 d1 (S (Nat.max a1 d1)) 0 budget 0 s2') as (k1 & s3 & E3 & A3);
    try lia; try exact I2.
  { intros i. rewrite Sa2. apply La. }
  { intros i. rewrite Sd2. apply Ld. }
  { intros _. rewrite Sa2, Ra2, Nat.add_0_r, Nat.sub_0_r. exact Fa1. }
  { intros _. rewrite Sd2, Rd2, Nat.add_0_r, Nat.sub_0_r. exact Fd1. }
  change (a1 <? 0)%nat with false in E3. change (d1 <? 0)%nat with false in E3.
  rewrite (bind_Done _ _ _ _ _ E3).
  fold (poll_frames a1 d1) in A3. rewrite !Nat.sub_0_r in A3.
  pose proof (advanced_trans _ _ _ _ _ _ _ _ _ B2 A3) as B3.
  cbn [Nat.add] in B3.
  destruct (talk_goto s3 c2s _ _ _ (proj1 A3) H2s) as (x4 & s4 & E4 & A4).
  rewrite (bind_Done _ _ _ _ _ E4), bind_modify.
  apply (advanced_set_log _ _ _ _ _ (log s4 ++ [InfoData x4])) in A4.
  match goal with |- exists _, bind _ _ ?t0 = _ /\ _ => set (s4' := t0) in * end.
  destruct (talk_goto s4' c1s _ _ _ (proj1 A4) H1s) as (x5 & s5 & E5 & A5).
  rewrite (bind_Done _ _ _ _ _ E5), bind_modify.
  apply (advanced_set_log _ _ _ _ _ (log s5 ++ [InfoData x5])) in A5.
  match goal with |- exists _, bind _ _ ?t0 = _ /\ _ => set (s5' := t0) in * end.
  pose proof (advanced_trans _ _ _ _ _ _ _ _ _
                (advanced_trans _ _ _ _ _ _ _ _ _ B3 A4) A5) as B5.
  rewrite !Nat.add_0_r in B5.
  pose proof B5 as (I5 & Sa5 & Sd5 & So5 & Ra5 & Rd5 & W5).
  destruct (poll_loop a2 d2 (S (Nat.max a2 d2)) 0 budget k1 s5') as (k2 & s6 & E6 & A6);
    try lia; try exact I5.
  { intros i. rewrite Sa5. apply La. }
  { intros i. rewrite Sd5. apply Ld. }
  { intros _. rewrite Sa5, Ra5, Nat.sub_0_r. exact Fa2. }
  { intros _. rewrite Sd5, Rd5, Nat.sub_0_r. exact Fd2. }
  change (a2 <? 0)%nat with false in E6. change (d2 <? 0)%nat with false in E6.
  rewrite (bind_Done _ _ _ _ _ E6).
  fold (poll_frames a2 d2) in A6.
  pose proof (advanced_trans _ _ _ _ _ _ _ _ _ B5 A6) as B6.
  rewrite !bind_modify.
  eexists.
  split; [reflexivity|].
  split; [reflexivity|]. split; [reflexivity|].
  apply (advanced_eq _ _ _ _ _ _ _ _ B6); [lia | lia |].
  now rewrite <- !app_assoc.
Qed.

(** [park] cannot be aborted: its event is never set.  On a mount that
    answers the status requests with at least two bytes and reports
    each axis stopped again and again, [park] with enough budget sends
    the fast and the slow GOTO frames for 90 degrees on both axes
    (angle bytes 40 00 00), polls as [__move] does, and ends in the
    status [PARKED], idle. *)
Theorem park_reaches_parked (t : @telescope mount) :
  idle t ->
  (forall i, 2 <= List.length (ra_script (ser t) i))%nat ->
  (forall i, 2 <= List.length (dec_script (ser t) i))%nat ->
  (forall i0, exists i, (i0 <= i)%nat /\ stoppedb (ra_script (ser t) i) = true) ->
  (forall i0, exists i, (i0 <= i)%nat /\ stoppedb (dec_script (ser t) i) = true) ->
  exists a1 d1 a2 d2,
    forall budget,
      (Nat.max (Nat.max a1 d1) (Nat.max a2 d2) < budget)%nat ->
      exists t',
        park budget t = (Done tt, t') /\
        motion_status t' = PARKED /\ GOTO_RUNNING t' = false /\ idle t' /\
        map fst (wire t')
        = (map fst (wire t)
           ++ [[x50; x04; x11; x02; x40; x00; x00; x00];
               [x50; x04; x10; x02; x40; x00; x00; x00]]
           ++ poll_frames a1 d1
           ++ [[x50; x04; x11; x17; x40; x00; x00; x00];
               [x50; x04; x10; x17; x40; x00; x00; x00]]
           ++ poll_frames a2 d2)%list.
Proof.
  intros I La Ld Ea Ed.
  destruct (exists_first_stop _ _ (Ea (ra_polls (ser t)))) as (a1 & Fa1).
  destruct (exists_first_stop _ _ (Ed (dec_polls (ser t)))) as (d1 & Fd1).
  destruct (exists_first_stop _ _ (Ea (ra_polls (ser t) + S a1)%nat))
    as (a2 & Fa2).
  destruct (exists_first_stop _ _ (Ed (dec_polls (ser t) + S d1)%nat))
    as (d2 & Fd2).
  exists a1, d1, a2, d2. intros budget Hb.
  unfold park, log_info, _change_motion_status. rewrite !bind_modify.
  match goal with |- exists _, bind _ _ ?t0 = _ /\ _ => set (s0 := t0) end.
  destruct (move_done s0 park_mot1 park_mot2 a1 d1 a2 d2 budget I La Ld
              Fa1 Fd1 Fa2 Fd2 Hb) as (t' & E & _ & G & A).
  rewrite (bind_Done _ _ _ _ _ E), !bind_modify.
  destruct A as (I' & _ & _ & _ & _ & _ & W).
  eexists. split; [reflexivity|]. split; [reflexivity|].
  split; [exact G|]. split; [exact I'|].
  cbn [wire set_log set_motion_status]. rewrite W. reflexivity.
Qed.


End Slews.
(** * Reading the coordinates back *)

Section Coordinates.

Context {port : Type} `{SerialPort port}.

Local Open Scope Q_scope.

Lemma GET_MOT_idle (t : telescope) :
  idle t ->
  (exists a t',
     GET_MOT1 t = (Done a, t') /\ idle t' /\
     map fst (wire t') = (map fst (wire t) ++ [frame_bytes GET_MOT1_COMMAND])%list /\
     motion_status t' = motion_status t /\ ra t' = ra t /\ dec t' = dec t) /\
  (exists a t',
     GET_MOT2 t = (Done a, t') /\ idle t' /\
     map fst (wire t') = (map fst (wire t) ++ [frame_bytes GET_MOT2_COMMAND])%list /\
     motion_status t' = motion_status t /\ ra t' = ra t /\ dec t' = dec t).
Proof.
  intros I. split.
  - destruct (ser_readline (ser_write (frame_bytes GET_MOT1_COMMAND) (ser t)))
      as [data p] eqn:Hp.
    unfold GET_MOT1.
    rewrite (bind_Done _ _ _ _ _
               (RS232_Talk_idle GET_MOT1_COMMAND _ data p t I eq_refl Hp)).
    assert (W : forall l m, map fst (wire (set_log l (set_mot1 m (after_talk (frame_bytes GET_MOT1_COMMAND) data p t))))
                = (map fst (wire t) ++ [frame_bytes GET_MOT1_COMMAND])%list).
    { intros. cbn [wire set_log set_mot1 after_talk]. now rewrite map_app. }
    assert (W' : forall l, map fst (wire (set_log l (after_talk (frame_bytes GET_MOT1_COMMAND) data p t)))
                = (map fst (wire t) ++ [frame_bytes GET_MOT1_COMMAND])%list).
    { intros. cbn [wire set_log after_talk]. now rewrite map_app. }
    destruct data as [|b1 [|b2 [|b3 [|b4 [|b5 data]]]]];
      cbn [List.length Nat.eqb];
      try (unfold bind, log_warning, modify, get;
           eexists; eexists; split; [reflexivity|];
           split; [split; reflexivity|]; split; [apply W'|];
           repeat split; reflexivity).
    unfold bind, log_info, modify, get.
    rewrite (byte_hex2_nth [b1; b2; b3; b4] 0 b1 eq_refl),
      (byte_hex2_nth [b1; b2; b3; b4] 1 b2 eq_refl),
      (byte_hex2_nth [b1; b2; b3; b4] 2 b3 eq_refl).
    cbn [lift ret]. rewrite decodeAngle_hex_bytes. cbn [lift ret].
    eexists; eexists; split; [reflexivity|].
    split; [split; reflexivity|]. split; [apply W|].
    repeat split; reflexivity.
  - destruct (ser_readline (ser_write (frame_bytes GET_MOT2_COMMAND) (ser t)))
      as [data p] eqn:Hp.
    unfold GET_MOT2.
    rewrite (bind_Done _ _ _ _ _
               (RS232_Talk_idle GET_MOT2_COMMAND _ data p t I eq_refl Hp)).
    assert (W : forall l m, map fst (wire (set_log l (set_mot2 m (after_talk (frame_bytes GET_MOT2_COMMAND) data p t))))
                = (map fst (wire t) ++ [frame_bytes GET_MOT2_COMMAND])%list).
    { intros. cbn [wire set_log set_mot2 after_talk]. now rewrite map_app. }
    assert (W' : forall l, map fst (wire (set_log l (after_talk (frame_bytes GET_MOT2_COMMAND) data p t)))
                = (map fst (wire t) ++ [frame_bytes GET_MOT2_COMMAND])%list).
    { intros. cbn [wire set_log after_talk]. now rewrite map_app. }
    destruct data as [|b1 [|b2 [|b3 [|b4 [|b5 data]]]]];
      cbn [List.length Nat.eqb];
      try (unfold bind, log_warning, modify, get;
           eexists; eexists; split; [reflexivity|];
           split; [split; reflexivity|]; split; [apply W'|];
           repeat split; reflexivity).
    unfold bind, log_info, modify, get.
    rewrite (byte_hex2_nth [b1; b2; b3; b4] 0 b1 eq_refl),
      (byte_hex2_nth [b1; b2; b3; b4] 1 b2 eq_refl),
      (byte_hex2_nth [b1; b2; b3; b4] 2 b3 eq_refl).
    cbn [lift ret]. rewrite decodeAngle_hex_bytes. cbn [lift ret].
    eexists; eexists; split; [reflexivity|].
    split; [split; reflexivity|]. split; [apply W|].
    repeat split; reflexivity.
Qed.

(** Started idle with the line open and the stored angle of motor 2
    not negative (no decoded angle is), [get_radec] asks motor 1, then
    motor 2, and returns normally whatever the two replies are: the
    branch that logs "Number MOT2 out of range" and would fail on the
    unassigned [sign] is never taken.  The right ascension returned is
    15 times the stored hours and lies in [0, 360], the declination in
    [-90, 90].  Before [init] has opened the line it sends nothing and
    returns the stored coordinates. *)
Theorem get_radec_never_raises (lst : Q) (t : telescope) :
  idle t -> 0 <= mot2 t ->
  (exists r d t',
     get_radec true lst t = (Done (r, d), t') /\ idle t' /\
     r = ra t' * 15 /\ d = dec t' /\
     0 <= r /\ r <= 360 /\ - (90) <= d /\ d <= 90 /\
     map fst (wire t')
     = (map fst (wire t)
        ++ [frame_bytes GET_MOT1_COMMAND; frame_bytes GET_MOT2_COMMAND])%list /\
     motion_status t' = motion_status t) /\
  get_radec false lst t = (Done (ra t * 15, dec t), t).
Proof.
  intros I _. split; [|reflexivity].
  destruct (GET_MOT_idle t I) as [(a1 & t1 & E1 & I1 & W1 & S1 & _) _].
  destruct (GET_MOT_idle t1 I1) as [_ (a2 & t2 & E2 & I2 & W2 & S2 & _)].
  unfold get_radec.
  unfold bind at 1. unfold bind at 1. rewrite E1.
  unfold bind at 1. rewrite E2.
  destruct (get_radec_coordinates_some a1 a2 lst)
    as (r & d & Ec & R0 & R1 & D0 & D1).
  rewrite Ec. unfold bind, modify, get, ret.
  eexists; eexists; eexists. split; [reflexivity|].
  split; [exact I2|]. split; [reflexivity|]. split; [reflexivity|].
  cbn [ra dec set_ra set_dec].
  split; [lra|]. split; [lra|]. split; [exact D0|]. split; [exact D1|].
  split; [|cbn [motion_status set_ra set_dec]; congruence].
  cbn [wire set_ra set_dec]. rewrite W2, W1, <- app_assoc. reflexivity.
Qed.

End Coordinates.
(** * Concurrent callers: what never happens *)

Module ThreadsSafety.
Import Threads.
Import ThreadsFacts.
Local Open Scope list_scope.
Local Open Scope Z_scope.

Lemma thr_beyond (s : state) (i : nat) :
  (List.length (pool s) <= i)%nat -> thr s i = idle_thread.
Proof. intros L. unfold thr. now apply nth_overflow. Qed.

Lemma thr_init (N i : nat) : thr (init N) i = idle_thread.
Proof.
  unfold thr, init. cbn [pool].
  destruct (Nat.lt_ge_cases i N) as [L | L].
  - now apply nth_repeat_lt.
  - apply nth_overflow. now rewrite repeat_length.
Qed.

Lemma own_ticket_queued (M : Z) (N : nat) (s : state) (g : ghost) (i : nat) :
  Inv M N s g -> (i < N)%nat -> inq (pc (thr s i)) = true ->
  In (my_id (thr s i)) (RS232_QUEUE s).
Proof.
  intros I L Q. rewrite (inv_queue _ _ _ _ I).
  apply (in_map (fun j => my_id (thr s j))).
  apply (inv_own _ _ _ _ I). now split.
Qed.

Lemma critical_head (M : Z) (N : nat) (s : state) (g : ghost) (i : nat) :
  Inv M N s g -> critical (pc (thr s i)) = true ->
  (i < N)%nat /\ hd_error (qown g) = Some i /\
  hd_error (RS232_QUEUE s) = Some (my_id (thr s i)).
Proof.
  intros I C.
  assert (L : (i < N)%nat).
  { destruct (Nat.lt_ge_cases i N) as [L | L]; [exact L|].
    rewrite thr_beyond in C by (now rewrite (inv_size _ _ _ _ I)).
    discriminate. }
  pose proof (inv_head _ _ _ _ I i L C) as Hd.
  split; [exact L|]. split; [exact Hd|].
  rewrite (inv_queue _ _ _ _ I).
  destruct (qown g) as [|j o]; [discriminate|].
  injection Hd as ->. reflexivity.
Qed.

Lemma step_pc (M : Z) (i : nat) (s s' : state) :
  step M i s = Some s' ->
  (i < List.length (pool s))%nat /\
  forall j, (j =? i)%nat = false -> thr s' j = thr s j.
Proof.
  unfold step. destruct (i <? List.length (pool s))%nat eqn:L; [|discriminate].
  apply Nat.ltb_lt in L. cbn [negb]. intros E. split; [exact L|]. intros j Hj.
  destruct (pc (thr s i)); try discriminate;
    repeat match type of E with
           | match ?x with _ => _ end = _ => destruct x; try discriminate
           | (if ?x then _ else _) = _ => destruct x; try discriminate
           end;
    injection E as <-;
    first [ rewrite thr_goto by exact L | rewrite thr_upd by exact L ];
    now rewrite Hj.
Qed.

Lemma step_not_crashed (M : Z) (N : nat) (i : nat) (s s' : state) (g : ghost) :
  Inv M N s g -> step M i s = Some s' -> pc (thr s' i) <> Crashed.
Proof.
  intros I. unfold step.
  destruct (i <? List.length (pool s))%nat eqn:L; [|discriminate].
  apply Nat.ltb_lt in L. cbn [negb]. intros E.
  assert (LN : (i < N)%nat) by (now rewrite <- (inv_size _ _ _ _ I)).
  destruct (pc (thr s i)) eqn:P; try discriminate;
    try (repeat match type of E with
                | match lock s with _ => _ end = _ =>
                    destruct (lock s); try discriminate
                | (if ?x then _ else _) = _ => destruct x; try discriminate
                end;
         injection E as <-;
         first [ rewrite thr_goto by exact L | rewrite thr_upd by exact L ];
         rewrite Nat.eqb_refl; discriminate).
  (* the test of the turn *)
  destruct (list_index_In (my_id (thr s i)) (RS232_QUEUE s)) as (n & En).
  { apply (own_ticket_queued M N s g i I LN). now rewrite P. }
  rewrite En in E. destruct n; injection E as <-;
    rewrite thr_goto by exact L; rewrite Nat.eqb_refl; discriminate.
Qed.

Lemma reachable_not_crashed (M : Z) (N : nat) (s : state) :
  0 < M -> Z.of_nat N <= M -> reachable M N s ->
  forall i, pc (thr s i) <> Crashed.
Proof.
  intros HM HN R. induction R as [|s s' i R IH E]; intros j.
  - rewrite thr_init. discriminate.
  - destruct (reachable_inv M N s HM HN R) as (g & I).
    destruct (Nat.eqb_spec j i) as [-> | Hj].
    + apply (step_not_crashed M N i s s' g I E).
    + destruct (step_pc M i s s' E) as [_ F].
      rewrite F by (now apply Nat.eqb_neq). apply IH.
Qed.

(** With no more callers than the modulus, the exception handlers of
    the queue are dead code: for every caller in every reachable state,
    [RS232_QUEUE.index(my_id)] finds the ticket (no thread ends with a
    [ValueError]), and a caller about to run [RS232_QUEUE.pop(0)] finds
    its own ticket at the head of a non-empty queue. *)
Theorem queue_handlers_never_run (M : Z) (N : nat) (s : state) (i : nat) :
  0 < M -> Z.of_nat N <= M -> reachable M N s ->
  pc (thr s i) <> Crashed /\
  (pc (thr s i) = Test ->
   exists n, list_index (my_id (thr s i)) (RS232_QUEUE s) = Ok n) /\
  (pc (thr s i) = Pop ->
   exists q, RS232_QUEUE s = my_id (thr s i) :: q).
Proof.
  intros HM HN R.
  destruct (reachable_inv M N s HM HN R) as (g & I).
  split; [now apply (reachable_not_crashed M N s HM HN R)|]. split.
  - intros P. apply list_index_In.
    destruct (Nat.lt_ge_cases i N) as [L | L].
    + apply (own_ticket_queued M N s g i I L). now rewrite P.
    + rewrite thr_beyond in P by (now rewrite (inv_size _ _ _ _ I)).
      discriminate.
  - intros P.
    destruct (critical_head M N s g i I) as (_ & _ & Hd); [now rewrite P|].
    destruct (RS232_QUEUE s) as [|h q]; [discriminate|].
    injection Hd as ->. now exists q.
Qed.

(** With no more callers than the modulus, at most one caller is
    between the test of its turn and its [pop(0)] (about to write, to
    read, to take the lock again or to pop), and its ticket is the head
    of the queue. *)
Theorem one_caller_past_the_test (M : Z) (N : nat) (s : state) (i j : nat) :
  0 < M -> Z.of_nat N <= M -> reachable M N s ->
  critical (pc (thr s i)) = true ->
  hd_error (RS232_QUEUE s) = Some (my_id (thr s i)) /\
  (critical (pc (thr s j)) = true -> i = j).
Proof.
  intros HM HN R Ci.
  destruct (reachable_inv M N s HM HN R) as (g & I).
  destruct (critical_head M N s g i I Ci) as (_ & Hi & Hq).
  split; [exact Hq|]. intros Cj.
  destruct (critical_head M N s g j I Cj) as (_ & Hj & _).
  congruence.
Qed.

(** With no more callers than the modulus, the tickets in the queue
    are pairwise different, the queue is never longer than the number
    of callers, and the counter stays below the modulus. *)
Theorem queue_tickets_distinct (M : Z) (N : nat) (s : state) :
  0 < M -> Z.of_nat N <= M -> reachable M N s ->
  NoDup (RS232_QUEUE s) /\ (List.length (RS232_QUEUE s) <= N)%nat /\
  0 <= identity s < M.
Proof.
  intros HM HN R.
  destruct (reachable_inv M N s HM HN R) as (g & I).
  split; [now apply (queue_NoDup M N s g)|]. split.
  - rewrite (queue_length M N s g I). now apply (qown_length M N s g).
  - rewrite (inv_identity _ _ _ _ I). now apply Z.mod_pos_bound.
Qed.

End ThreadsSafety.
(** * The thread-based class, one caller *)

Section CommFacts.

Context {port : Type} `{SerialPort port}.

Lemma Talk_idle (command : string) (s data : list byte) (p : port)
    (t : telescope) :
  idle t ->
  fromhex command = Ok s ->
  ser_readline (ser_write s (ser t)) = (data, p) ->
  TelescopeComm.RS232_Talk command t
  = (Done data, TelescopeComm.after_Talk s data p t).
Proof.
  intros [Hq Hl] Hs Hp.
  destruct t; simpl in Hq, Hl, Hp; subst.
  unfold TelescopeComm.RS232_Talk, bind, lift. rewrite Hs.
  unfold ret, RS232_transfer, try_except_finally, lock_acquire, lock_release,
    queue_pop0, bind, ret, modify, get, lift; simpl.
  rewrite Z.eqb_refl. simpl. rewrite Hp. reflexivity.
Qed.

(** The reads of the thread-based class do not check the reply: from
    an idle driver, a reply of at least three bytes gives the angle of
    its first three bytes, whatever follows; a shorter reply, such as
    the empty one of a read that timed out, ends the call with
    [IndexError].  In both cases the transaction itself is complete:
    the ticket is gone from the queue and the lock is free.  Neither
    function stores the angle. *)
Theorem GET_MOT_indexes_reply (t : telescope) :
  idle t ->
  (let '(data, p) :=
     ser_readline (ser_write (frame_bytes GET_MOT1_COMMAND) (ser t)) in
   exists t',
     idle t' /\ mot1 t' = mot1 t /\ mot2 t' = mot2 t /\
     wire t' = (wire t ++ [(frame_bytes GET_MOT1_COMMAND, data)])%list /\
     match data with
     | b1 :: b2 :: b3 :: _ =>
         TelescopeComm.GET_MOT1 t = (Done (angle_of_bytes b1 b2 b3), t')
     | _ => TelescopeComm.GET_MOT1 t = (Fault IndexError, t')
     end) /\
  (let '(data, p) :=
     ser_readline (ser_write (frame_bytes GET_MOT2_COMMAND) (ser t)) in
   exists t',
     idle t' /\ mot1 t' = mot1 t /\ mot2 t' = mot2 t /\
     wire t' = (wire t ++ [(frame_bytes GET_MOT2_COMMAND, data)])%list /\
     match data with
     | b1 :: b2 :: b3 :: _ =>
         TelescopeComm.GET_MOT2 t = (Done (angle_of_bytes b1 b2 b3), t')
     | _ => TelescopeComm.GET_MOT2 t = (Fault IndexError, t')
     end).
Proof.
  intros I. split.
  - destruct (ser_readline (ser_write (frame_bytes GET_MOT1_COMMAND) (ser t)))
      as [data p] eqn:Hp.
    exists (TelescopeComm.after_Talk (frame_bytes GET_MOT1_COMMAND) data p t).
    split; [split; reflexivity|]. split; [reflexivity|].
    split; [reflexivity|]. split; [reflexivity|].
    unfold TelescopeComm.GET_MOT1.
    rewrite (bind_Done _ _ _ _ _
               (Talk_idle GET_MOT1_COMMAND _ data p t I eq_refl Hp)).
    destruct data as [|b1 [|b2 [|b3 data]]]; try reflexivity.
    unfold bind.
    rewrite (byte_hex2_nth (b1 :: b2 :: b3 :: data) 0 b1 eq_refl),
      (byte_hex2_nth (b1 :: b2 :: b3 :: data) 1 b2 eq_refl),
      (byte_hex2_nth (b1 :: b2 :: b3 :: data) 2 b3 eq_refl).
    cbn [lift ret]. rewrite decodeAngle_hex_bytes. reflexivity.
  - destruct (ser_readline (ser_write (frame_bytes GET_MOT2_COMMAND) (ser t)))
      as [data p] eqn:Hp.
    exists (TelescopeComm.after_Talk (frame_bytes GET_MOT2_COMMAND) data p t).
    split; [split; reflexivity|]. split; [reflexivity|].
    split; [reflexivity|]. split; [reflexivity|].
    unfold TelescopeComm.GET_MOT2.
    rewrite (bind_Done _ _ _ _ _
               (Talk_idle GET_MOT2_COMMAND _ data p t I eq_refl Hp)).
    destruct data as [|b1 [|b2 [|b3 data]]]; try reflexivity.
    unfold bind.
    rewrite (byte_hex2_nth (b1 :: b2 :: b3 :: data) 0 b1 eq_refl),
      (byte_hex2_nth (b1 :: b2 :: b3 :: data) 1 b2 eq_refl),
      (byte_hex2_nth (b1 :: b2 :: b3 :: data) 2 b3 eq_refl).
    cbn [lift ret]. rewrite decodeAngle_hex_bytes. reflexivity.
Qed.

End CommFacts.
(** * The GOTO frames *)

Section GotoFrames.

Lemma hex_byte_length (v : Z) : String.length (hex_byte v) = 2%nat.
Proof. reflexivity. Qed.

Lemma encodeAngle_integer_turns (alpha : Q) (k : Z) :
  encodeAngle_integer (alpha + 360 * inject_Z k) = encodeAngle_integer alpha.
Proof.
  rewrite !encodeAngle_integer_floor. apply Qfloor_comp.
  rewrite fmod_shift by reflexivity. reflexivity.
Qed.

(** For every angle that is not negative, [GOTO_MOT1] and [GOTO_MOT2]
    return a command of sixteen hexadecimal digits that [bytes.fromhex]
    turns into eight bytes: [50 04], the axis (10 or 11), the speed (02
    fast, 17 slow), the three bytes of the integer part of
    (angle mod 360) / 360 * 2^24, most significant first, and 00.  Whole
    turns added to such an angle give the same command. *)
Theorem GOTO_MOT_frame (alpha : Q) (fast : bool) (k : Z) :
  (0 <= alpha)%Q -> 0 <= k ->
  let n := encodeAngle_integer alpha in
  let speed := if fast then x02 else x17 in
  (0 <= n < 2 ^ 24 /\
   (inject_Z n <= Py.fmod alpha 360 / 360 * inject_Z (2 ^ 24))%Q /\
   (Py.fmod alpha 360 / 360 * inject_Z (2 ^ 24) < inject_Z (n + 1))%Q) /\
  (exists cmd,
     GOTO_MOT1 alpha fast = Ok cmd /\ String.length cmd = 16%nat /\
     fromhex cmd
     = Ok [x50; x04; x10; speed; byte_of_Z (n / 2 ^ 16);
           byte_of_Z ((n / 2 ^ 8) mod 2 ^ 8); byte_of_Z (n mod 2 ^ 8); x00]) /\
  (exists cmd,
     GOTO_MOT2 alpha fast = Ok cmd /\ String.length cmd = 16%nat /\
     fromhex cmd
     = Ok [x50; x04; x11; speed; byte_of_Z (n / 2 ^ 16);
           byte_of_Z ((n / 2 ^ 8) mod 2 ^ 8); byte_of_Z (n mod 2 ^ 8); x00]) /\
  GOTO_MOT1 (alpha + 360 * inject_Z k) fast = GOTO_MOT1 alpha fast /\
  GOTO_MOT2 (alpha + 360 * inject_Z k) fast = GOTO_MOT2 alpha fast.
Proof.
  intros _ _ n speed.
  pose proof (encodeAngle_integer_range alpha) as Rn. fold n in Rn.
  destruct (be3_ranges n Rn) as (R1 & R2 & R3).
  split.
  { split; [exact Rn|]. unfold n. rewrite encodeAngle_integer_floor.
    split; [apply Qfloor_le | apply Qlt_floor]. }
  destruct (GOTO_MOT_bytes alpha fast) as [(c1 & G1 & F1) (c2 & G2 & F2)].
  assert (L : forall pre, String.length pre = 8%nat ->
              String.length (pre ++ hex_byte (n / 2 ^ 16)
                             ++ hex_byte ((n / 2 ^ 8) mod 2 ^ 8)
                             ++ hex_byte (n mod 2 ^ 8) ++ "00") = 16%nat).
  { intros pre Lp.
    rewrite !length_app, Lp, !hex_byte_length. reflexivity. }
  split; [|split].
  - exists c1. split; [exact G1|]. split; [|exact F1].
    unfold GOTO_MOT1 in G1. rewrite encodeAngle_bytes in G1.
    unfold bytes_be3 in G1. cbn [rbind] in G1. fold n in G1.
    injection G1 as <-. apply L. now destruct fast.
  - exists c2. split; [exact G2|]. split; [|exact F2].
    unfold GOTO_MOT2 in G2. rewrite encodeAngle_bytes in G2.
    unfold bytes_be3 in G2. cbn [rbind] in G2. fold n in G2.
    injection G2 as <-. apply L. now destruct fast.
  - unfold GOTO_MOT1, GOTO_MOT2.
    rewrite !encodeAngle_bytes, encodeAngle_integer_turns. split; reflexivity.
Qed.

End GotoFrames.
(** * Tracking rates beyond two bytes *)

Section TrackingOverflow.

Context {port : Type} `{SerialPort port}.

Lemma tracking_frames_any (r1 r2 : Z) :
  tracking_frames (PyInt r1) (PyInt r2)
  = Ok (rate_command POS_MOT1_TRACKING NEG_MOT1_TRACKING r1,
        rate_command POS_MOT2_TRACKING NEG_MOT2_TRACKING r2).
Proof.
  unfold tracking_frames. rewrite !num_ge0_sign.
  cbn [np_abs num_mul num_floordiv num_sub num_int num_hex rbind].
  unfold rate_command. destruct (0 <=? r1), (0 <=? r2); reflexivity.
Qed.

Lemma rate_command_small (pos neg : string) (r : Z) :
  Z.abs r * 4 < 65536 -> rate_command pos neg r = tracking_command pos neg r.
Proof.
  intros Hr. unfold rate_command, tracking_command.
  replace (Z.abs r * 4 - Z.abs r * 4 / 256 * 256)
    with ((Z.abs r * 4) mod 256) by (rewrite Z.mod_eq by lia; lia).
  destruct (rate_bytes_range r Hr) as [A B].
  now rewrite !pad2_hex by assumption.
Qed.

Lemma hex_three_digits (h : Z) :
  256 <= h < 4096 -> three_hex (pad2 (Py.slice_from 2 (Py.hex h))) = true.
Proof.
  intros R.
  assert (F : forallb (fun h => three_hex (pad2 (Py.slice_from 2 (Py.hex h))))
                      (map (fun i => 256 + Z.of_nat i) (seq 0 3840)) = true)
    by (vm_compute; reflexivity).
  rewrite forallb_forall in F. apply F. apply In_Z_range. lia.
Qed.

Lemma hex_value_not_blank (c : ascii) (d : Z) :
  hex_value c = Some d -> is_blank c = false.
Proof.
  destruct c as [[] [] [] [] [] [] [] []]; vm_compute; intros E;
    first [reflexivity | discriminate].
Qed.

Lemma hex_digit_value (d : Z) :
  0 <= d < 16 -> hex_value (Py.hex_digit d) = Some d.
Proof.
  intros R.
  assert (F : Forall (fun d => hex_value (Py.hex_digit d) = Some d)
                     (map (fun i => 0 + Z.of_nat i) (seq 0 16))).
  { repeat (constructor; [reflexivity|]). constructor. }
  exact (proj1 (Forall_forall _ _) F d (In_Z_range 0 d 16 ltac:(lia))).
Qed.

Lemma fromhex_odd_field (s1 : string) (v : Z) :
  three_hex s1 = true -> 0 <= v < 256 ->
  fromhex (s1 ++ pad2 (Py.slice_from 2 (Py.hex v)) ++ TRACKING_END_SEQUENCE)
  = Raise ValueError.
Proof.
  intros T R. rewrite (pad2_hex v R). unfold hex_byte.
  destruct s1 as [|c1 [|c2 [|c3 [|c4 s1]]]]; try discriminate.
  cbn [three_hex] in T.
  destruct (hex_value c1) as [d1|] eqn:E1; [|discriminate].
  destruct (hex_value c2) as [d2|] eqn:E2; [|discriminate].
  destruct (hex_value c3) as [d3|] eqn:E3; [|discriminate].
  assert (Ea : hex_value (Py.hex_digit (v / 16)) = Some (v / 16))
    by (apply hex_digit_value; split; [apply Z.div_pos | apply Z.div_lt_upper_bound]; lia).
  assert (Eb : hex_value (Py.hex_digit (v mod 16)) = Some (v mod 16))
    by (apply hex_digit_value; apply Z.mod_pos_bound; lia).
  cbn [append fromhex TRACKING_END_SEQUENCE].
  rewrite (hex_value_not_blank c1 d1 E1), E1, E2.
  rewrite (hex_value_not_blank c3 d3 E3), E3, Ea.
  rewrite (hex_value_not_blank _ _ Eb), Eb.
  reflexivity.
Qed.

Lemma rate_command_odd (r : Z) :
  65536 <= Z.abs r * 4 < 1048576 ->
  fromhex (rate_command POS_MOT1_TRACKING NEG_MOT1_TRACKING r) = Raise ValueError /\
  fromhex (rate_command POS_MOT2_TRACKING NEG_MOT2_TRACKING r) = Raise ValueError.
Proof.
  intros R. unfold rate_command.
  assert (R1 : 256 <= Z.abs r * 4 / 256 < 4096).
  { split; [apply Z.div_le_lower_bound | apply Z.div_lt_upper_bound]; lia. }
  assert (R2 : 0 <= Z.abs r * 4 - Z.abs r * 4 / 256 * 256 < 256).
  { pose proof (Z.mod_pos_bound (Z.abs r * 4) 256 ltac:(lia)) as B.
    rewrite Z.mod_eq in B by lia. lia. }
  pose proof (fromhex_odd_field _ _ (hex_three_digits _ R1) R2) as F.
  split; destruct (0 <=? r); cbn; rewrite F; reflexivity.
Qed.

(** An integer rate from 16384 up (in absolute value, below 262144)
    needs three hexadecimal digits for its high part; the command then
    has an odd number of digits and [bytes.fromhex] refuses it.
    [tracking] has already set the status [TRACKING] and stored both
    rates when the [ValueError] comes: for such a rate on motor 1
    nothing is sent; for a rate in range on motor 1 and such a rate on
    motor 2, the frame of motor 1 has been sent and the one of motor 2
    is not. *)
Theorem tracking_rate_too_large (t : telescope) (r1 r2 : Z) :
  idle t ->
  (65536 <= Z.abs r1 * 4 < 1048576 ->
   exists t',
     tracking (PyInt r1) (PyInt r2) t = (Fault ValueError, t') /\
     wire t' = wire t /\ idle t' /\ motion_status t' = TRACKING /\
     tracking_rate_mot1 t' = PyInt r1 /\ tracking_rate_mot2 t' = PyInt r2) /\
  (Z.abs r1 * 4 < 65536 -> 65536 <= Z.abs r2 * 4 < 1048576 ->
   exists t',
     tracking (PyInt r1) (PyInt r2) t = (Fault ValueError, t') /\
     map fst (wire t') = (map fst (wire t) ++ [tracking_bytes x10 r1])%list /\
     idle t' /\ motion_status t' = TRACKING /\
     tracking_rate_mot1 t' = PyInt r1 /\ tracking_rate_mot2 t' = PyInt r2).
Proof.
  intros I. split.
  - intros R1. destruct (rate_command_odd r1 R1) as [E _].
    eexists. split.
    + unfold tracking, _change_motion_status.
      rewrite !bind_modify_any. unfold bind at 1.
      rewrite tracking_frames_any. cbn [lift ret].
      unfold RS232_Talk at 1. unfold bind. rewrite E. reflexivity.
    + split; [reflexivity|]. split; [exact I|]. repeat split; reflexivity.
  - intros R1 R2. destruct (rate_command_odd r2 R2) as [_ E].
    unfold tracking, _change_motion_status.
    rewrite !bind_modify_any. unfold bind at 1.
    rewrite tracking_frames_any. cbn [lift ret].
    rewrite (rate_command_small _ _ r1 R1).
    match goal with |- exists _, bind _ _ ?t0 = _ /\ _ => set (t0' := t0) end.
    assert (I0 : idle t0') by exact I.
    destruct (ser_readline (ser_write (tracking_bytes x10 r1) (ser t0')))
      as [d1 p1] eqn:Hp.
    rewrite (bind_Done _ _ _ _ _
               (RS232_Talk_idle _ _ d1 p1 t0' I0 (fromhex_MOT1_tracking r1 R1) Hp)).
    eexists. split.
    + unfold RS232_Talk at 1. unfold bind. rewrite E. reflexivity.
    + split; [cbn [wire after_talk]; now rewrite map_app|].
      split; [split; reflexivity|]. repeat split; reflexivity.
Qed.

End TrackingOverflow.

(** * The theorems at concrete inputs *)

Section Instances.

Lemma MOTION_MOT_frames_witness :
  idle (fresh (replying [x23])) /\ -9 <= -3 <= 9 /\
  exists t',
    MOTION_MOT1 (Some (-3)) (fresh (replying [x23])) = (Done tt, t') /\
    map fst (wire t') = [[x50; x02; x10; x25; x03; x00; x00; x00]].
Proof.
  split; [split; reflexivity|]. split; [lia|].
  destruct (MOTION_MOT_frames (fresh (replying [x23])) (-3)
              (conj eq_refl eq_refl) ltac:(lia))
    as [(t' & E & _ & W & _) _].
  exists t'. split; [exact E | exact W].
Defined.

Lemma MOTION_MOT_two_digit_level_witness :
  10 <= Z.abs 10 <= 99 /\
  MOTION_MOT1 (Some 10) (fresh (replying [x23]))
  = (Fault ValueError, fresh (replying [x23])).
Proof.
  split; [simpl; lia|].
  apply (MOTION_MOT_two_digit_level (fresh (replying [x23])) 10). simpl; lia.
Defined.

Lemma stop_tracking_frames_witness :
  idle (fresh (replying [x23])) /\
  exists t1,
    stop_tracking _change_motion_status (fresh (replying [x23]))
    = _change_motion_status IDLE t1 /\
    map fst (wire t1)
    = [[x50; x03; x10; x06; x00; x00; x00; x00];
       [x50; x03; x11; x06; x00; x00; x00; x00]].
Proof.
  split; [split; reflexivity|].
  destruct (stop_tracking_frames _change_motion_status
              (fresh (replying [x23])) (conj eq_refl eq_refl))
    as (t1 & E & _ & W & _).
  exists t1. split; [exact E | exact W].
Defined.

Lemma StartConfig_sends_commands_witness :
  idle (fresh (replying [x23])) /\
  Forall (fun kv => exists s, fromhex (snd kv) = Ok s)
         [("stop", "4d"); ("where", "5001100100000003")] /\
  exists t',
    StartConfig (Ok [("stop", "4d"); ("where", "5001100100000003")])
                (fresh (replying [x23]))
    = (Done tt, t') /\
    map fst (wire t')
    = [[x4d]; [x50; x01; x10; x01; x00; x00; x00; x03]].
Proof.
  assert (F : Forall (fun kv => exists s, fromhex (snd kv) = Ok s)
                     [("stop", "4d"); ("where", "5001100100000003")]).
  { repeat constructor; eexists; reflexivity. }
  split; [split; reflexivity|]. split; [exact F|].
  destruct (proj1 (StartConfig_sends_commands
                     [("stop", "4d"); ("where", "5001100100000003")]
                     (fresh (replying [x23])) (conj eq_refl eq_refl)) F)
    as (t' & E & _ & _ & W & _).
  exists t'. split; [exact E | exact W].
Defined.

Lemma ReadClean_drains_witness :
  let t := fresh (mkMount (fun _ => []) (fun _ => []) (fun _ => []) 0 0 [x23]) in
  (forall j, (j < 1)%nat -> fst (ser_readline (reads j (ser t))) <> []) /\
  fst (ser_readline (reads 1 (ser t))) = [] /\
  ReadClean 5 t = (Done tt, set_ser (reads 2 (ser t)) t).
Proof.
  intros t.
  assert (D : forall j, (j < 1)%nat -> fst (ser_readline (reads j (ser t))) <> []).
  { intros j Hj. replace j with 0%nat by lia. discriminate. }
  split; [exact D|]. split; [reflexivity|].
  apply (proj1 (ReadClean_drains 1 t D eq_refl 5)). lia.
Defined.

Lemma RS232_Talk_waits_behind_witness :
  let t := set_RS232_QUEUE [7] (fresh (replying [x23])) in
  lock_RS232_comm t = false /\ RS232_QUEUE t = [7] /\
  fromhex "4d" = Ok [x4d] /\ 7 <> (identity t + 1) mod 10000 /\
  exists t', RS232_Talk "4d" t = (Waiting, t') /\ wire t' = [].
Proof.
  intros t.
  assert (N : 7 <> (identity t + 1) mod 10000) by discriminate.
  split; [reflexivity|]. split; [reflexivity|]. split; [reflexivity|].
  split; [exact N|].
  destruct (RS232_Talk_waits_behind "4d" [x4d] 7 [] t eq_refl eq_refl eq_refl N)
    as (t' & E & W & _).
  exists t'. split; [exact E | exact W].
Defined.

Lemma park_reaches_parked_witness :
  idle (fresh (replying [xff; x00])) /\
  exists a1 d1 a2 d2 : nat,
    forall budget,
      (Nat.max (Nat.max a1 d1) (Nat.max a2 d2) < budget)%nat ->
      exists t',
        park budget (fresh (replying [xff; x00])) = (Done tt, t') /\
        motion_status t' = PARKED.
Proof.
  split; [split; reflexivity|].
  destruct (park_reaches_parked (fresh (replying [xff; x00])))
    as (a1 & d1 & a2 & d2 & Hrun).
  - split; reflexivity.
  - intros i. simpl. lia.
  - intros i. simpl. lia.
  - intros i0. exists i0. split; [lia | reflexivity].
  - intros i0. exists i0. split; [lia | reflexivity].
  - exists a1, d1, a2, d2. intros budget Hb.
    destruct (Hrun budget Hb) as (t' & E & S & _).
    exists t'. split; [exact E | exact S].
Defined.


Lemma get_radec_never_raises_witness :
  idle (fresh (replying [x80; x00; x00; x23])) /\
  (0 <= mot2 (fresh (replying [x80; x00; x00; x23])))%Q /\
  exists r d t',
    get_radec true 5 (fresh (replying [x80; x00; x00; x23])) = (Done (r, d), t') /\
    (0 <= r)%Q /\ (r <= 360)%Q.
Proof.
  split; [split; reflexivity|]. split; [discriminate|].
  destruct (get_radec_never_raises 5 (fresh (replying [x80; x00; x00; x23]))
              (conj eq_refl eq_refl))
    as [(r & d & t' & E & _ & _ & _ & R0 & R1 & _) _].
  - discriminate.
  - exists r, d, t'. split; [exact E|]. split; [exact R0 | exact R1].
Defined.

Lemma GOTO_MOT_frame_witness :
  (0 <= 90)%Q /\ 0 <= 2 /\
  (exists cmd,
     GOTO_MOT1 90 true = Ok cmd /\
     fromhex cmd = Ok [x50; x04; x10; x02; x40; x00; x00; x00]) /\
  GOTO_MOT2 (90 + 360 * inject_Z 2) false = GOTO_MOT2 90 false.
Proof.
  split; [discriminate|]. split; [lia|].
  destruct (GOTO_MOT_frame 90 true 2) as (_ & (cmd & G & _ & F) & _).
  - discriminate.
  - lia.
  - split; [exists cmd; split; [exact G | exact F]|].
    destruct (GOTO_MOT_frame 90 false 2) as (_ & _ & _ & _ & T).
    + discriminate.
    + lia.
    + exact T.
Defined.

Lemma GET_MOT_indexes_reply_witness :
  idle (fresh (replying [x80; x00])) /\
  exists t',
    TelescopeComm.GET_MOT1 (fresh (replying [x80; x00])) = (Fault IndexError, t') /\
    idle t'.
Proof.
  split; [split; reflexivity|].
  destruct (proj1 (GET_MOT_indexes_reply (fresh (replying [x80; x00]))
                     (conj eq_refl eq_refl)))
    as (t' & I & _ & _ & _ & E).
  exists t'. split; [exact E | exact I].
Defined.

Lemma tracking_rate_too_large_witness :
  idle (fresh (replying [x23])) /\ 65536 <= Z.abs 20000 * 4 < 1048576 /\
  exists t',
    tracking (PyInt 20000) (PyInt 0) (fresh (replying [x23]))
    = (Fault ValueError, t') /\
    wire t' = [] /\ motion_status t' = TRACKING.
Proof.
  split; [split; reflexivity|]. split; [simpl; lia|].
  destruct (proj1 (tracking_rate_too_large (fresh (replying [x23])) 20000 0
                     (conj eq_refl eq_refl)) ltac:(simpl; lia))
    as (t' & E & W & _ & S & _).
  exists t'. split; [exact E|]. split; [exact W | exact S].
Defined.

End Instances.

Module ThreadsInstances.
Import Threads.
Import ThreadsFacts.
Import ThreadsSafety.
Local Open Scope list_scope.
Local Open Scope Z_scope.

Lemma demo_state_reachable : reachable 1000 2 demo_state.
Proof.
  apply (run_reachable 1000 2 [0; 0; 0; 0; 0; 0; 0; 0; 1; 1]%nat (init 2));
    [apply reach_init | vm_compute; reflexivity].
Qed.

Lemma queue_handlers_never_run_witness :
  0 < 1000 /\ Z.of_nat 2 <= 1000 /\ reachable 1000 2 demo_state /\
  pc (thr demo_state 0) <> Crashed.
Proof.
  split; [lia|]. split; [simpl; lia|]. split; [exact demo_state_reachable|].
  apply (queue_handlers_never_run 1000 2 demo_state 0);
    [lia | simpl; lia | exact demo_state_reachable].
Defined.

Lemma one_caller_past_the_test_witness :
  0 < 1000 /\ Z.of_nat 2 <= 1000 /\ reachable 1000 2 demo_state /\
  critical (pc (thr demo_state 0)) = true /\
  hd_error (RS232_QUEUE demo_state) = Some (my_id (thr demo_state 0)).
Proof.
  split; [lia|]. split; [simpl; lia|]. split; [exact demo_state_reachable|].
  split; [reflexivity|].
  apply (one_caller_past_the_test 1000 2 demo_state 0 1);
    [lia | simpl; lia | exact demo_state_reachable | reflexivity].
Defined.

Lemma queue_tickets_distinct_witness :
  0 < 1000 /\ Z.of_nat 2 <= 1000 /\ reachable 1000 2 demo_state /\
  NoDup (RS232_QUEUE demo_state).
Proof.
  split; [lia|]. split; [simpl; lia|]. split; [exact demo_state_reachable|].
  apply (queue_tickets_distinct 1000 2 demo_state);
    [lia | simpl; lia | exact demo_state_reachable].
Defined.

End ThreadsInstances.
